(** * Explain Anything: streaming orchestration, rendering and error
    classification, verified over a shallow embedding of the JavaScript
    sources.

    - [src/content/content.js]: [parseError], [parseMarkdown], [escapeHtml],
      [isRTLWord], [detectTextDirection];
    - [src/providers/openrouter.js], [src/providers/gemini.js]: the two
      provider adapters ([send], [fetchModels]);
    - [src/background/service-worker.js]: the request orchestrator.

    JavaScript strings are sequences of UTF-16 code units; they are modelled
    as lists of [N].  Regular expressions are kept as syntax trees that
    transcribe the source literals one to one, and are run by a backtracking
    matcher that enumerates the matches in the priority order of the
    ECMAScript semantics. *)

From Stdlib Require Import String Ascii DecimalString.
From Stdlib Require Import List NArith ZArith QArith Arith Bool Lia.
Import ListNotations.
Local Open Scope nat_scope.
Local Open Scope list_scope.

Set Implicit Arguments.

(* ===================================================================== *)
(** * JavaScript strings *)
(* ===================================================================== *)

Module JS.

(** A UTF-16 code unit. *)
Abbreviation jschar := N.
Abbreviation jsstring := (list jschar).

Definition ch (a : ascii) : jschar := N_of_ascii a.

(** An ASCII literal as a JavaScript string. *)
Definition str (s : string) : jsstring := map ch (list_ascii_of_string s).

Definition dquote : jschar := 34%N.
Definition newline : jschar := 10%N.

(** [a === b] on strings. *)
Fixpoint jseqb (a b : jsstring) : bool :=
  match a, b with
  | [], [] => true
  | x :: a', y :: b' => N.eqb x y && jseqb a' b'
  | _, _ => false
  end.

(** [s.substring(a, b)], which is only ever called with [a <= b]. *)
Definition substring {A} (s : list A) (a b : nat) : list A :=
  firstn (b - a) (skipn a s).

(** Character sets, as written between brackets in a regular expression. *)
Inductive cset :=
| CRange (lo hi : N)
| CUnion (a b : cset)
| CNot (a : cset).
Arguments CRange (lo hi)%_N.

Fixpoint cmatch (cs : cset) (c : jschar) : bool :=
  match cs with
  | CRange lo hi => N.leb lo c && N.leb c hi
  | CUnion a b => cmatch a c || cmatch b c
  | CNot a => negb (cmatch a c)
  end.

Definition cOne (c : jschar) : cset := CRange c c.
Arguments cOne c%_N.
Definition cChar (a : ascii) : cset := cOne (ch a).

(** The union of the sets of a list. *)
Fixpoint cAny (l : list cset) : cset :=
  match l with
  | [] => CNot (CUnion (CRange 0 0) (CNot (CRange 0 0)))
  | [x] => x
  | x :: l' => CUnion x (cAny l')
  end.

(** [\s]: WhiteSpace and LineTerminator of ECMAScript. *)
Definition cSpace : cset :=
  cAny [CRange 9 13; cOne 32; cOne 160; cOne 5760; CRange 8192 8202;
        cOne 8232; cOne 8233; cOne 8239; cOne 8287; cOne 12288; cOne 65279].

(** LineTerminator: LF, CR, LS, PS. *)
Definition cLineTerm : cset := cAny [cOne 10; cOne 13; cOne 8232; cOne 8233].

(** [.] without the [s] flag. *)
Definition cDot : cset := CNot cLineTerm.

(** [\d] and [\w]. *)
Definition cDigit : cset := CRange 48 57.
Definition cWord : cset := cAny [CRange 97 122; CRange 65 90; cDigit; cOne 95].

Definition isSpace (c : jschar) : bool := cmatch cSpace c.
Definition isLineTerm (c : jschar) : bool := cmatch cLineTerm c.

(** ** Regular expressions *)

Inductive regex :=
| Eps
| Chr (cs : cset)
| Seq (r1 r2 : regex)
| Alt (r1 r2 : regex)
| Star (greedy : bool) (r : regex)
| Group (k : nat) (r : regex)
| Bol (multiline : bool)
| Eol (multiline : bool).

Definition Plus (greedy : bool) (r : regex) : regex := Seq r (Star greedy r).
Definition Opt (r : regex) : regex := Alt r Eps.

Fixpoint SeqL (l : list regex) : regex :=
  match l with
  | [] => Eps
  | [r] => r
  | r :: l' => Seq r (SeqL l')
  end.

(** A literal run of characters. *)
Definition Lit (s : string) : regex := SeqL (map (fun a => Chr (cChar a)) (list_ascii_of_string s)).

(** Captures: group number to the (start, end) indices it last matched. *)
Definition caps := list (nat * (nat * nat)).

Fixpoint cap_get (k : nat) (c : caps) : option (nat * nat) :=
  match c with
  | [] => None
  | (k', se) :: c' => if Nat.eqb k k' then Some se else cap_get k c'
  end.

(** The group numbers written inside an expression. *)
Fixpoint groups (r : regex) : list nat :=
  match r with
  | Seq r1 r2 => groups r1 ++ groups r2
  | Alt r1 r2 => groups r1 ++ groups r2
  | Star _ r1 => groups r1
  | Group k r1 => k :: groups r1
  | _ => []
  end.

(** The captures with those of the groups [ks] reset to undefined. *)
Definition clear_caps (ks : list nat) (c : caps) : caps :=
  filter (fun kv => negb (existsb (Nat.eqb (fst kv)) ks)) c.

(** One quantifier loop (RepeatMatcher).  [step] is the matcher of the
    body, which starts every iteration with the captures of its own groups
    reset.  An iteration that consumes nothing is rejected (the empty
    check), so at most [length s - i] iterations happen and the fuel
    [S (length s - i)] never runs out. *)
Fixpoint star_loop (step : nat -> caps -> list (nat * caps)) (greedy : bool)
         (fuel : nat) (i : nat) (c : caps) : list (nat * caps) :=
  match fuel with
  | 0 => [(i, c)]
  | S f =>
      let more :=
        flat_map (fun jc => if Nat.ltb i (fst jc)
                            then star_loop step greedy f (fst jc) (snd jc)
                            else [])
                 (step i c) in
      if greedy then more ++ [(i, c)] else (i, c) :: more
  end.

(** All the ways [r] matches [s] from index [i], best first: each result is
    the end index and the captures. *)
Fixpoint rmatch (r : regex) (s : jsstring) (i : nat) (c : caps) {struct r}
  : list (nat * caps) :=
  match r with
  | Eps => [(i, c)]
  | Chr cs =>
      match nth_error s i with
      | Some x => if cmatch cs x then [(S i, c)] else []
      | None => []
      end
  | Seq r1 r2 =>
      flat_map (fun jc => rmatch r2 s (fst jc) (snd jc)) (rmatch r1 s i c)
  | Alt r1 r2 => rmatch r1 s i c ++ rmatch r2 s i c
  | Star g r1 =>
      star_loop (fun i' c' => rmatch r1 s i' (clear_caps (groups r1) c'))
                g (S (length s - i)) i c
  | Group k r1 =>
      map (fun jc => (fst jc, (k, (i, fst jc)) :: snd jc)) (rmatch r1 s i c)
  | Bol ml =>
      match i with
      | 0 => [(i, c)]
      | S p =>
          match nth_error s p with
          | Some x => if ml && isLineTerm x then [(i, c)] else []
          | None => []
          end
      end
  | Eol ml =>
      match nth_error s i with
      | None => if Nat.eqb i (length s) then [(i, c)] else []
      | Some x => if ml && isLineTerm x then [(i, c)] else []
      end
  end.

(** A successful match. *)
Record mres := MRes { m_start : nat; m_end : nat; m_caps : caps }.

Fixpoint search_from (r : regex) (s : jsstring) (fuel i : nat) : option mres :=
  match fuel with
  | 0 => None
  | S f =>
      match rmatch r s i [] with
      | (j, c) :: _ => Some (MRes i j c)
      | [] => search_from r s f (S i)
      end
  end.

(** [RegExpBuiltinExec] with [lastIndex = i]: the first index from [i] on at
    which the expression matches, up to and including [length s]. *)
Definition exec (r : regex) (s : jsstring) (i : nat) : option mres :=
  search_from r s (S (length s) - i) i.

(** The loop of [RegExp.prototype[Symbol.split]] on a non-empty string:
    [p] is the start of the pending piece, [q] the index tried next.  The
    expression is tried at [q] only (sticky); an empty match at [p] is
    skipped. *)
Fixpoint split_loop (fuel : nat) (r : regex) (s : jsstring) (p q : nat)
  : list jsstring :=
  match fuel with
  | 0 => [skipn p s]
  | S f =>
      if Nat.ltb q (length s) then
        match rmatch r s q [] with
        | [] => split_loop f r s p (S q)
        | (e0, _) :: _ =>
            let e := Nat.min e0 (length s) in
            if Nat.eqb e p then split_loop f r s p (S q)
            else substring s p q :: split_loop f r s e e
        end
      else [skipn p s]
  end.

(** [s.split(/r/)] for an expression without groups and without limit. *)
Definition split_re (r : regex) (s : jsstring) : list jsstring :=
  match s with
  | [] => match rmatch r s 0 [] with [] => [s] | _ :: _ => [] end
  | _ :: _ => split_loop (2 * S (length s)) r s 0 0
  end.

(** [r.test(s)] for an expression without the [g] flag. *)
Definition test (r : regex) (s : jsstring) : bool :=
  match exec r s 0 with Some _ => true | None => false end.

(** ** Strings whose characters carry extra data

    The string operations below act on lists of any character type [A] with
    a code unit [code a]; the matcher only ever sees the code units.  At
    [A := jschar] they are the JavaScript operations; at a type of tagged
    characters they also track where each output character comes from. *)

Section Generic.
Variable A : Type.
Variable code : A -> jschar.
Variable lit : jschar -> A.

Definition codes (s : list A) : jsstring := map code s.

(** What a replacement is made of: literal text, [$n], [$&]. *)
Inductive tpl_item :=
| TLit (s : jsstring)
| TGroup (k : nat)
| TWhole.

Definition group_text (s : list A) (m : mres) (k : nat) : option (list A) :=
  match cap_get k (m_caps m) with
  | Some (a, b) => Some (substring s a b)
  | None => None
  end.

Definition whole_text (s : list A) (m : mres) : list A :=
  substring s (m_start m) (m_end m).

Definition expand_item (s : list A) (m : mres) (t : tpl_item) : list A :=
  match t with
  | TLit l => map lit l
  | TGroup k => match group_text s m k with Some g => g | None => [] end
  | TWhole => whole_text s m
  end.

(** GetSubstitution. *)
Definition expand (t : list tpl_item) (s : list A) (m : mres) : list A :=
  flat_map (expand_item s m) t.

(** The loop of [RegExp.prototype[Symbol.replace]] for a global
    expression: [pos] is [lastIndex], [prev] the end of the previous
    match; after an empty match [lastIndex] advances by one. *)
Fixpoint replace_loop (fuel : nat) (r : regex) (s : list A)
         (f : list A -> mres -> list A) (pos prev : nat) : list A :=
  match fuel with
  | 0 => skipn prev s
  | S fu =>
      match exec r (codes s) pos with
      | None => skipn prev s
      | Some m =>
          substring s prev (m_start m) ++ f s m ++
          replace_loop fu r s f
            (if Nat.eqb (m_end m) (m_start m) then S (m_end m) else m_end m)
            (m_end m)
      end
  end.

(** [s.replace(/r/g, f)]. *)
Definition replace_fn (r : regex) (f : list A -> mres -> list A) (s : list A) : list A :=
  replace_loop (S (S (length s))) r s f 0 0.

(** [s.replace(/r/g, 'template')]. *)
Definition replace_all (r : regex) (t : list tpl_item) (s : list A) : list A :=
  replace_fn r (expand t) s.

(** [s.trim()]. *)
Fixpoint trimStart (s : list A) : list A :=
  match s with
  | [] => []
  | a :: s' => if isSpace (code a) then trimStart s' else s
  end.

Definition trimEnd (s : list A) : list A := rev (trimStart (rev s)).

Definition trim (s : list A) : list A := trimEnd (trimStart s).

(** [s.split(c)] for a one-character separator [c]. *)
Fixpoint split_char (c : jschar) (s : list A) : list (list A) :=
  match s with
  | [] => [[]]
  | a :: s' =>
      if N.eqb (code a) c then [] :: split_char c s'
      else match split_char c s' with
           | [] => [[a]]
           | w :: ws => (a :: w) :: ws
           end
  end.

(** [l.join('')]. *)
Definition join (l : list (list A)) : list A := concat l.

Definition is_empty (s : list A) : bool :=
  match s with [] => true | _ => false end.

End Generic.

(** [a || b] on strings. *)
Definition or_else_s (a b : jsstring) : jsstring :=
  match a with [] => b | _ :: _ => a end.

(** [s.startsWith(p)] *)
Fixpoint starts_with (p s : jsstring) : bool :=
  match p, s with
  | [], _ => true
  | x :: p', y :: s' => N.eqb x y && starts_with p' s'
  | _ :: _, [] => false
  end.

(** [s.includes(p)] *)
Fixpoint includes (s p : jsstring) : bool :=
  starts_with p s ||
  match s with
  | [] => false
  | _ :: s' => includes s' p
  end.

End JS.

(* ===================================================================== *)
(** * The markdown renderer ([content.js]) *)
(* ===================================================================== *)

Module Markdown.
Import JS.

(** Where a character of the rendered markup comes from: copied from the
    text handed to the renderer, part of an entity written by [escapeHtml]
    for one character of that text, or written by the renderer itself. *)
Inductive origin := FromInput | FromEscape | FromRenderer.

Abbreviation tchar := (jschar * origin)%type.

(** [escapeHtml]: the text becomes the data of a DOM text node, which
    [innerHTML] serialises by the HTML fragment serialisation algorithm:
    [&], U+00A0, [<] and [>] are written as entities, every other code unit
    as it is. *)
Definition escape_char (c : jschar) : jsstring :=
  if N.eqb c (ch "&") then str "&amp;"
  else if N.eqb c 160 then str "&nbsp;"
  else if N.eqb c (ch "<") then str "&lt;"
  else if N.eqb c (ch ">") then str "&gt;"
  else [c].

Definition escapeHtml (text : jsstring) : jsstring := flat_map escape_char text.

(** The same with origins: the characters of an entity are tagged as
    written by the escape, the others as copied. *)
Definition escape_charT (c : jschar) : list tchar :=
  if N.eqb c (ch "&") then map (fun x => (x, FromEscape)) (str "&amp;")
  else if N.eqb c 160 then map (fun x => (x, FromEscape)) (str "&nbsp;")
  else if N.eqb c (ch "<") then map (fun x => (x, FromEscape)) (str "&lt;")
  else if N.eqb c (ch ">") then map (fun x => (x, FromEscape)) (str "&gt;")
  else [(c, FromInput)].

Definition escapeHtmlT (text : jsstring) : list tchar := flat_map escape_charT text.

Section Render.
Variable A : Type.
Variable code : A -> jschar.
Variable lit : jschar -> A.

Abbreviation L s := (TLit (str s)).
Abbreviation lits s := (map lit (str s)).

(** [/```(\w+)?\n([\s\S]*?)```/g] *)
Definition re_fence : regex :=
  SeqL [Lit "```"; Opt (Group 1 (Plus true (Chr cWord))); Chr (cOne 10);
        Group 2 (Star false (Chr (CUnion cSpace (CNot cSpace)))); Lit "```"].

(** The callback of the code-block replacement. *)
Definition fence_fn (s : list A) (m : mres) : list A :=
  let lang := match group_text s m 1 with
              | Some l => if is_empty l then lits "plaintext" else l
              | None => lits "plaintext"
              end in
  let code_ := match group_text s m 2 with Some c => c | None => [] end in
  lits "<pre><code class=" ++ [lit dquote] ++ lits "language-" ++ lang
    ++ [lit dquote] ++ lits ">" ++ trim code code_ ++ lits "</code></pre>".

(** [/`([^`]+)`/g] *)
Definition re_code : regex :=
  SeqL [Lit "`"; Group 1 (Plus true (Chr (CNot (cChar "`")))); Lit "`"].

(** [/\*\*([^*]+)\*\*/g] *)
Definition re_bold : regex :=
  SeqL [Lit "**"; Group 1 (Plus true (Chr (CNot (cChar "*")))); Lit "**"].

(** [/\*([^*]+)\*/g] *)
Definition re_italic : regex :=
  SeqL [Lit "*"; Group 1 (Plus true (Chr (CNot (cChar "*")))); Lit "*"].

(** [/^PREFIX(.+)$/gm] *)
Definition re_line (prefix : regex) : regex :=
  SeqL [Bol true; prefix; Group 1 (Plus true (Chr cDot)); Eol true].

(** [/(<li>.*<\/li>\n?)+/g] *)
Definition re_li_run : regex :=
  Plus true
    (Group 1 (SeqL [Lit "<li>"; Star true (Chr cDot); Lit "</li>"; Opt (Chr (cOne 10))])).

(** [/\[([^\]]+)\]\(([^)]+)\)/g] *)
Definition re_link : regex :=
  SeqL [Lit "["; Group 1 (Plus true (Chr (CNot (cChar "]")))); Lit "](";
        Group 2 (Plus true (Chr (CNot (cChar ")")))); Lit ")"].

(** [/^---$/gm] *)
Definition re_hr : regex := SeqL [Bol true; Lit "---"; Eol true].

(** [/(\|[^\n]*\|\n\|[:\-| ]+\|\n(?:\|[^\n]*\|(?:\n|$))+)/g] *)
Definition re_table : regex :=
  Group 1 (SeqL
    [Lit "|"; Star true (Chr (CNot (cOne 10))); Lit "|"; Chr (cOne 10);
     Lit "|"; Plus true (Chr (cAny [cChar ":"; cChar "-"; cChar "|"; cChar " "]));
     Lit "|"; Chr (cOne 10);
     Plus true (SeqL [Lit "|"; Star true (Chr (CNot (cOne 10))); Lit "|";
                      Alt (Chr (cOne 10)) (Eol false)])]).

(** [isSeparator]: [/^[\s|:\-]+$/.test(line)] *)
Definition re_separator : regex :=
  SeqL [Bol false; Plus true (Chr (cAny [cSpace; cChar "|"; cChar ":"; cChar "-"]));
        Eol false].

Definition isSeparator (line : list A) : bool := test re_separator (codes code line).

(** The [for] loop that looks for the separator row from index 1 on. *)
Fixpoint find_separator (lines : list (list A)) (i : nat) : option nat :=
  match lines with
  | [] => None
  | l :: rest => if isSeparator l then Some i else find_separator rest (S i)
  end.

(** [parseRow] *)
Definition parseRow (line : list A) : list (list A) :=
  let cells := map (trim code) (split_char code (ch "|") line) in
  let cells := match cells with
               | c :: rest => if is_empty c then rest else cells
               | [] => cells
               end in
  match rev cells with
  | c :: rest => if is_empty c then rev rest else cells
  | [] => cells
  end.

Definition row_html (tag : string) (line : list A) : list A :=
  lits "<tr>"
    ++ join (map (fun cell => lits "<" ++ lits tag ++ lits ">" ++ cell
                                ++ lits "</" ++ lits tag ++ lits ">")
                 (parseRow line))
    ++ lits "</tr>".

(** The callback of the table replacement. *)
Definition table_fn (s : list A) (m : mres) : list A :=
  let whole := whole_text s m in
  let lines := filter (fun line => negb (is_empty (trim code line)))
                      (split_char code 10%N (trim code whole)) in
  if Nat.ltb (length lines) 2 then whole
  else
    match find_separator (tl lines) 1 with
    | None => whole
    | Some separatorIndex =>
        lits "<table>"
          ++ row_html "th" (hd [] lines)
          ++ join (map (row_html "td") (skipn (separatorIndex + 1) lines))
          ++ lits "</table>"
    end.

(** [/\n\n/g] *)
Definition re_blank : regex := Seq (Chr (cOne 10)) (Chr (cOne 10)).

(** [/<p>\s*(TAG)/g] and [/(TAG)\s*<\/p>/g] *)
Definition re_p_before (tag : regex) : regex :=
  SeqL [Lit "<p>"; Star true (Chr cSpace); Group 1 tag].
Definition re_p_after (tag : regex) : regex :=
  SeqL [Group 1 tag; Star true (Chr cSpace); Lit "</p>"].

Definition re_h_open : regex := SeqL [Lit "<h"; Chr (CRange 49 52); Lit ">"].
Definition re_h_close : regex := SeqL [Lit "</h"; Chr (CRange 49 52); Lit ">"].

(** The body of [parseMarkdown] after [escapeHtml], statement by
    statement. *)
Definition render (html : list A) : list A :=
  let html := replace_fn code re_fence fence_fn html in
  let html := replace_all code lit re_code [L "<code>"; TGroup 1; L "</code>"] html in
  let html := replace_all code lit re_bold [L "<strong>"; TGroup 1; L "</strong>"] html in
  let html := replace_all code lit re_italic [L "<em>"; TGroup 1; L "</em>"] html in
  let html := replace_all code lit (re_line (Lit "#### ")) [L "<h4>"; TGroup 1; L "</h4>"] html in
  let html := replace_all code lit (re_line (Lit "### ")) [L "<h3>"; TGroup 1; L "</h3>"] html in
  let html := replace_all code lit (re_line (Lit "## ")) [L "<h2>"; TGroup 1; L "</h2>"] html in
  let html := replace_all code lit (re_line (Lit "# ")) [L "<h1>"; TGroup 1; L "</h1>"] html in
  let html := replace_all code lit (re_line (Lit "&gt; "))
                [L "<blockquote>"; TGroup 1; L "</blockquote>"] html in
  let html := replace_all code lit (re_line (Lit "- ")) [L "<li>"; TGroup 1; L "</li>"] html in
  let html := replace_all code lit re_li_run [L "<ul>"; TWhole; L "</ul>"] html in
  let html := replace_all code lit
                (re_line (SeqL [Plus true (Chr cDigit); Lit ". "]))
                [L "<li>"; TGroup 1; L "</li>"] html in
  let html := replace_all code lit re_link
                [L "<a href="; TLit [dquote]; TGroup 2; TLit [dquote];
                 L " target="; TLit [dquote]; L "_blank"; TLit [dquote];
                 L " rel="; TLit [dquote]; L "noopener"; TLit [dquote];
                 L ">"; TGroup 1; L "</a>"] html in
  let html := replace_all code lit re_hr [L "<hr>"] html in
  let html := replace_fn code re_table table_fn html in
  let html := replace_all code lit re_blank [L "</p><p>"] html in
  let html := lits "<p>" ++ html ++ lits "</p>" in
  let html := replace_all code lit
                (SeqL [Lit "<p>"; Star true (Chr cSpace); Lit "</p>"]) [] html in
  let html := replace_all code lit (re_p_before re_h_open) [TGroup 1] html in
  let html := replace_all code lit (re_p_after re_h_close) [TGroup 1] html in
  let html := replace_all code lit (re_p_before (Lit "<ul>")) [TGroup 1] html in
  let html := replace_all code lit (re_p_after (Lit "</ul>")) [TGroup 1] html in
  let html := replace_all code lit (re_p_before (Lit "<pre>")) [TGroup 1] html in
  let html := replace_all code lit (re_p_after (Lit "</pre>")) [TGroup 1] html in
  let html := replace_all code lit (re_p_before (Lit "<blockquote>")) [TGroup 1] html in
  let html := replace_all code lit (re_p_after (Lit "</blockquote>")) [TGroup 1] html in
  let html := replace_all code lit (re_p_before (Lit "<hr>")) [TGroup 1] html in
  let html := replace_all code lit (re_p_after (Lit "<hr>")) [TGroup 1] html in
  let html := replace_all code lit (re_p_before (Lit "<table>")) [TGroup 1] html in
  let html := replace_all code lit (re_p_after (Lit "</table>")) [TGroup 1] html in
  html.

End Render.

(** [parseMarkdown(text)]. *)
Definition parseMarkdown (text : jsstring) : jsstring :=
  if is_empty text then []
  else render (fun c => c) (fun c => c) (escapeHtml text).

(** The same run over tagged characters: what the matcher sees is the same,
    and every character of the output keeps its origin. *)
Definition parseMarkdownT (text : jsstring) : list tchar :=
  if is_empty text then []
  else render fst (fun c => (c, FromRenderer)) (escapeHtmlT text).

End Markdown.

(* ===================================================================== *)
(** * Text-direction classification ([content.js]) *)
(* ===================================================================== *)

Module Direction.
Import JS.
Local Open Scope Q_scope.

Inductive direction := Ltr | Rtl.

(** The right-to-left class of [isRTLWord]:
    [\u0591-\u07FF \u200F \u202B \u202E \uFB1D-\uFDFD \uFE70-\uFEFC]. *)
Definition cRtl : cset :=
  cAny [CRange 0x0591 0x07FF; cOne 0x200F; cOne 0x202B; cOne 0x202E;
        CRange 0xFB1D 0xFDFD; CRange 0xFE70 0xFEFC].

Definition rtlPattern : regex := Chr cRtl.

(** [isRTLWord(word)] *)
Definition isRTLWord (word : jsstring) : bool := test rtlPattern word.

(** The separator class of [detectTextDirection]:
    [[\s\.,;:!?\-\(\)\[\]{}'<>\/\\]] together with the double quote. *)
Definition cDelim : cset :=
  cAny [cSpace; cChar "."; cChar ","; cChar ";"; cChar ":"; cChar "!";
        cChar "?"; cChar "-"; cChar "("; cChar ")"; cChar "["; cChar "]";
        cChar "{"; cChar "}"; cChar "'"; cOne 34; cChar "<"; cChar ">";
        cChar "/"; cChar "\"].

Definition re_delims : regex := Plus true (Chr cDelim).

(** [[A-Za-z]] *)
Definition cLatin : cset := cAny [CRange 65 90; CRange 97 122].

(** One step of the [forEach] that counts the words; the state is
    [(rtlWordCount, ltrWordCount)]. *)
Definition count_word (st : nat * nat) (word : jsstring) : nat * nat :=
  if isRTLWord word then (S (fst st), snd st)
  else if test (Chr cLatin) word then (fst st, S (snd st))
  else st.

(** [rtlWordCount / totalDirectionalWords > 0.5].  The counts are bounded by
    the length of the text, far below 2^53, where the double-precision
    quotient of two integers compares with 0.5 as the exact quotient does. *)
Definition more_than_half (rtlWordCount total : nat) : bool :=
  negb (Qle_bool (inject_Z (Z.of_nat rtlWordCount) / inject_Z (Z.of_nat total)) (1 # 2)).

(** [w => w.length > 0] *)
Definition nonempty_word (w : jsstring) : bool := Nat.ltb 0 (length w).

(** [detectTextDirection(text)] *)
Definition detectTextDirection (text : jsstring) : direction :=
  if is_empty text then Ltr
  else
    let words := filter nonempty_word (split_re re_delims text) in
    if Nat.eqb (length words) 0 then Ltr
    else
      let counts := fold_left count_word words (0%nat, 0%nat) in
      let rtlWordCount := fst counts in
      let ltrWordCount := snd counts in
      let totalDirectionalWords := (rtlWordCount + ltrWordCount)%nat in
      if Nat.eqb totalDirectionalWords 0 then Ltr
      else if more_than_half rtlWordCount totalDirectionalWords then Rtl else Ltr.

(** ** The classification as the specification words it *)

Definition is_delim (c : jschar) : bool := cmatch cDelim c.

(** The words of a text: its maximal runs of characters that are neither
    white space nor punctuation.  [cur] is the run being read, reversed. *)
Fixpoint words_from (cur : jsstring) (s : jsstring) : list jsstring :=
  match s with
  | [] => if is_empty cur then [] else [rev cur]
  | x :: s' =>
      if is_delim x
      then (if is_empty cur then words_from [] s' else rev cur :: words_from [] s')
      else words_from (x :: cur) s'
  end.

Definition words_of (text : jsstring) : list jsstring := words_from [] text.

(** The length of the longest prefix of [l] made of characters of [cs]. *)
Fixpoint run (cs : cset) (l : jsstring) : nat :=
  match l with
  | x :: l' => if cmatch cs x then S (run cs l') else 0
  | [] => 0
  end.

Definition has_rtl_char (w : jsstring) : bool := existsb (cmatch cRtl) w.
Definition has_latin_letter (w : jsstring) : bool := existsb (cmatch cLatin) w.

(** Right-to-left words, and left-to-right words: those with a Latin letter
    and no right-to-left character. *)
Definition rtl_words (ws : list jsstring) : nat := length (filter has_rtl_char ws).
Definition ltr_words (ws : list jsstring) : nat :=
  length (filter (fun w => negb (has_rtl_char w) && has_latin_letter w) ws).

(** The direction the specification asks for. *)
Definition direction_of_words (ws : list jsstring) : direction :=
  if Nat.ltb (rtl_words ws + ltr_words ws) (2 * rtl_words ws) then Rtl else Ltr.

(** ** The words that count, as the claim has them *)

(** The decimal digits of the scripts concerned: ASCII, Arabic-Indic
    (U+0660 to U+0669), Eastern Arabic-Indic (U+06F0 to U+06F9) and NKo
    (U+07C0 to U+07C9). *)
Definition cDigit : cset :=
  cAny [CRange 48 57; CRange 0x0660 0x0669; CRange 0x06F0 0x06F9; CRange 0x07C0 0x07C9].




End Direction.

(* ===================================================================== *)
(** * The error classifier ([parseError] in [content.js]) *)
(* ===================================================================== *)

Module Errors.
Import JS.

(** A property of a structured error as [parseError] looks at it: a string,
    or anything else (absent, [undefined], a number, a nested object). *)
Inductive field :=
| FString (s : jsstring)
| FOther.

(** What [JSON.stringify(errorText)] does. *)
Inductive stringified :=
| JsonText (s : jsstring)
| JsonUndefined
| JsonThrows.

(** A structured error: the four properties that are read, and the
    serialised form of the whole object. *)
Record errobj := ErrObj {
  f_cause : field;
  f_code : field;
  f_message : field;
  f_error : field;
  f_json : stringified
}.

(** The argument of [parseError]. *)
Inductive errinput :=
| EAbsent                                   (* undefined or null *)
| EString (s : jsstring)
| EObject (o : errobj)
| EPrimitive (truthy : bool) (text : jsstring).  (* a number or boolean, with String(v) *)

Record classified := Classified { cause : jsstring; message : jsstring }.

Definition defaultError : classified :=
  Classified (str "Unknown error") (str "An unexpected error occurred.").

(** [/^([^:]+):\s*(.+)$/] *)
Definition re_colon : regex :=
  SeqL [Bol false; Group 1 (Plus true (Chr (CNot (cChar ":")))); Lit ":";
        Star true (Chr cSpace); Group 2 (Plus true (Chr cDot)); Eol false].

(** [/^([^.]+\.[^.]*?)\s+(.+)$/] *)
Definition re_period : regex :=
  SeqL [Bol false;
        Group 1 (SeqL [Plus true (Chr (CNot (cChar "."))); Lit ".";
                       Star false (Chr (CNot (cChar ".")))]);
        Plus true (Chr cSpace); Group 2 (Plus true (Chr cDot)); Eol false].

(** [s.match(/r/)] for an expression without the [g] flag: the groups 1 and
    2 of the first match. *)
Definition match2 (r : regex) (s : jsstring) : option (jsstring * jsstring) :=
  match exec r s 0 with
  | Some m =>
      Some (match group_text s m 1 with Some g => g | None => [] end,
            match group_text s m 2 with Some g => g | None => [] end)
  | None => None
  end.

Section Classifier.

(** The lower-case mapping of the code units outside ASCII, which the
    Unicode tables of the engine define. *)
Variable unicodeLower : jschar -> jsstring.

(** [s.toLowerCase()] *)
Definition lower_char (c : jschar) : jsstring :=
  if N.leb 65 c && N.leb c 90 then [(c + 32)%N]
  else if N.ltb c 128 then [c]
  else unicodeLower c.

Definition toLowerCase (s : jsstring) : jsstring := flat_map lower_char s.

(** The keyword chain at the end of [parseError]. *)
Definition infer_cause (normalizedText : jsstring) : jsstring :=
  let l := toLowerCase normalizedText in
  if includes l (str "api key") then str "API Key Error"
  else if includes l (str "network") || includes l (str "connection") then str "Network Error"
  else if includes l (str "rate limit") then str "Rate Limit"
  else if includes l (str "timeout") then str "Timeout"
  else if includes l (str "invalid") then str "Invalid Request"
  else str "Error".

(** The branch for structured errors. *)
Definition parseObject (o : errobj) : classified :=
  let cause_ :=
    match f_cause o with
    | FString s => trim (fun c => c) s
    | FOther =>
        match f_code o with
        | FString s => trim (fun c => c) s
        | FOther => str "Error"
        end
    end in
  let message_ :=
    match f_message o with
    | FString s => trim (fun c => c) s
    | FOther =>
        match f_error o with
        | FString s => trim (fun c => c) s
        | FOther =>
            match f_json o with
            | JsonText s => s
            | JsonUndefined => []
            | JsonThrows => []
            end
        end
    end in
  Classified (or_else_s cause_ (str "Error")) (or_else_s message_ (message defaultError)).

(** The branch for free text. *)
Definition parseText (text : jsstring) : classified :=
  let normalizedText := trim (fun c => c) text in
  if is_empty normalizedText then defaultError
  else
    match match2 re_colon normalizedText with
    | Some (g1, g2) => Classified (trim (fun c => c) g1) (trim (fun c => c) g2)
    | None =>
        let sentence :=
          match match2 re_period normalizedText with
          | Some (g1, g2) => if Nat.ltb 10 (length g2) then Some (g1, g2) else None
          | None => None
          end in
        match sentence with
        | Some (g1, g2) => Classified (trim (fun c => c) g1) (trim (fun c => c) g2)
        | None => Classified (infer_cause normalizedText) normalizedText
        end
    end.

(** [parseError(errorText)] *)
Definition parseError (errorText : errinput) : classified :=
  match errorText with
  | EAbsent => defaultError
  | EString s => if is_empty s then defaultError else parseText s
  | EObject o => parseObject o
  | EPrimitive truthy text => if truthy then parseText text else defaultError
  end.

End Classifier.

(** ** The structured branch as the specification words it *)

(** [cause] field, else [code] field, else the literal. *)
Definition spec_cause (o : errobj) : jsstring :=
  match f_cause o, f_code o with
  | FString s, _ => s
  | FOther, FString s => s
  | FOther, FOther => str "Error"
  end.

End Errors.

(* ===================================================================== *)
(** * The provider adapters ([openrouter.js], [gemini.js]) *)
(* ===================================================================== *)

Module Providers.
Import JS.

(** ** What the adapters see of the network *)

(** A thrown JavaScript error. *)
Record exn := Exn { ex_name : jsstring; ex_message : jsstring }.

(** How the body of a response reads through [reader.read()]: the decoded
    text of each read, and then either [done] or a rejected read. *)
Inductive stream_end :=
| StreamDone
| StreamFails (e : exn).

Record body_stream := BodyStream { reads : list jsstring; ending : stream_end }.

(** A resolved [fetch]: [ok], [status], the body as text for
    [response.json()], and the body as a stream for [getReader()]. *)
Record response := Response {
  resp_ok : bool;
  resp_status : nat;
  resp_text : jsstring;
  resp_stream : body_stream
}.

Inductive fetch_outcome :=
| FetchThrows (e : exn)
| FetchResponds (r : response).

(** [{content}] or [{error}]. *)
Inductive result :=
| Content (content : jsstring)
| Error (error : jsstring).

(** One call of an adapter: the URLs it fetched, the fragments it passed to
    [onChunk] in order (each recorded as its text, see [streamed] below), and
    what it returned. *)
Record run := Run {
  net_calls : list jsstring;
  emitted : list jsstring;
  outcome : result
}.

(** [ProviderRequest] *)
Record params := Params {
  apiKey : jsstring;
  model : jsstring;
  systemPrompt : jsstring;
  userMessage : jsstring
}.

(** A value read out of a parsed body at a place where the schema of the
    API has a string.  [JSON.parse] gives whatever the body holds there, and
    the streaming loops look at the value in two ways only: the test
    [if (content)], and [fullContent += content]. *)
Inductive jsvalue :=
| VString (s : jsstring)              (* a string *)
| VFalsy                              (* undefined, null, false, 0 *)
| VTruthy (text : option jsstring).   (* true, a number, an array, an object:
                                         with what [+=] appends for it, [None]
                                         when the conversion to a string throws *)

(** [if (v)] *)
Definition truthy (v : jsvalue) : bool :=
  match v with
  | VString s => negb (is_empty s)
  | VFalsy => false
  | VTruthy _ => true
  end.

(** What [fullContent += v] appends to the string for a truthy value:
    [None] when the conversion throws.  The empty array [[]] is
    [VTruthy (Some [])].  For a falsy value the text is never asked for. *)
Definition text_of (v : jsvalue) : option jsstring :=
  match v with
  | VString s => Some s
  | VFalsy => None
  | VTruthy text => text
  end.


(** What has been streamed so far: [fullContent] and the calls of
    [onChunk].  A fragment passed to [onChunk] is recorded as the text that
    string concatenation makes of it, which is all that its consumers read
    (the port listener of the panel appends it to a string as well). *)
Record streamed := Streamed { fullContent : jsstring; chunks : list jsstring }.

(** [if (content) { fullContent += content; onChunk(content); }], inside the
    [try] of the line: when [+=] throws, nothing is appended and [onChunk]
    is not called. *)
Definition deliver (content : jsvalue) (acc : streamed) : streamed :=
  if truthy content then
    match text_of content with
    | Some text => Streamed (fullContent acc ++ text) (chunks acc ++ [text])
    | None => acc
    end
  else acc.

(** [String(n)] for a natural number. *)
Definition decimal (n : nat) : jsstring :=
  str (NilEmpty.string_of_uint (Nat.to_uint n)).

(** The adapters of the provider table. *)
Inductive adapter := OpenRouterAdapter | GeminiAdapter.

(** ** OpenRouter *)

Module OpenRouter.

Definition OPENROUTER_API_URL : jsstring := str "https://openrouter.ai/api/v1/chat/completions".
Definition OPENROUTER_MODELS_URL : jsstring := str "https://openrouter.ai/api/v1/models".

(** The [error] object of a payload: [message] and [code] as text, empty
    when absent or falsy. *)
Record api_error := ApiError { e_message : jsstring; e_code : jsstring }.

(** One parsed [data:] line of the stream, as the adapter reads it. *)
Record sse_data := SseData {
  d_error : option api_error;          (* data.error, when truthy *)
  d_usage : bool;                      (* data.usage is truthy *)
  d_no_choices : bool;                 (* !data.choices || data.choices.length === 0 *)
  d_content : jsvalue                  (* data.choices?.[0]?.delta?.content *)
}.

(** The body of an error response: [errorData.error.message] and
    [errorData.message], empty when absent. *)
Record error_body := ErrorBody { eb_error_message : jsstring; eb_message : jsstring }.

(** What [response.json()] gives for an error response, and what reading
    [errorData.error] does with it. *)
Inductive error_payload :=
| NoJson                 (* it rejects: [errorData] stays [{}] *)
| NullBody (e : exn)     (* it gives [null]: the read throws [e], a [TypeError] *)
| Body (b : error_body). (* any other value *)

(** The body of a completed (non-streamed) response. *)
Record completion := Completion {
  k_error : option api_error;          (* data.error *)
  k_has_choice : bool;                 (* data.choices is a non-empty array *)
  k_choice_error : option api_error;   (* choice.error *)
  k_content : option jsstring;         (* choice.message?.content, unless null or undefined *)
  k_finish : jsstring                  (* choice.finish_reason *)
}.

Section Adapter.

(** [JSON.parse] followed by the property reads, for the three payload
    shapes; [None] when the parse or a read throws. *)
Variable parse_sse : jsstring -> option sse_data.
Variable parse_error_body : jsstring -> error_payload.
Variable parse_completion : jsstring -> exn + completion.

(** [error.message || `API error: ${error.code || 'unknown'}`] *)
Definition api_error_text (e : api_error) : jsstring :=
  or_else_s (e_message e) (str "API error: " ++ or_else_s (e_code e) (str "unknown")).

(** One line of the stream.  [inr] is the early [return { error }]. *)
Definition process_line (line : jsstring) (acc : streamed) : streamed + jsstring :=
  let trimmedLine := trim (fun c => c) line in
  if is_empty trimmedLine then inl acc
  else if starts_with (str ":") trimmedLine then inl acc
  else if jseqb trimmedLine (str "data: [DONE]") then inl acc
  else if starts_with (str "data: ") trimmedLine then
    match parse_sse (skipn 6 trimmedLine) with
    | None => inl acc
    | Some data =>
        match d_error data with
        | Some e => inr (api_error_text e)
        | None =>
            if d_usage data && d_no_choices data then inl acc
            else inl (deliver (d_content data) acc)
        end
    end
  else inl acc.

(** [for (const line of lines)]: what has been delivered when the loop
    ends, and the error of an early return. *)
Fixpoint process_lines (lines : list jsstring) (acc : streamed)
  : streamed * option jsstring :=
  match lines with
  | [] => (acc, None)
  | line :: rest =>
      match process_line line acc with
      | inl acc' => process_lines rest acc'
      | inr e => (acc, Some e)
      end
  end.

(** What is left in the buffer once the stream is done. *)
Definition process_rest (buffer : jsstring) (acc : streamed) : streamed :=
  let trimmedBuffer := trim (fun c => c) buffer in
  if is_empty trimmedBuffer then acc
  else if negb (starts_with (str ":") trimmedBuffer)
          && negb (jseqb trimmedBuffer (str "data: [DONE]"))
          && starts_with (str "data: ") trimmedBuffer then
    match parse_sse (skipn 6 trimmedBuffer) with
    | None => acc
    | Some data => deliver (d_content data) acc
    end
  else acc.

(** The [catch] of [sendOpenRouterRequest]. *)
Definition network_error (e : exn) : jsstring :=
  str "Network error: " ++
  (if jseqb (ex_name e) (str "TypeError") && jseqb (ex_message e) (str "Failed to fetch")
   then str "Unable to connect to OpenRouter API. This may be caused by: 1) Network/firewall blocking the request, 2) Ad blocker interference, or 3) Extension permissions issue. Try disabling ad blockers and reloading the extension."
   else if jseqb (ex_name e) (str "TypeError") && includes (ex_message e) (str "NetworkError")
   then str "Network request failed. Please check your internet connection."
   else if jseqb (ex_name e) (str "AbortError")
   then str "Request timed out. Please try again."
   else if negb (is_empty (ex_message e)) then ex_message e
   else str "An unexpected error occurred. Please try again.").

(** The [while (true)] loop over the reads; the result is what the adapter
    has delivered and what it returns. *)
Fixpoint read_loop (rs : list jsstring) (ending : stream_end)
         (buffer : jsstring) (acc : streamed) : streamed * result :=
  match rs with
  | [] =>
      match ending with
      | StreamDone =>
          let acc' := process_rest buffer acc in
          (acc', Content (fullContent acc'))
      | StreamFails e => (acc, Error (network_error e))
      end
  | value :: rs' =>
      let lines := split_char (fun c => c) 10%N (buffer ++ value) in
      let buffer' := last lines [] in
      match process_lines (removelast lines) acc with
      | (acc', None) => read_loop rs' ending buffer' acc'
      | (acc', Some e) => (acc', Error e)
      end
  end.

(** The branch [if (!response.ok)], once [errorData] has been read. *)
Definition status_error (errorData : error_body) (status : nat) : result :=
  let errorMessage :=
    or_else_s (eb_error_message errorData)
      (or_else_s (eb_message errorData) (str "API error: " ++ decimal status)) in
  if Nat.eqb status 401
  then Error (str "Invalid API key. Please check your OpenRouter API key in settings.")
  else if Nat.eqb status 402
  then Error (str "Insufficient credits. Please add credits to your OpenRouter account.")
  else if Nat.eqb status 429
  then Error (str "Rate limit exceeded. Please try again in a moment.")
  else if Nat.eqb status 400
  then Error (str "Invalid request: " ++ errorMessage)
  else if Nat.leb 500 status
  then Error (str "Server error: " ++ errorMessage ++ str ". Please try again later.")
  else Error errorMessage.

(** The branch [if (!response.ok)].  [errorData.error] is read before the
    status is looked at and outside the inner [try]: on a [null] body the
    read throws into the [catch] of the function, whatever the status. *)
Definition http_error (r : response) : result :=
  match parse_error_body (resp_text r) with
  | NullBody e => Error (network_error e)
  | NoJson => status_error (ErrorBody [] []) (resp_status r)
  | Body errorData => status_error errorData (resp_status r)
  end.

(** The branch without [onChunk]. *)
Definition complete (r : response) : result :=
  match parse_completion (resp_text r) with
  | inl e => Error (network_error e)
  | inr data =>
      match k_error data with
      | Some e => Error (api_error_text e)
      | None =>
          if negb (k_has_choice data)
          then Error (str "Invalid response format: no choices received from API.")
          else
            match k_choice_error data with
            | Some e => Error (api_error_text e)
            | None =>
                match k_content data with
                | Some content => Content content
                | None =>
                    if jseqb (k_finish data) (str "length")
                    then Error (str "Response was truncated due to max_tokens limit. Try increasing max_tokens in settings.")
                    else if jseqb (k_finish data) (str "content_filter")
                    then Error (str "Response was filtered by content policy. Please try a different prompt.")
                    else Error (str "No response content received from API.")
                end
            end
      end
  end.

(** [sendOpenRouterRequest(params, onChunk)]; [streaming] is
    [typeof onChunk === 'function'], [net] what [fetch] does when called. *)
Definition sendOpenRouterRequest (p : params) (streaming : bool)
           (net : fetch_outcome) : run :=
  if is_empty (apiKey p)
  then Run [] [] (Error (str "OpenRouter API key is not configured. Please set it in the extension settings."))
  else
    match net with
    | FetchThrows e => Run [OPENROUTER_API_URL] [] (Error (network_error e))
    | FetchResponds r =>
        if negb (resp_ok r) then Run [OPENROUTER_API_URL] [] (http_error r)
        else if streaming then
          let '(acc, res) := read_loop (reads (resp_stream r)) (ending (resp_stream r))
                                       [] (Streamed [] []) in
          Run [OPENROUTER_API_URL] (chunks acc) res
        else Run [OPENROUTER_API_URL] [] (complete r)
    end.

End Adapter.

End OpenRouter.

(** ** Gemini *)

Module Gemini.

Definition GEMINI_API_BASE : jsstring := str "https://generativelanguage.googleapis.com/v1beta/models".

(** The loop variables of the scan for complete objects. *)
Record scan_state := ScanState {
  braceCount : Z;
  startIdx : Z;
  inString : bool;
  escaped : bool
}.

Definition scan_init : scan_state := ScanState 0 (-1) false false.

Section Adapter.

(** [JSON.parse] of one object of the stream followed by
    [data.candidates?.[0]?.content?.parts?.[0]?.text]: the value found there,
    [None] when the parse or the read throws. *)
Variable parse_chunk : jsstring -> option jsvalue.

(** [response.json()] followed by the same read, for the body of a
    completed response: [None] when it throws, the empty string when there
    is no text. *)
Variable parse_text : jsstring -> option jsstring.

(** [errorData.error?.message], empty when the body has none; [inl e] when
    the body is [null] and the read throws [e], a [TypeError]. *)
Variable parse_error_message : jsstring -> exn + jsstring.

(** The [for] loop over the buffer.  [i] is the loop index and [rest] the
    characters from [i] on; when an object is complete the buffer is cut
    after it and the index restarts.  The result is the buffer left for the
    next read and what has been delivered. *)
Fixpoint scan (buffer : jsstring) (i : nat) (rest : jsstring) (st : scan_state)
         (acc : streamed) : jsstring * streamed :=
  match rest with
  | [] => (buffer, acc)
  | char :: rest' =>
      if escaped st then
        scan buffer (S i) rest' (ScanState (braceCount st) (startIdx st) (inString st) false) acc
      else if N.eqb char 92%N then
        scan buffer (S i) rest' (ScanState (braceCount st) (startIdx st) (inString st) true) acc
      else if N.eqb char dquote then
        scan buffer (S i) rest' (ScanState (braceCount st) (startIdx st) (negb (inString st)) false) acc
      else if negb (inString st) then
        if N.eqb char (ch "{") then
          let start := if Z.eqb (braceCount st) 0 then Z.of_nat i else startIdx st in
          scan buffer (S i) rest' (ScanState (braceCount st + 1) start false false) acc
        else if N.eqb char (ch "}") then
          let count := (braceCount st - 1)%Z in
          if Z.eqb count 0 && negb (Z.eqb (startIdx st) (-1)) then
            let jsonStr := substring buffer (Z.to_nat (startIdx st)) (S i) in
            let acc' := match parse_chunk jsonStr with
                        | Some content => deliver content acc
                        | None => acc
                        end in
            scan rest' 0 rest' (ScanState count (startIdx st) false false) acc'
          else
            scan buffer (S i) rest' (ScanState count (startIdx st) false false) acc
        else scan buffer (S i) rest' st acc
      else scan buffer (S i) rest' st acc
  end.

(** The [while (true)] loop over the reads. *)
Fixpoint read_loop (rs : list jsstring) (ending : stream_end)
         (buffer : jsstring) (acc : streamed) : streamed * result :=
  match rs with
  | [] =>
      match ending with
      | StreamDone => (acc, Content (fullContent acc))
      | StreamFails e => (acc, Error (str "Gemini error: " ++ ex_message e))
      end
  | value :: rs' =>
      let '(buffer', acc') := scan (buffer ++ value) 0 (buffer ++ value) scan_init acc in
      read_loop rs' ending buffer' acc'
  end.

(** [{ error: errorData.error?.message || fallback }]; on a [null] body the
    read throws into the [catch] of the function. *)
Definition message_or (r : response) (fallback : jsstring) : result :=
  match parse_error_message (resp_text r) with
  | inl e => Error (str "Gemini error: " ++ ex_message e)
  | inr message => Error (or_else_s message fallback)
  end.

(** The branch [if (!response.ok)].  [errorData] is read for the status 400
    and for the statuses without a message of their own only. *)
Definition http_error (r : response) : result :=
  if Nat.eqb (resp_status r) 400
  then message_or r (str "Invalid request. Check your API key and model.")
  else if Nat.eqb (resp_status r) 401 || Nat.eqb (resp_status r) 403
  then Error (str "Invalid API key. Please check your Gemini API key in settings.")
  else if Nat.eqb (resp_status r) 429
  then Error (str "Rate limit exceeded. Please try again later.")
  else message_or r (str "Gemini API error: " ++ decimal (resp_status r)).

(** The branch without [onChunk]; [parse_failure] is the message of the
    error that [response.json()] throws on this body. *)
Variable parse_failure : jsstring -> jsstring.

Definition complete (r : response) : result :=
  match parse_text (resp_text r) with
  | None => Error (str "Gemini error: " ++ parse_failure (resp_text r))
  | Some content =>
      if is_empty content then Error (str "No response content received from Gemini.")
      else Content content
  end.

Definition request_url (p : params) (streaming : bool) : jsstring :=
  GEMINI_API_BASE ++ str "/" ++ or_else_s (model p) (str "gemini-2.0-flash") ++ str ":"
    ++ (if streaming then str "streamGenerateContent" else str "generateContent")
    ++ str "?key=" ++ apiKey p.

(** [sendGeminiRequest(params, onChunk)] *)
Definition sendGeminiRequest (p : params) (streaming : bool)
           (net : fetch_outcome) : run :=
  if is_empty (apiKey p)
  then Run [] [] (Error (str "Gemini API key is not configured. Get a free API key at aistudio.google.com/app/apikey"))
  else
    match net with
    | FetchThrows e => Run [request_url p streaming] [] (Error (str "Gemini error: " ++ ex_message e))
    | FetchResponds r =>
        if negb (resp_ok r) then Run [request_url p streaming] [] (http_error r)
        else if streaming then
          let '(acc, res) := read_loop (reads (resp_stream r)) (ending (resp_stream r))
                                       [] (Streamed [] []) in
          Run [request_url p streaming] (chunks acc) res
        else Run [request_url p streaming] [] (complete r)
    end.

End Adapter.

End Gemini.

End Providers.

(* ===================================================================== *)
(** * Model listing and its cache ([fetchOpenRouterModels],
      [fetchGeminiModels]) *)
(* ===================================================================== *)

Module Models.
Import JS Providers.

(** [ModelDescriptor].  Prices are per million tokens. *)
Record ModelDescriptor := ModelDesc {
  md_id : jsstring;
  md_name : jsstring;
  md_pricing : option (Q * Q);
  md_isFree : bool
}.

(** One call of [fetchModels]: the module variable [cachedModels] after the
    call, the list returned, and the URLs fetched. *)
Record listing := Listing {
  cache_after : option (list ModelDescriptor);
  returned : list ModelDescriptor;
  fetched : list jsstring
}.

(** The body of a model-list response once parsed. *)
Inductive payload (Raw : Type) :=
| BodyUnreadable                  (* response.json() throws *)
| BodyWithoutList                 (* the list property is missing or not an array *)
| BodyList (raw : Raw).
Arguments BodyUnreadable {Raw}.
Arguments BodyWithoutList {Raw}.

Section Listing.

(** The raw list of a provider, how a body parses to it, and the
    [filter]/[map]/[sort] chain of each adapter that builds the descriptors
    ([None] when it throws). *)
Variable Raw : Type.
Variable parse_models : adapter -> jsstring -> payload Raw.
Variable transform : adapter -> Raw -> option (list ModelDescriptor).

(** What both adapters do with a resolved or failed [fetch]. *)
Definition from_network (a : adapter) (FALLBACK_MODELS : list ModelDescriptor)
           (cachedModels : option (list ModelDescriptor)) (url : jsstring)
           (net : fetch_outcome) : listing :=
  match net with
  | FetchThrows _ => Listing cachedModels FALLBACK_MODELS [url]
  | FetchResponds r =>
      if negb (resp_ok r) then Listing cachedModels FALLBACK_MODELS [url]
      else
        match parse_models a (resp_text r) with
        | BodyUnreadable => Listing cachedModels FALLBACK_MODELS [url]
        | BodyWithoutList => Listing cachedModels FALLBACK_MODELS [url]
        | BodyList raw =>
            match transform a raw with
            | None => Listing cachedModels FALLBACK_MODELS [url]
            | Some models => Listing (Some models) models [url]
            end
        end
  end.

Definition OPENROUTER_FALLBACK : list ModelDescriptor :=
  [ ModelDesc (str "anthropic/claude-sonnet-4") (str "Claude Sonnet 4") (Some (3 # 1, 15 # 1)) false;
    ModelDesc (str "openai/gpt-4o-mini") (str "GPT-4o Mini") (Some (15 # 100, 6 # 10)) false;
    ModelDesc (str "google/gemini-2.0-flash-exp:free") (str "Gemini 2.0 Flash (Free)")
              (Some (0 # 1, 0 # 1)) true ]%Q.

Definition GEMINI_FALLBACK : list ModelDescriptor :=
  [ ModelDesc (str "gemini-2.0-flash") (str "Gemini 2.0 Flash") None true;
    ModelDesc (str "gemini-1.5-flash") (str "Gemini 1.5 Flash") None true;
    ModelDesc (str "gemini-1.5-pro") (str "Gemini 1.5 Pro") None true ].

(** [fetchOpenRouterModels(apiKey, forceRefresh)] *)
Definition fetchOpenRouterModels (cachedModels : option (list ModelDescriptor))
           (apiKey : jsstring) (forceRefresh : bool) (net : fetch_outcome) : listing :=
  match cachedModels, forceRefresh with
  | Some models, false => Listing cachedModels models []
  | _, _ => from_network OpenRouterAdapter OPENROUTER_FALLBACK cachedModels OpenRouter.OPENROUTER_MODELS_URL net
  end.

(** [getOpenRouterModels()] and [getGeminiModels()] *)
Definition getModels (FALLBACK_MODELS : list ModelDescriptor)
           (cachedModels : option (list ModelDescriptor)) : list ModelDescriptor :=
  match cachedModels with Some models => models | None => FALLBACK_MODELS end.

(** [fetchGeminiModels(apiKey, forceRefresh)] *)
Definition fetchGeminiModels (cachedModels : option (list ModelDescriptor))
           (apiKey : jsstring) (forceRefresh : bool) (net : fetch_outcome) : listing :=
  match cachedModels, forceRefresh with
  | Some models, false => Listing cachedModels models []
  | _, _ =>
      if is_empty apiKey then Listing cachedModels GEMINI_FALLBACK []
      else from_network GeminiAdapter GEMINI_FALLBACK cachedModels
                        (Gemini.GEMINI_API_BASE ++ str "?key=" ++ apiKey) net
  end.

(** The two adapters behind one interface. *)
Definition listModels (a : adapter) :=
  match a with
  | OpenRouterAdapter => fetchOpenRouterModels
  | GeminiAdapter => fetchGeminiModels
  end.

Definition fallback (a : adapter) : list ModelDescriptor :=
  match a with
  | OpenRouterAdapter => OPENROUTER_FALLBACK
  | GeminiAdapter => GEMINI_FALLBACK
  end.

(** Two calls in a row: the second starts from the cache the first left. *)
Definition twice (a : adapter) (cachedModels : option (list ModelDescriptor))
           (apiKey : jsstring) (force1 force2 : bool) (net1 net2 : fetch_outcome)
  : listing * listing :=
  let first := listModels a cachedModels apiKey force1 net1 in
  (first, listModels a (cache_after first) apiKey force2 net2).

(** The URL an adapter lists its models from. *)
Definition models_url (a : adapter) (apiKey : jsstring) : jsstring :=
  match a with
  | OpenRouterAdapter => OpenRouter.OPENROUTER_MODELS_URL
  | GeminiAdapter => Gemini.GEMINI_API_BASE ++ str "?key=" ++ apiKey
  end.

(** The descriptors a fetch brings, when it brings any: the response is OK,
    its body holds a list, and the list is transformed without an error.
    Everything else is a fetch failure: a thrown transport error, a non-OK
    response, a malformed payload. *)
Definition fetch_brings (a : adapter) (net : fetch_outcome) : option (list ModelDescriptor) :=
  match net with
  | FetchThrows _ => None
  | FetchResponds r =>
      if resp_ok r then
        match parse_models a (resp_text r) with
        | BodyList raw => transform a raw
        | _ => None
        end
      else None
  end.

End Listing.

End Models.

(* ===================================================================== *)
(** * The request orchestrator ([service-worker.js]) *)
(* ===================================================================== *)

Module Orchestrator.
Import JS Providers.

Record Settings := MkSettings {
  provider : jsstring;
  s_model : jsstring;
  language : jsstring;
  s_systemPrompt : jsstring;
  openrouterApiKey : jsstring;
  geminiApiKey : jsstring
}.

(** [RequestPayload]; [mode] is [None] when the property is absent. *)
Record RequestPayload := MkPayload {
  text : jsstring;
  contextBefore : jsstring;
  pageTitle : jsstring;
  pageUrl : jsstring;
  mode : option jsstring
}.

Definition nl : jsstring := [newline].
Definition quoted (s : jsstring) : jsstring := [dquote] ++ s ++ [dquote].

(** [l.join(sep)] *)
Fixpoint join_with (sep : jsstring) (l : list jsstring) : jsstring :=
  match l with
  | [] => []
  | [x] => x
  | x :: l' => x ++ sep ++ join_with sep l'
  end.

Definition TRANSLATOR_SYSTEM_PROMPT : jsstring :=
  str "You are a friendly translator and language coach. Keep responses concise, accurate, and follow the requested format exactly.".

(** [buildUserMessage(payload, language)] *)
Definition buildUserMessage (payload : RequestPayload) (language : jsstring) : jsstring :=
  let message := [] in
  let message := if is_empty (pageTitle payload) then message
                 else message ++ str "Page: " ++ quoted (pageTitle payload) ++ nl in
  let message := if is_empty (contextBefore payload) then message
                 else message ++ nl ++ str "Preceding text: "
                        ++ quoted (str "..." ++ contextBefore payload) ++ nl in
  let message := message ++ nl ++ str "**Selected text to explain:**" ++ nl
                   ++ quoted (text payload) in
  message ++ nl ++ nl ++ str "Respond ONLY in " ++ language
          ++ str ". Do not switch languages.".

(** [buildTranslateUserMessage(payload, language)] *)
Definition buildTranslateUserMessage (payload : RequestPayload) (language : jsstring)
  : jsstring :=
  let mode_ := match mode payload with Some m => m | None => str "translation" end in
  let contextLines :=
    (if is_empty (pageTitle payload) then []
     else [str "Page: " ++ quoted (pageTitle payload)])
    ++ (if is_empty (pageUrl payload) then [] else [str "URL: " ++ pageUrl payload])
    ++ (if is_empty (contextBefore payload) then []
        else [str "Preceding text: " ++ quoted (str "..." ++ contextBefore payload)]) in
  let contextBlock :=
    match contextLines with
    | [] => []
    | _ :: _ => nl ++ nl ++ str "Context to stay accurate:" ++ nl ++ join_with nl contextLines
    end in
  let source := nl ++ nl ++ str "Source text:" ++ nl ++ quoted (text payload) ++ nl ++ nl in
  if jseqb mode_ (str "idioms") then
    str "You are coaching a learner to sound natural in " ++ language ++ str "."
      ++ contextBlock ++ source
      ++ str "Share 3-5 idiomatic or culturally natural ways to express this idea in "
      ++ language
      ++ str ". For each, include a short tone tag (e.g., formal, casual, playful) and one brief example (max 12 words). Keep everything in "
      ++ language ++ str ", concise, and easy to study."
  else if jseqb mode_ (str "similar") then
    str "You are helping a learner find interchangeable phrases in " ++ language ++ str "."
      ++ contextBlock ++ source
      ++ str "List 4-6 similar phrases or synonyms in " ++ language
      ++ str ". For each item, add a one-line note about nuance or when to use it, plus a tiny example sentence. Keep the focus on practical language learning and avoid English."
  else if jseqb mode_ (str "learning") then
    str "Give a quick mini-lesson in " ++ language ++ str "."
      ++ contextBlock ++ source
      ++ str "Provide:" ++ nl
      ++ str "- Key vocabulary with short meanings." ++ nl
      ++ str "- 1-2 grammar or structure cues." ++ nl
      ++ str "- One micro practice prompt the learner can answer." ++ nl ++ nl
      ++ str "Be concise, encouraging, and stay entirely in " ++ language ++ str "."
  else
    str "Translate the following text into " ++ language ++ str "."
      ++ contextBlock ++ source
      ++ str "Respond with ONLY the translated text in " ++ language
      ++ str ". No labels, no quotes, no Markdown, no explanations, and no extra sentences.".

(** ** The provider table *)

(** What [PROVIDERS[id]] evaluates to.  [PROVIDERS] is an object literal, so
    besides its two own properties the lookup finds the properties that
    every object inherits from [Object.prototype]: those are functions (or,
    for [__proto__], the prototype object), truthy and without a [send]. *)
Inductive lookup :=
| Own (a : adapter)
| Inherited
| Undefined.

Definition object_prototype_names : list jsstring :=
  map str ["constructor"; "hasOwnProperty"; "isPrototypeOf"; "propertyIsEnumerable";
           "toLocaleString"; "toString"; "valueOf"; "__proto__";
           "__defineGetter__"; "__defineSetter__"; "__lookupGetter__";
           "__lookupSetter__"]%string.

Definition PROVIDERS (id : jsstring) : lookup :=
  if jseqb id (str "openrouter") then Own OpenRouterAdapter
  else if jseqb id (str "gemini") then Own GeminiAdapter
  else if existsb (jseqb id) object_prototype_names then Inherited
  else Undefined.

(** ** Effects *)

(** [StreamEvent], as posted on the port: [{type: 'CHUNK', content}],
    [{type: 'DONE'}], [{error}].  The content of a chunk is the fragment the
    adapter passed to [onChunk], recorded as its text. *)
Inductive StreamEvent :=
| Chunk (content : jsstring)
| Done
| ErrorEvent (detail : jsstring).

(** What a handler does, in order. *)
Inductive effect :=
| GetSettings
| BuildPrompt (userMessage : jsstring)
| Fetch (url : jsstring)
| Post (ev : StreamEvent)            (* port.postMessage *)
| Respond (r : result).              (* sendResponse *)

Inductive settings_outcome :=
| SettingsRead (s : Settings)
| SettingsFail (e : exn).

(** The type of the message received on the port. *)
Inductive message_type := EXPLAIN_TEXT_STREAM | TRANSLATE_TEXT_STREAM | OTHER_TYPE.

(** The message of the [TypeError] raised by calling the missing [send] of
    an inherited property. *)
Definition not_a_function : exn :=
  Exn (str "TypeError") (str "provider.send is not a function").

Definition unknown_provider (id : jsstring) : jsstring := str "Unknown provider: " ++ id.

Section Handlers.

(** The payload codecs of the two adapters. *)
Variable parse_sse : jsstring -> option OpenRouter.sse_data.
Variable parse_error_body : jsstring -> OpenRouter.error_payload.
Variable parse_completion : jsstring -> exn + OpenRouter.completion.
Variable parse_chunk : jsstring -> option jsvalue.
Variable parse_text : jsstring -> option jsstring.
Variable parse_error_message : jsstring -> exn + jsstring.
Variable parse_failure : jsstring -> jsstring.

(** [provider.send] for the two entries of the table. *)
Definition send (a : adapter) : params -> bool -> fetch_outcome -> run :=
  match a with
  | OpenRouterAdapter =>
      OpenRouter.sendOpenRouterRequest parse_sse parse_error_body parse_completion
  | GeminiAdapter =>
      Gemini.sendGeminiRequest parse_chunk parse_text parse_error_message parse_failure
  end.

(** [requestParams], with the key of the configured provider. *)
Definition requestParams (a : adapter) (settings : Settings)
           (systemPrompt userMessage : jsstring) : params :=
  Params (match a with
          | OpenRouterAdapter => openrouterApiKey settings
          | GeminiAdapter => geminiApiKey settings
          end)
         (s_model settings) systemPrompt userMessage.

Definition isTranslate (type : message_type) : bool :=
  match type with TRANSLATE_TEXT_STREAM => true | _ => false end.

(** [userMessage], [systemPrompt] and [requestParams] of the streaming
    handler. *)
Definition stream_userMessage (type : message_type) (payload : RequestPayload)
           (settings : Settings) : jsstring :=
  if isTranslate type then buildTranslateUserMessage payload (language settings)
  else buildUserMessage payload (language settings).

Definition stream_systemPrompt (type : message_type) (settings : Settings) : jsstring :=
  if isTranslate type then TRANSLATOR_SYSTEM_PROMPT else s_systemPrompt settings.

Definition stream_params (a : adapter) (type : message_type) (payload : RequestPayload)
           (settings : Settings) : params :=
  requestParams a settings (stream_systemPrompt type settings)
                (stream_userMessage type payload settings).

(** What the streaming handler posts once [provider.send] has returned. *)
Definition after_send (r : run) : list effect :=
  match outcome r with
  | Error e =>
      if is_empty e then [Post Done] else [Post (ErrorEvent e)]
  | Content content =>
      (if is_empty (emitted r) && negb (is_empty content)
       then [Post (Chunk content)] else [])
      ++ [Post Done]
  end.

(** The effects of one adapter call made with the streaming callback. *)
Definition stream_run (r : run) : list effect :=
  map Fetch (net_calls r) ++ map (fun c => Post (Chunk c)) (emitted r) ++ after_send r.

(** The listener installed by [handleStreamRequest], on one message. *)
Definition handleStreamMessage (settings : settings_outcome) (net : fetch_outcome)
           (type : message_type) (payload : RequestPayload) : list effect :=
  match type with
  | OTHER_TYPE => []
  | _ =>
      GetSettings ::
      match settings with
      | SettingsFail e => [Post (ErrorEvent (ex_message e))]
      | SettingsRead settings =>
          match PROVIDERS (provider settings) with
          | Undefined => [Post (ErrorEvent (unknown_provider (provider settings)))]
          | found =>
              BuildPrompt (stream_userMessage type payload settings) ::
              match found with
              | Own a => stream_run (send a (stream_params a type payload settings) true net)
              | _ => [Post (ErrorEvent (ex_message not_a_function))]
              end
          end
      end
  end.

(** [handleExplainRequest] and [handleTranslateRequest]. *)
Definition handleRequest (translate : bool) (settings : settings_outcome)
           (net : fetch_outcome) (payload : RequestPayload) : list effect :=
  GetSettings ::
  match settings with
  | SettingsFail e => [Respond (Error (ex_message e))]
  | SettingsRead settings =>
      match PROVIDERS (provider settings) with
      | Undefined => [Respond (Error (unknown_provider (provider settings)))]
      | found =>
          let userMessage :=
            if translate then buildTranslateUserMessage payload (language settings)
            else buildUserMessage payload (language settings) in
          let systemPrompt :=
            if translate then TRANSLATOR_SYSTEM_PROMPT else s_systemPrompt settings in
          BuildPrompt userMessage ::
          match found with
          | Own a =>
              let r := send a (requestParams a settings systemPrompt userMessage) false net in
              map Fetch (net_calls r) ++ [Respond (outcome r)]
          | _ => [Respond (Error (ex_message not_a_function))]
          end
      end
  end.

Definition handleExplainRequest := handleRequest false.
Definition handleTranslateRequest := handleRequest true.

End Handlers.

(** The events posted on the port. *)
Fixpoint posted (l : list effect) : list StreamEvent :=
  match l with
  | [] => []
  | Post ev :: l' => ev :: posted l'
  | _ :: l' => posted l'
  end.

Definition is_terminal (ev : StreamEvent) : bool :=
  match ev with Chunk _ => false | _ => true end.

Definition is_chunk (ev : StreamEvent) : bool :=
  match ev with Chunk _ => true | _ => false end.

Definition is_network (e : effect) : bool :=
  match e with Fetch _ => true | _ => false end.

Definition is_prompt (e : effect) : bool :=
  match e with BuildPrompt _ => true | _ => false end.

End Orchestrator.

(* ===================================================================== *)
(** * Vocabulary of the statements *)
(* ===================================================================== *)

Module Vocabulary.
Import JS Errors Providers.

(** The number of positions of [hay] at which [needle] occurs. *)
Fixpoint count_sub (needle hay : jsstring) : nat :=
  (if starts_with needle hay then 1 else 0) +
  match hay with
  | [] => 0
  | _ :: hay' => count_sub needle hay'
  end.

(** The Hebrew word of the test vector: shin, lamed, vav, final mem. *)
Definition shalom : jsstring := [0x05E9; 0x05DC; 0x05D5; 0x05DD]%N.



(** The free-text test vector of the classifier. *)
Definition rate_text : jsstring := str "Rate limit exceeded. Try later.".

(** A structured error whose [cause] is the empty string and whose [code]
    is [E42]. *)
Definition empty_cause : errobj :=
  ErrObj (FString []) (FString (str "E42")) (FString (str "boom")) FOther (JsonText (str "{}")).





End Vocabulary.

(** Concrete worlds on which the statements are exercised. *)
Module Samples.
Import JS Providers Orchestrator Models.

(** A codec for the streamed lines that reads the payload itself as the
    content of the delta. *)
Definition sse_plain (s : jsstring) : option OpenRouter.sse_data :=
  Some (OpenRouter.SseData None false false (VString s)).

(** A codec under which a payload that starts with [!] reports a provider
    error. *)
Definition sse_failing (s : jsstring) : option OpenRouter.sse_data :=
  match s with
  | [] => None
  | c :: _ =>
      if N.eqb c (ch "!")
      then Some (OpenRouter.SseData (Some (OpenRouter.ApiError (str "overloaded") []))
                                    false false VFalsy)
      else Some (OpenRouter.SseData None false false (VString s))
  end.

(** The line [{"choices":[{"delta":{"content":[]}}]}]: a delta whose content
    is the empty array. *)
Definition array_delta : jsstring :=
  str "{" ++ quoted (str "choices") ++ str ":[{" ++ quoted (str "delta") ++ str ":{"
    ++ quoted (str "content") ++ str ":[]}}]}".

(** What [JSON.parse] and the reads of the adapter give on that line; the
    codec knows no other line. *)
Definition sse_array (s : jsstring) : option OpenRouter.sse_data :=
  if jseqb s array_delta
  then Some (OpenRouter.SseData None false false (VTruthy (Some [])))
  else None.

Definition no_error_body (s : jsstring) : OpenRouter.error_payload := OpenRouter.NoJson.

Definition no_completion (s : jsstring) : exn + OpenRouter.completion :=
  inl (Exn (str "SyntaxError") (str "Unexpected end of JSON input")).

Definition chunk_plain (s : jsstring) : option jsvalue := Some (VString s).

Definition text_plain (s : jsstring) : option jsstring := Some s.

Definition no_error_message (s : jsstring) : exn + jsstring := inr [].

Definition no_message (s : jsstring) : jsstring := [].

(** A streamed body of two reads: the second line is completed by the
    second read. *)
Definition two_reads : fetch_outcome :=
  FetchResponds
    (Response true 200 []
       (BodyStream [str "data: Hel" ++ [newline] ++ str "da"; str "ta: lo" ++ [newline]]
                   StreamDone)).

(** A streamed body of one line, [array_delta]. *)
Definition array_stream : fetch_outcome :=
  FetchResponds
    (Response true 200 []
       (BodyStream [str "data: " ++ array_delta ++ [newline]] StreamDone)).

(** A streamed body that reports an error after one fragment. *)
Definition fails_midway : fetch_outcome :=
  FetchResponds
    (Response true 200 []
       (BodyStream [str "data: Hel" ++ [newline] ++ str "data: !" ++ [newline]]
                   StreamDone)).

Definition a_request : params :=
  Params (str "sk-test") (str "openai/gpt-4o-mini") (str "system") (str "user").

Definition settings_for (id : jsstring) : Settings :=
  MkSettings id (str "openai/gpt-4o-mini") (str "English") (str "Explain.")
             (str "sk-test") (str "g-test").

Definition a_payload : RequestPayload :=
  MkPayload (str "entropy") [] (str "Physics") (str "https://example.org") None.

(** A network that is down, and codecs for the model lists that never
    get to see a body. *)
Definition offline : fetch_outcome :=
  FetchThrows (Exn (str "TypeError") (str "Failed to fetch")).

Definition no_models (a : adapter) (s : jsstring) : payload unit := BodyUnreadable.
Definition no_transform (a : adapter) (raw : unit) : option (list ModelDescriptor) := None.

(** A body that is the list itself, and a transform that yields one
    descriptor per list. *)
Definition one_model : list ModelDescriptor :=
  [ModelDesc (str "openai/gpt-4o-mini") (str "GPT-4o Mini") None false].
Definition list_models (a : adapter) (s : jsstring) : payload unit := BodyList tt.
Definition const_transform (a : adapter) (raw : unit) : option (list ModelDescriptor) :=
  Some one_model.
Definition online : fetch_outcome :=
  FetchResponds (Response true 200 (str "{}") (BodyStream [] StreamDone)).

End Samples.

(* ===================================================================== *)
(** * Provenance of the rendered markup *)
(* ===================================================================== *)

Module Provenance.
Import JS Markdown.

(** The entities [escapeHtml] writes. *)
Definition entities : list jsstring :=
  [str "&amp;"; str "&nbsp;"; str "&lt;"; str "&gt;"].

Definition from_escape (e : jsstring) : list tchar :=
  map (fun c => (c, FromEscape)) e.

(** A tagged string in which every [&] begins a whole entity written by
    [escapeHtml]: it is made of characters other than [&] and of whole
    entities. *)
Inductive intact : list tchar -> Prop :=
| intact_nil : intact []
| intact_char (x : tchar) (s : list tchar) :
    fst x <> ch "&" -> intact s -> intact (x :: s)
| intact_entity (e : jsstring) (s : list tchar) :
    In e entities -> intact s -> intact (from_escape e ++ s).

(** What a character of the output may be, by origin: a character copied
    from the input is none of the escaped ones, and a character of an entity
    is one of those the entities are spelled with. *)
Definition entity_chars : jsstring := str "&ampnbsltg;".

Definition well_tagged (x : tchar) : bool :=
  match snd x with
  | FromInput =>
      negb (N.eqb (fst x) (ch "&") || N.eqb (fst x) (ch "<")
            || N.eqb (fst x) (ch ">") || N.eqb (fst x) 160)
  | FromEscape => existsb (N.eqb (fst x)) entity_chars
  | FromRenderer => true
  end.

(** ** Where a string may be cut without breaking an entity *)

(** The characters of the entities other than the last one, and other than
    the first one. *)
Definition pre_chars : jsstring := str "&ampnbsltg".
Definition post_chars : jsstring := str "ampnbsltg;".

Definition is_pre (c : jschar) : bool := existsb (N.eqb c) pre_chars.
Definition is_post (c : jschar) : bool := existsb (N.eqb c) post_chars.

(** Cutting before index [b] is harmless when [b] is an end of the string,
    or the character after the cut cannot continue an entity, or the
    character before it cannot be continued. *)
Definition cut_ok (cs : jsstring) (b : nat) : bool :=
  match b with
  | 0 => true
  | S b' =>
      match nth_error cs b with
      | None => true
      | Some x =>
          negb (is_post x)
          || match nth_error cs b' with
             | Some y => negb (is_pre y)
             | None => true
             end
      end
  end.

(** The captures of group [k] all end at harmless cuts. *)
Definition caps_safe (k : nat) (cs : jsstring) (c : caps) : Prop :=
  forall a b, cap_get k c = Some (a, b) -> cut_ok cs b = true.

(** The matcher of the body of a quantifier. *)
Definition body (r : regex) (s : jsstring) (i : nat) (c : caps) : list (nat * caps) :=
  rmatch r s i (clear_caps (groups r) c).

(** The iterations of a quantifier: each one consumes. *)
Inductive iterates (step : nat -> caps -> list (nat * caps))
  : nat -> caps -> nat -> caps -> Prop :=
| iterates_stop i c : iterates step i c i c
| iterates_more i c q c1 j c' :
    In (q, c1) (step i c) -> i < q -> iterates step q c1 j c' ->
    iterates step i c j c'.

(** ** A static analysis of the expressions *)

(** The expression can match without consuming. *)
Fixpoint nullable (r : regex) : bool :=
  match r with
  | Eps => true
  | Chr _ => false
  | Seq r1 r2 => nullable r1 && nullable r2
  | Alt r1 r2 => nullable r1 || nullable r2
  | Star _ _ => true
  | Group _ r1 => nullable r1
  | Bol _ => true
  | Eol _ => true
  end.

(** The characters a non-empty match can begin with, and end with. *)
Fixpoint firstc (r : regex) (x : jschar) : bool :=
  match r with
  | Eps => false
  | Chr cs => cmatch cs x
  | Seq r1 r2 => firstc r1 x || (nullable r1 && firstc r2 x)
  | Alt r1 r2 => firstc r1 x || firstc r2 x
  | Star _ r1 => firstc r1 x
  | Group _ r1 => firstc r1 x
  | Bol _ => false
  | Eol _ => false
  end.

Fixpoint lastc (r : regex) (x : jschar) : bool :=
  match r with
  | Eps => false
  | Chr cs => cmatch cs x
  | Seq r1 r2 => lastc r2 x || (nullable r2 && lastc r1 x)
  | Alt r1 r2 => lastc r1 x || lastc r2 x
  | Star _ r1 => lastc r1 x
  | Group _ r1 => lastc r1 x
  | Bol _ => false
  | Eol _ => false
  end.

(** What is known of the character at a position ([None] past the end). *)
Definition known := option jschar -> bool.

Definition anything : known := fun _ => true.

(** What is known of the character where a match of [r] starts, given what
    is known of the character where it ends. *)
Fixpoint peek (r : regex) (after : known) : known :=
  match r with
  | Eps => after
  | Chr cs => fun o => match o with Some x => cmatch cs x | None => false end
  | Seq r1 r2 => peek r1 (peek r2 after)
  | Alt r1 r2 => fun o => peek r1 after o || peek r2 after o
  | Star _ r1 =>
      fun o => after o || match o with Some x => firstc r1 x | None => false end
  | Group _ r1 => peek r1 after
  | Bol _ => after
  | Eol ml =>
      fun o => after o && match o with
                          | None => true
                          | Some x => ml && isLineTerm x
                          end
  end.

(** Nothing that is known to follow can continue an entity. *)
Definition stops_entity (after : known) : bool :=
  forallb (fun x => negb (after (Some x))) post_chars.

(** A match is never empty and never ends on a character that an entity
    continues after. *)
Definition ends_entity (r : regex) : bool :=
  negb (nullable r) && forallb (fun x => negb (lastc r x)) pre_chars.

(** Every capture of group [k] made while [r] matches ends at a harmless
    cut, given what is known to follow the match. *)
Fixpoint group_safe (k : nat) (r : regex) (after : known) : bool :=
  match r with
  | Seq r1 r2 => group_safe k r1 (peek r2 after) && group_safe k r2 after
  | Alt r1 r2 => group_safe k r1 after && group_safe k r2 after
  | Star _ r1 =>
      group_safe k r1
        (fun o => after o || match o with Some x => firstc r1 x | None => false end)
  | Group k' r1 =>
      group_safe k r1 after
      && (negb (Nat.eqb k k') || stops_entity after || ends_entity r1)
  | _ => true
  end.

(** A replacement by the expression [r] that uses the groups [used], and
    the whole match when [whole] is set, cuts the string at harmless places
    only. *)
Definition match_ok (r : regex) (used : list nat) (whole : bool) : bool :=
  negb (nullable r)
  && forallb (fun x => negb (firstc r x)) post_chars
  && forallb (fun k => group_safe k r anything) used
  && (negb whole || ends_entity r).

(** The groups and the use of [$&] in a replacement, and that it writes no
    [&] of its own. *)
Fixpoint used_groups (t : list tpl_item) : list nat :=
  match t with
  | [] => []
  | TGroup k :: t' => k :: used_groups t'
  | _ :: t' => used_groups t'
  end.

Fixpoint uses_whole (t : list tpl_item) : bool :=
  match t with
  | [] => false
  | TWhole :: _ => true
  | _ :: t' => uses_whole t'
  end.

Fixpoint writes_no_amp (t : list tpl_item) : bool :=
  match t with
  | [] => true
  | TLit l :: t' => negb (existsb (N.eqb (ch "&")) l) && writes_no_amp t'
  | _ :: t' => writes_no_amp t'
  end.

End Provenance.

(* ===================================================================== *)
(** * Connection tests and the management messages
      ([testOpenRouterConnection], [testGeminiConnection] and the message
      listener of [service-worker.js]) *)
(* ===================================================================== *)

Module Connection.
Import JS Providers Models Orchestrator.

(** [{success, error}]; [error] is absent from [{success: true}]. *)
Record test_result := TestResult { success : bool; error : option jsstring }.

Definition failed (message : jsstring) : test_result := TestResult false (Some message).

(** One call of a connection test: the URLs it fetched and its answer. *)
Record probe := Probe { probed : list jsstring; answer : test_result }.

(** The [catch] of [testOpenRouterConnection]. *)
Definition connection_error (e : exn) : jsstring :=
  str "Connection failed: " ++
  (if jseqb (ex_name e) (str "TypeError") && jseqb (ex_message e) (str "Failed to fetch")
   then str "Unable to connect to OpenRouter API. This may be caused by a firewall, ad blocker, or network issue."
   else if negb (is_empty (ex_message e)) then ex_message e
   else str "An unexpected error occurred.").

(** [testOpenRouterConnection(apiKey)] *)
Definition testOpenRouterConnection (apiKey : jsstring) (net : fetch_outcome) : probe :=
  if is_empty apiKey then Probe [] (failed (str "API key is required"))
  else
    Probe [OpenRouter.OPENROUTER_MODELS_URL]
      match net with
      | FetchThrows e => failed (connection_error e)
      | FetchResponds r =>
          if resp_ok r then TestResult true None
          else if Nat.eqb (resp_status r) 401 then failed (str "Invalid API key")
          else failed (str "API error: " ++ decimal (resp_status r))
      end.

(** [testGeminiConnection(apiKey)] *)
Definition testGeminiConnection (apiKey : jsstring) (net : fetch_outcome) : probe :=
  if is_empty apiKey
  then Probe [] (failed (str "API key is required. Get a free key at aistudio.google.com/app/apikey"))
  else
    Probe [str "https://generativelanguage.googleapis.com/v1beta/models?key=" ++ apiKey]
      match net with
      | FetchThrows e => failed (str "Connection failed: " ++ ex_message e)
      | FetchResponds r =>
          if resp_ok r then TestResult true None
          else if Nat.eqb (resp_status r) 401 || Nat.eqb (resp_status r) 403
          then failed (str "Invalid API key")
          else failed (str "API error: " ++ decimal (resp_status r))
      end.

(** The two tests behind one interface. *)
Definition testConnection (a : adapter) :=
  match a with
  | OpenRouterAdapter => testOpenRouterConnection
  | GeminiAdapter => testGeminiConnection
  end.

(** [handleTestConnection(provider, apiKey, sendResponse)]: a [switch] on
    the identifier, which compares with [===] and consults no object. *)
Definition handleTestConnection (provider apiKey : jsstring) (net : fetch_outcome) : probe :=
  if jseqb provider (str "openrouter") then testOpenRouterConnection apiKey net
  else if jseqb provider (str "gemini") then testGeminiConnection apiKey net
  else Probe [] (failed (str "Unknown provider")).

(** ** The model-list handlers *)

(** The module variable [cachedModels] of each adapter. *)
Record caches := Caches {
  openrouter_cache : option (list ModelDescriptor);
  gemini_cache : option (list ModelDescriptor)
}.

Definition cached (a : adapter) (k : caches) : option (list ModelDescriptor) :=
  match a with
  | OpenRouterAdapter => openrouter_cache k
  | GeminiAdapter => gemini_cache k
  end.

Definition remember (a : adapter) (v : option (list ModelDescriptor)) (k : caches) : caches :=
  match a with
  | OpenRouterAdapter => Caches v (gemini_cache k)
  | GeminiAdapter => Caches (openrouter_cache k) v
  end.

(** What is passed to [sendResponse]. *)
Inductive reply :=
| ReplyResult (r : result)                       (* {content} or {error} *)
| ReplySettings (settings : Settings)            (* {settings, providers} *)
| ReplySaved                                     (* {success: true} *)
| ReplyTest (t : test_result)
| ReplyModels (models : list ModelDescriptor).   (* {models} *)

(** One run of a handler: the URLs fetched, the settings written to the
    store, the calls of [sendResponse], the error the promise of the
    handler is rejected with, and the caches afterwards. *)
Record handled := Handled {
  requests : list jsstring;
  written : option Settings;
  replies : list reply;
  uncaught : option exn;
  caches_after : caches
}.

(** The error of calling the missing [getModels] of an inherited property
    inside the [catch] of the handler. *)
Definition no_getModels : exn :=
  Exn (str "TypeError") (str "providerConfig.getModels is not a function").

Section Handlers.

Variable Raw : Type.
Variable parse_models : adapter -> jsstring -> payload Raw.
Variable transform : adapter -> Raw -> option (list ModelDescriptor).

(** [handleGetModels] and [handleRefreshModels].  [fetchModels] of both
    adapters catches every error itself, so the [catch] of the handler is
    entered only for an inherited property, whose [fetchModels] is not a
    function; the response it builds then calls the missing [getModels],
    and that error leaves the handler. *)
Definition handleModels (forceRefresh : bool) (k : caches) (provider apiKey : jsstring)
           (net : fetch_outcome) : handled :=
  match PROVIDERS provider with
  | Undefined => Handled [] None [ReplyResult (Error (str "Unknown provider"))] None k
  | Inherited => Handled [] None [] (Some no_getModels) k
  | Own a =>
      let l := listModels parse_models transform a (cached a k) apiKey forceRefresh net in
      Handled (fetched l) None [ReplyModels (returned l)] None (remember a (cache_after l) k)
  end.

Definition handleGetModels := handleModels false.
Definition handleRefreshModels := handleModels true.

(** The codecs of the two adapters. *)
Variable parse_sse : jsstring -> option OpenRouter.sse_data.
Variable parse_error_body : jsstring -> OpenRouter.error_payload.
Variable parse_completion : jsstring -> exn + OpenRouter.completion.
Variable parse_chunk : jsstring -> option jsvalue.
Variable parse_text : jsstring -> option jsstring.
Variable parse_error_message : jsstring -> exn + jsstring.
Variable parse_failure : jsstring -> jsstring.

(** The message received by the listener. *)
Inductive message :=
| EXPLAIN_TEXT (payload : RequestPayload)
| TRANSLATE_TEXT (payload : RequestPayload)
| GET_SETTINGS
| SAVE_SETTINGS (newSettings : Settings)
| TEST_CONNECTION (provider apiKey : jsstring)
| GET_MODELS (provider apiKey : jsstring)
| REFRESH_MODELS (provider apiKey : jsstring)
| OTHER_MESSAGE (type : jsstring).

(** What surrounds the worker when a message arrives. *)
Record world := World {
  stored : settings_outcome;      (* chrome.storage.sync.get *)
  write_error : option exn;       (* chrome.storage.sync.set, when it rejects *)
  network : fetch_outcome;        (* fetch *)
  model_caches : caches
}.

(** The URLs fetched and the responses sent in a list of effects. *)
Fixpoint fetches_of (l : list effect) : list jsstring :=
  match l with
  | [] => []
  | Fetch url :: l' => url :: fetches_of l'
  | _ :: l' => fetches_of l'
  end.

Fixpoint responses_of (l : list effect) : list reply :=
  match l with
  | [] => []
  | Respond r :: l' => ReplyResult r :: responses_of l'
  | _ :: l' => responses_of l'
  end.

Definition of_effects (l : list effect) (k : caches) : handled :=
  Handled (fetches_of l) None (responses_of l) None k.

(** [handleGetSettings] *)
Definition handleGetSettings (w : world) : handled :=
  match stored w with
  | SettingsRead settings => Handled [] None [ReplySettings settings] None (model_caches w)
  | SettingsFail e => Handled [] None [ReplyResult (Error (ex_message e))] None (model_caches w)
  end.

(** [handleSaveSettings] *)
Definition handleSaveSettings (newSettings : Settings) (w : world) : handled :=
  match write_error w with
  | None => Handled [] (Some newSettings) [ReplySaved] None (model_caches w)
  | Some e => Handled [] None [ReplyResult (Error (ex_message e))] None (model_caches w)
  end.

(** The listener of [chrome.runtime.onMessage]: what it returns (whether
    the channel stays open for an answer that comes later) and what the
    handler it starts does. *)
Definition onMessage (w : world) (m : message) : bool * handled :=
  match m with
  | EXPLAIN_TEXT payload =>
      (true, of_effects (handleExplainRequest parse_sse parse_error_body parse_completion parse_chunk
                           parse_text parse_error_message parse_failure
                           (stored w) (network w) payload) (model_caches w))
  | TRANSLATE_TEXT payload =>
      (true, of_effects (handleTranslateRequest parse_sse parse_error_body parse_completion parse_chunk
                           parse_text parse_error_message parse_failure
                           (stored w) (network w) payload) (model_caches w))
  | GET_SETTINGS => (true, handleGetSettings w)
  | SAVE_SETTINGS newSettings => (true, handleSaveSettings newSettings w)
  | TEST_CONNECTION provider apiKey =>
      let p := handleTestConnection provider apiKey (network w) in
      (true, Handled (probed p) None [ReplyTest (answer p)] None (model_caches w))
  | GET_MODELS provider apiKey =>
      (true, handleGetModels (model_caches w) provider apiKey (network w))
  | REFRESH_MODELS provider apiKey =>
      (true, handleRefreshModels (model_caches w) provider apiKey (network w))
  | OTHER_MESSAGE _ =>
      (false, Handled [] None [ReplyResult (Error (str "Unknown message type"))] None
                      (model_caches w))
  end.

End Handlers.

End Connection.

(* ===================================================================== *)
(** * The response panel of the content script ([content.js]):
      the selection, the tabs, the port listener and the error view *)
(* ===================================================================== *)

Module Panel.
Import JS Markdown Errors Orchestrator.

(** ** The selection *)

(** [s.indexOf(p)]: the first index at which [p] occurs, [None] for -1. *)
Fixpoint index_from (s p : jsstring) (i : nat) : option nat :=
  if starts_with p s then Some i
  else match s with
       | [] => None
       | _ :: s' => index_from s' p (S i)
       end.

Definition indexOf (s p : jsstring) : option nat := index_from s p 0.

(** The text kept before the selection: up to 200 characters that precede
    its first occurrence in the text of the enclosing block, trimmed.
    [fullText] is [None] when no block is found or reading it throws. *)
Definition contextBefore_of (fullText : option jsstring) (selectedText : jsstring) : jsstring :=
  match fullText with
  | None => []
  | Some fullText =>
      match indexOf fullText selectedText with
      | Some (S before) =>
          let selectionStart := S before in
          trim (fun c => c) (substring fullText (selectionStart - 200) selectionStart)
      | _ => []
      end
  end.

Record SelectionContext := MkSelection {
  sel_text : jsstring;
  sel_contextBefore : jsstring;
  sel_pageTitle : jsstring
}.

(** [getSelectionContext()], without the position of the popup.
    [selected] is [selection.toString()], [None] without a selection. *)
Definition getSelectionContext (selected : option jsstring) (fullText : option jsstring)
           (title : jsstring) : option SelectionContext :=
  match selected with
  | None => None
  | Some raw =>
      let selectedText := trim (fun c => c) raw in
      if is_empty selectedText || Nat.ltb (length selectedText) 2 then None
      else Some (MkSelection selectedText (contextBefore_of fullText selectedText) title)
  end.

(** ** The tabs of the translation panel *)

Record tab := Tab { id : jsstring; label : jsstring; hint : jsstring }.

Definition translation_tab : tab :=
  Tab (str "translation") (str "Translation") (str "Just the meaning").

Definition TRANSLATE_TABS : list tab :=
  [ translation_tab;
    Tab (str "idioms") (str "Idioms & Nuance") (str "Sound natural");
    Tab (str "similar") (str "Similar Phrases") (str "Swap-in options");
    Tab (str "learning") (str "Study Notes") (str "Quick coaching") ].

(** What the panel is asked for. *)
Inductive request_kind := Explain | Translate.

(** [getTranslateTab(tabId)]; [tabId] is [None] for [null]. *)
Definition getTranslateTab (tabId : option jsstring) : tab :=
  match find (fun t => match tabId with
                       | Some i => jseqb (id t) i
                       | None => false
                       end) TRANSLATE_TABS with
  | Some t => t
  | None => hd translation_tab TRANSLATE_TABS
  end.

(** [getLoadingText(type, tabId)] *)
Definition getLoadingText (type : request_kind) (tabId : option jsstring) : jsstring :=
  match type with
  | Translate =>
      let t := getTranslateTab tabId in
      if jseqb (id t) (str "idioms") then str "Getting idioms & nuance..."
      else if jseqb (id t) (str "similar") then str "Finding similar phrases..."
      else if jseqb (id t) (str "learning") then str "Building study notes..."
      else str "Getting translation..."
  | Explain => str "Getting explanation..."
  end.


Definition request_mode (type : request_kind) (tabId : option jsstring) : option jsstring :=
  match type with
  | Translate =>
      Some (match tabId with
            | Some i => or_else_s i (str "translation")
            | None => str "translation"
            end)
  | Explain => None
  end.

Definition request_payload (type : request_kind) (tabId : option jsstring)
           (selection : SelectionContext) (href : jsstring) : RequestPayload :=
  MkPayload (sel_text selection) (sel_contextBefore selection) (sel_pageTitle selection)
            href (request_mode type tabId).

(** ** What the container shows *)

(** [name="value"] *)
Definition attr (name value : string) : jsstring :=
  str name ++ str "=" ++ [dquote] ++ str value ++ [dquote].

Definition open_div (cls : string) : jsstring :=
  str "<div " ++ attr "class" cls ++ str ">".

Definition line (indent : nat) (content : jsstring) : jsstring :=
  repeat (ch " ") indent ++ content ++ [newline].

(** [ICONS.error] *)
Definition ICON_error : jsstring :=
  str "<svg " ++ attr "viewBox" "0 0 24 24" ++ str " "
    ++ attr "xmlns" "http://www.w3.org/2000/svg" ++ str "><path "
    ++ attr "d" "M12 2C6.48 2 2 6.48 2 12s4.48 10 10 10 10-4.48 10-10S17.52 2 12 2zm1 15h-2v-2h2v2zm0-4h-2V7h2v6z"
    ++ str "/></svg>".

(** [applyTextDirection(html)]: the direction is left to the style sheet. *)
Definition applyTextDirection (html : jsstring) : jsstring := html.

Section View.

Variable unicodeLower : jschar -> jsstring.

(** [renderError(errorText, ...)] for the error of a port message, which is
    a string. *)
Definition renderError (errorText : jsstring) : jsstring :=
  let e := parseError unicodeLower (EString errorText) in
  [newline]
    ++ line 6 (open_div "ea-error")
    ++ line 8 (open_div "ea-error-icon" ++ ICON_error ++ str "</div>")
    ++ line 8 (open_div "ea-error-cause" ++ escapeHtml (cause e) ++ str "</div>")
    ++ line 8 (open_div "ea-error-message" ++ escapeHtml (message e) ++ str "</div>")
    ++ line 8 (str "<button " ++ attr "class" "ea-retry-btn" ++ str ">Try Again</button>")
    ++ line 6 (str "</div>")
    ++ repeat (ch " ") 4.

(** The content of [.ea-response-container]: the loading view, the
    response element with its [innerHTML], or the error view. *)
Inductive view :=
| ShowsLoading (text : jsstring)
| ShowsResponse (html : jsstring)
| ShowsError (html : jsstring).

(** The variables of one call of [requestAIResponse]: whether its port is
    still [activeRequestPort], [fullContent], [isFirstChunk], and the
    container. *)
Record panel := MkPanel {
  listening : bool;
  fullContent : jsstring;
  isFirstChunk : bool;
  container : view
}.

(** The states in which a fragment is displayed: no fragment has come yet,
    or the response element is in place. *)
Definition displays (p : panel) : Prop :=
  isFirstChunk p = true \/ exists html, container p = ShowsResponse html.

(** The panel when the request has just been posted. *)
Definition requested (type : request_kind) (tabId : option jsstring) : panel :=
  MkPanel true [] true (ShowsLoading (getLoadingText type tabId)).

(** [highlightCode] applied to every code block of the response, as a
    function of the [innerHTML] of the response element. *)
Variable highlight : jsstring -> jsstring.

(** [showErrorState(errorText, ...)] followed by what ends the request. *)
Definition showErrorState (errorText : jsstring) (p : panel) : panel :=
  MkPanel false (fullContent p) (isFirstChunk p) (ShowsError (renderError errorText)).

(** The listener of [port.onMessage]. *)
Definition onPortMessage (p : panel) (msg : StreamEvent) : panel :=
  if negb (listening p) then p
  else
    match msg with
    | ErrorEvent e =>
        if is_empty e then p else showErrorState e p
    | Chunk content =>
        let shown := if isFirstChunk p then ShowsResponse [] else container p in
        let full := fullContent p ++ content in
        MkPanel true full false
                match shown with
                | ShowsResponse _ => ShowsResponse (applyTextDirection (parseMarkdown full))
                | other => other
                end
    | Done =>
        MkPanel false (fullContent p) (isFirstChunk p)
                match container p with
                | ShowsResponse html => ShowsResponse (highlight html)
                | other => other
                end
    end.

(** The listener of [port.onDisconnect]; [lastError] is the message of
    [chrome.runtime.lastError] when there is one. *)
Definition onPortDisconnect (p : panel) (lastError : option jsstring) : panel :=
  if negb (listening p) then p
  else
    match lastError with
    | Some m =>
        if isFirstChunk p
        then showErrorState
               (or_else_s m (str "Connection lost. Please refresh the page and try again.")) p
        else MkPanel false (fullContent p) (isFirstChunk p) (container p)
    | None => MkPanel false (fullContent p) (isFirstChunk p) (container p)
    end.

(** The panel after the messages of a port, in order. *)
Definition receive (p : panel) (msgs : list StreamEvent) : panel :=
  fold_left onPortMessage msgs p.

End View.

End Panel.

(* ===================================================================== *)
(** * The scan of the Gemini stream, one character at a time *)
(* ===================================================================== *)

Module Scanning.
Import JS Providers Gemini.

(** One turn of the [for] loop of the scan at index [i], when it does not
    complete an object: the loop variables afterwards.  [None] when the
    character closes the object that is open. *)
Definition next_state (i : nat) (char : jschar) (st : scan_state) : option scan_state :=
  if escaped st then Some (ScanState (braceCount st) (startIdx st) (inString st) false)
  else if N.eqb char 92%N then Some (ScanState (braceCount st) (startIdx st) (inString st) true)
  else if N.eqb char dquote
  then Some (ScanState (braceCount st) (startIdx st) (negb (inString st)) false)
  else if negb (inString st) then
    if N.eqb char (ch "{") then
      Some (ScanState (braceCount st + 1)
                      (if Z.eqb (braceCount st) 0 then Z.of_nat i else startIdx st)
                      false false)
    else if N.eqb char (ch "}") then
      if Z.eqb (braceCount st - 1) 0 && negb (Z.eqb (startIdx st) (-1)) then None
      else Some (ScanState (braceCount st - 1) (startIdx st) false false)
    else Some st
  else Some st.

(** Two states of the scan that differ at most in a [startIdx] that is no
    longer read: the one left behind by an object already delivered. *)
Definition same_scan (st st' : scan_state) : Prop :=
  braceCount st = braceCount st'
  /\ inString st = inString st'
  /\ escaped st = escaped st'
  /\ ((0 < braceCount st)%Z -> startIdx st = startIdx st' /\ startIdx st <> (-1)%Z).

End Scanning.

(* ===================================================================== *)
(** * Shapes of the traces of the handlers *)
(* ===================================================================== *)

Module Traces.
Import JS Providers Orchestrator.

(** What may come between reading the settings and the answer: nothing, a
    prompt, or a prompt and then one request. *)
Definition preparation_shape (pre : list effect) : Prop :=
  pre = []
  \/ (exists m, pre = [BuildPrompt m])
  \/ (exists m url, pre = [BuildPrompt m; Fetch url]).

(** [w] occurs in [s]. *)
Definition occurs_in (w s : jsstring) : Prop := exists pre post, s = pre ++ w ++ post.

End Traces.

(* ===================================================================== *)
(** * What an expression needs in order to match *)
(* ===================================================================== *)

Module Matching.
Import JS.

(** Every match of [r] consumes a character that satisfies [P]. *)
Fixpoint requires (P : jschar -> bool) (r : regex) : Prop :=
  match r with
  | Chr cs => forall x, cmatch cs x = true -> P x = true
  | Seq r1 r2 => requires P r1 \/ requires P r2
  | Alt r1 r2 => requires P r1 /\ requires P r2
  | Group _ r1 => requires P r1
  | _ => False
  end.

(** The best match of [r] from index [i], when there is one: the first of
    the matches in priority order. *)
Definition best (r : regex) (s : jsstring) (i : nat) (c : caps) : option (nat * caps) :=
  hd_error (rmatch r s i c).

(** The length of the longest prefix of [l] made of characters of [cs]. *)
Fixpoint span (cs : cset) (l : jsstring) : nat :=
  match l with
  | x :: l' => if cmatch cs x then S (span cs l') else 0
  | [] => 0
  end.

End Matching.

(** More concrete worlds. *)
Module MoreSamples.
Import JS Providers Orchestrator Samples.

(** The body of [two_reads] delivered by one read. *)
Definition one_read : body_stream :=
  BodyStream [str "data: Hel" ++ [newline] ++ str "data: lo" ++ [newline]] StreamDone.

Definition split_reads : body_stream :=
  BodyStream [str "data: Hel" ++ [newline] ++ str "da"; str "ta: lo" ++ [newline]] StreamDone.

(** A lower-case mapping that leaves the characters outside ASCII as they
    are, and a highlighter that changes nothing. *)
Definition plain_lower (c : jschar) : jsstring := [c].
Definition no_highlight (html : jsstring) : jsstring := html.

End MoreSamples.

(* ===================================================================== *)
(** * Text without markup *)
(* ===================================================================== *)

Module PlainText.
Import JS.

(** The characters that [escapeHtml] rewrites, or that a construct
    [parseMarkdown] looks for cannot do without: the ampersand, the angle
    brackets, the no-break space, the back quote, the star, the hash, the
    hyphen, the opening bracket, the bar and the line feed. *)
Definition special : jsstring := str "&<>`*#-[|" ++ [10; 160]%N.

(** A character that is none of those and no digit. *)
Definition plain (c : jschar) : bool :=
  negb (existsb (N.eqb c) special) && negb (cmatch cDigit c).

(** [w] and [u] differ at an index where both have a character. *)
Fixpoint clashes (w u : jsstring) : bool :=
  match w, u with
  | x :: w', y :: u' => negb (N.eqb x y) || clashes w' u'
  | _, _ => false
  end.

(** The expression begins with the literal [w]. *)
Definition begins_with (r : regex) (w : string) : Prop :=
  r = Lit w \/ exists r', r = Seq (Lit w) r'.

End PlainText.

(* ===================================================================== *)
(** * The cookie-based providers ([claude.js], [chatgpt.js]): reading the
      answer out of the event stream *)
(* ===================================================================== *)

Module CookieProviders.
Import JS.

Section Claude.

(** What the payload of a data line adds to the content: [parsed.completion],
    or [parsed.text] for an event of type [completion]; nothing when the
    payload does not parse or holds neither. *)
Variable completion_of : jsstring -> jsstring.

(** One turn of the loop of [parseClaudeResponse]. *)
Definition claude_line (fullContent line : jsstring) : jsstring :=
  if starts_with (str "data: ") line then
    let data := trim (fun c => c) (skipn 6 line) in
    if is_empty data then fullContent else fullContent ++ completion_of data
  else fullContent.

(** [fullContent] when the loop ends. *)
Definition claude_content (text : jsstring) : jsstring :=
  fold_left claude_line (split_char (fun c => c) 10%N text) [].

(** [parseClaudeResponse(text)]; [None] is [null]. *)
Definition parseClaudeResponse (text : jsstring) : option jsstring :=
  let fullContent := claude_content text in
  if is_empty fullContent then None else Some fullContent.

End Claude.

Section ChatGPT.

(** [parts.join('')] for the message of a payload that parses and has
    parts, at least one. *)
Variable parts_of : jsstring -> option jsstring.

(** The loop of [parseChatGPTResponse], with its [break]. *)
Fixpoint chatgpt_lines (lines : list jsstring) (fullContent : jsstring) : jsstring :=
  match lines with
  | [] => fullContent
  | line :: rest =>
      if starts_with (str "data: ") line then
        let data := trim (fun c => c) (skipn 6 line) in
        if jseqb data (str "[DONE]") then fullContent
        else chatgpt_lines rest
               match parts_of data with
               | Some content => content
               | None => fullContent
               end
      else chatgpt_lines rest fullContent
  end.

(** [parseChatGPTResponse(text)]; [None] is [null]. *)
Definition parseChatGPTResponse (text : jsstring) : option jsstring :=
  let fullContent := chatgpt_lines (split_char (fun c => c) 10%N text) [] in
  if is_empty fullContent then None else Some fullContent.

End ChatGPT.

End CookieProviders.

(* ===================================================================== *)
(** * The icon generator ([scripts/generate-icons.js]): the checksum and
      the chunks of a PNG file *)
(* ===================================================================== *)

Module Icons.
Local Open Scope Z_scope.

(** ** The 32-bit operators of JavaScript on integral numbers *)

Definition ToInt32 (x : Z) : Z := (x + 2 ^ 31) mod 2 ^ 32 - 2 ^ 31.
Definition ToUint32 (x : Z) : Z := x mod 2 ^ 32.

(** [a ^ b] *)
Definition bxor (a b : Z) : Z := Z.lxor (ToInt32 a) (ToInt32 b).
(** [a & b] *)
Definition band (a b : Z) : Z := Z.land (ToInt32 a) (ToInt32 b).
(** [a >>> n] *)
Definition ushr (a n : Z) : Z := Z.shiftr (ToUint32 a) (n mod 32).

(** ** [makeCrcTable()] *)

(** One turn of the inner loop. *)
Definition table_step (c : Z) : Z :=
  if Z.eqb (band c 1) 0 then ushr c 1 else bxor 0xedb88320 (ushr c 1).

Definition table_entry (i : Z) : Z := Nat.iter 8 table_step i.

Definition makeCrcTable : list Z :=
  map (fun i => table_entry (Z.of_nat i)) (seq 0 256).

(** [table[i]] as an operand of [^]: a missing entry is [undefined], which
    the operator reads as 0. *)
Definition at_index (table : list Z) (i : Z) : Z :=
  if Z.ltb i 0 then 0 else nth (Z.to_nat i) table 0.

(** ** [crc32(data)]; [data] holds bytes *)

(** One turn of the loop. *)
Definition crc_update (table : list Z) (crc byte : Z) : Z :=
  bxor (ushr crc 8) (at_index table (band (bxor crc byte) 0xff)).

Definition crc32 (data : list Z) : Z :=
  let table := makeCrcTable in
  let crc := fold_left (crc_update table) data 0xffffffff in
  ushr (bxor crc 0xffffffff) 0.

(** ** [createChunk(type, data)] *)

(** [buffer.writeUInt32BE(value, 0)] on a buffer of four bytes: the bytes
    written, [None] when the value is out of range and the call throws. *)
Definition writeUInt32BE (value : Z) : option (list Z) :=
  if (0 <=? value) && (value <? 2 ^ 32)
  then Some [value / 2 ^ 24; (value / 2 ^ 16) mod 256; (value / 2 ^ 8) mod 256;
             value mod 256]
  else None.

(** [type] is the bytes of the type string. *)
Definition createChunk (type data : list Z) : option (list Z) :=
  match writeUInt32BE (Z.of_nat (length data)) with
  | None => None
  | Some len =>
      match writeUInt32BE (crc32 (type ++ data)) with
      | None => None
      | Some crcBuffer => Some (len ++ type ++ data ++ crcBuffer)
      end
  end.

End Icons.

(* ===================================================================== *)
(** * Theorems: the renderer, the classifiers *)
(* ===================================================================== *)

Unset Implicit Arguments.

Module MarkdownFacts.
Import JS Markdown Vocabulary.

(** The rendering of the test vector. *)
Lemma render_bold_and_code :
  parseMarkdown (str "**bold** and `code`")
  = str "<p><strong>bold</strong> and <code>code</code></p>".
Proof. vm_compute. reflexivity. Qed.

(** C9. Rendering [**bold** and `code`] yields markup in which
    [<strong>bold</strong>] occurs exactly once and [<code>code</code>]
    occurs exactly once, and in which no [**] and no backtick is left. *)
Theorem c9_bold_and_code_rendered_once :
  let out := parseMarkdown (str "**bold** and `code`") in
  count_sub (str "<strong>bold</strong>") out = 1
  /\ count_sub (str "<code>code</code>") out = 1
  /\ count_sub (str "**") out = 0
  /\ ~ In (ch "`") out
  /\ ~ In (ch "*") out.
Proof.
  cbv zeta. rewrite render_bold_and_code.
  repeat split; try (vm_compute; reflexivity).
  - vm_compute. intuition discriminate.
  - vm_compute. intuition discriminate.
Qed.

End MarkdownFacts.

Module ErrorFacts.
Import JS Errors Vocabulary.

Section Classifier.
Variable unicodeLower : jschar -> jsstring.

(** C5. On [Rate limit exceeded. Try later.] the classifier answers the
    cause [Rate Limit] and keeps the whole text as the message: the text has
    no colon, so the colon rule finds no match; the sentence rule matches
    with the remainder [Try later.], whose 10 characters do not exceed 10, so
    it does not fire; and in the keyword table [api key], [network] and
    [connection] do not occur while [rate limit] does. *)
Theorem c5_rate_limit_by_keyword :
  parseError unicodeLower (EString rate_text)
    = Classified (str "Rate Limit") rate_text
  /\ ~ In (ch ":") rate_text
  /\ match2 re_colon rate_text = None
  /\ match2 re_period rate_text = Some (str "Rate limit exceeded.", str "Try later.")
  /\ length (str "Try later.") = 10
  /\ Nat.ltb 10 (length (str "Try later.")) = false
  /\ includes (toLowerCase unicodeLower rate_text) (str "api key") = false
  /\ includes (toLowerCase unicodeLower rate_text) (str "network") = false
  /\ includes (toLowerCase unicodeLower rate_text) (str "connection") = false
  /\ includes (toLowerCase unicodeLower rate_text) (str "rate limit") = true.
Proof.
  repeat split; try (vm_compute; reflexivity).
  vm_compute. intuition discriminate.
Qed.

(** The structured branch, field by field. *)
Lemma parseObject_cause (o : errobj) :
  cause (parseObject o)
  = or_else_s
      (match f_cause o, f_code o with
       | FString s, _ => trim (fun c => c) s
       | FOther, FString s => trim (fun c => c) s
       | FOther, FOther => str "Error"
       end)
      (str "Error").
Proof. unfold parseObject. simpl. destruct (f_cause o), (f_code o); reflexivity. Qed.

Lemma parseObject_message (o : errobj) :
  message (parseObject o)
  = or_else_s
      (match f_message o, f_error o, f_json o with
       | FString s, _, _ => trim (fun c => c) s
       | FOther, FString s, _ => trim (fun c => c) s
       | FOther, FOther, JsonText s => s
       | FOther, FOther, _ => []
       end)
      (str "An unexpected error occurred.").
Proof.
  unfold parseObject. simpl.
  destruct (f_message o), (f_error o), (f_json o); reflexivity.
Qed.

(** C6, as the code has it.  For a structured error the cause is the
    [cause] field when it is a string, else the [code] field when it is a
    string, else [Error]; the message is the [message] field when it is a
    string, else the [error] field when it is a string, else the
    serialisation of the object.  String fields are trimmed, and a cause or
    message that comes out empty is replaced by [Error], respectively by the
    default message.  Absent and empty inputs give the fixed default pair. *)
Theorem c6_structured_error_fields :
  (forall o : errobj,
      parseError unicodeLower (EObject o)
      = Classified
          (or_else_s
             (match f_cause o, f_code o with
              | FString s, _ => trim (fun c => c) s
              | FOther, FString s => trim (fun c => c) s
              | FOther, FOther => str "Error"
              end)
             (str "Error"))
          (or_else_s
             (match f_message o, f_error o, f_json o with
              | FString s, _, _ => trim (fun c => c) s
              | FOther, FString s, _ => trim (fun c => c) s
              | FOther, FOther, JsonText s => s
              | FOther, FOther, _ => []
              end)
             (str "An unexpected error occurred.")))
  /\ parseError unicodeLower EAbsent
     = Classified (str "Unknown error") (str "An unexpected error occurred.")
  /\ parseError unicodeLower (EString [])
     = Classified (str "Unknown error") (str "An unexpected error occurred.")
  /\ (forall text, parseError unicodeLower (EPrimitive false text)
     = Classified (str "Unknown error") (str "An unexpected error occurred.")).
Proof.
  split; [| repeat split].
  intro o. simpl.
  rewrite <- parseObject_cause, <- parseObject_message.
  destruct (parseObject o); reflexivity.
Qed.

End Classifier.

(** C6, as stated, fails: with both fields present the cause that comes out
    is neither the [cause] field nor the [code] field. *)
Lemma c6_cause_is_neither_field :
  let r := parseError (fun c => [c]) (EObject empty_cause) in
  cause r = str "Error"
  /\ f_cause empty_cause = FString []
  /\ f_code empty_cause = FString (str "E42")
  /\ cause r <> spec_cause empty_cause
  /\ cause r <> str "E42".
Proof.
  vm_compute. repeat split; discriminate.
Qed.

End ErrorFacts.

(* ===================================================================== *)
(** * Theorems: the adapters *)
(* ===================================================================== *)

Module ProviderFacts.
Import JS Providers Vocabulary.





(** ** What the streaming loops keep *)

Section Invariant.

(** A property [P] of what has been streamed that [deliver] keeps for the
    values [Q] admits is kept by the loops of both adapters, as long as the
    codec gives values that [Q] admits. *)
Variable Q : jsvalue -> Prop.
Variable P : streamed -> Prop.
Hypothesis deliver_keeps : forall v acc, Q v -> P acc -> P (deliver v acc).

Section OpenRouterStream.
Import OpenRouter.
Variable parse_sse : jsstring -> option sse_data.
Hypothesis sse_admitted : forall s d, parse_sse s = Some d -> Q (d_content d).





End OpenRouterStream.

Section GeminiStream.
Import Gemini.
Variable parse_chunk : jsstring -> option jsvalue.
Hypothesis chunk_admitted : forall s v, parse_chunk s = Some v -> Q v.



End GeminiStream.

End Invariant.

(** ** What a successful stream returns *)





(** ** No adapter reports an empty error *)

Lemma or_else_s_nonempty (a b : jsstring) : b <> [] -> or_else_s a b <> [].
Proof. destruct a; simpl; [auto | discriminate]. Qed.

Ltac nonempty :=
  let H := fresh in
  intro H; apply (f_equal (@List.length _)) in H;
  repeat rewrite length_app in H; simpl in H; discriminate.

Lemma api_error_text_nonempty e : OpenRouter.api_error_text e <> [].
Proof. unfold OpenRouter.api_error_text. apply or_else_s_nonempty. nonempty. Qed.

Lemma network_error_nonempty e : OpenRouter.network_error e <> [].
Proof. unfold OpenRouter.network_error. nonempty. Qed.

Lemma status_error_nonempty errorData status e :
  OpenRouter.status_error errorData status = Error e -> e <> [].
Proof.
  unfold OpenRouter.status_error.
  repeat match goal with
         | |- context [if ?b then _ else _] => destruct b
         end; intros E; inversion E; subst;
    try (repeat apply or_else_s_nonempty); nonempty.
Qed.

(** Also on a [null] body, where the error is the one of the [catch]. *)
Lemma openrouter_http_error_nonempty parse_error_body r e :
  OpenRouter.http_error parse_error_body r = Error e -> e <> [].
Proof.
  unfold OpenRouter.http_error.
  destruct (parse_error_body (resp_text r)) as [|x|b].
  - apply status_error_nonempty.
  - intros E. inversion E. apply network_error_nonempty.
  - apply status_error_nonempty.
Qed.

Lemma message_or_nonempty parse_error_message r fallback e :
  fallback <> [] -> Gemini.message_or parse_error_message r fallback = Error e -> e <> [].
Proof.
  intros Hf. unfold Gemini.message_or.
  destruct (parse_error_message (resp_text r)) as [x|m]; intros E; inversion E; subst.
  - nonempty.
  - apply or_else_s_nonempty. assumption.
Qed.

Lemma gemini_http_error_nonempty parse_error_message r e :
  Gemini.http_error parse_error_message r = Error e -> e <> [].
Proof.
  unfold Gemini.http_error.
  repeat match goal with
         | |- context [if ?b then _ else _] => destruct b
         end;
    try (apply message_or_nonempty; nonempty);
    intros E; inversion E; subst; nonempty.
Qed.

(** An error response whose body is [null] is reported by the [catch] of
    the adapter, whatever its status; for Gemini only under the statuses for
    which the body is read. *)
Lemma openrouter_null_error_body parse_error_body r e :
  parse_error_body (resp_text r) = OpenRouter.NullBody e ->
  OpenRouter.http_error parse_error_body r = Error (OpenRouter.network_error e).
Proof. intros E. unfold OpenRouter.http_error. rewrite E. reflexivity. Qed.

Lemma gemini_null_error_body parse_error_message r e :
  parse_error_message (resp_text r) = inl e ->
  Gemini.http_error parse_error_message r
  = if Nat.eqb (resp_status r) 400 then Error (str "Gemini error: " ++ ex_message e)
    else if Nat.eqb (resp_status r) 401 || Nat.eqb (resp_status r) 403
    then Error (str "Invalid API key. Please check your Gemini API key in settings.")
    else if Nat.eqb (resp_status r) 429
    then Error (str "Rate limit exceeded. Please try again later.")
    else Error (str "Gemini error: " ++ ex_message e).
Proof. intros E. unfold Gemini.http_error, Gemini.message_or. rewrite E. reflexivity. Qed.

Lemma process_lines_error parse_sse lines : forall acc e,
  snd (OpenRouter.process_lines parse_sse lines acc) = Some e -> e <> [].
Proof.
  induction lines as [|line rest IH]; intros acc e; simpl; [discriminate|].
  destruct (OpenRouter.process_line parse_sse line acc) as [acc'|e'] eqn:E.
  - apply IH.
  - simpl. intros H. inversion H; subst. clear H.
    unfold OpenRouter.process_line in E.
    repeat match type of E with
           | context [if ?b then _ else _] => destruct b
           | context [match ?x with _ => _ end] => destruct x
           end; inversion E; apply api_error_text_nonempty.
Qed.

Lemma openrouter_read_loop_error parse_sse rs ending : forall buffer acc e,
  snd (OpenRouter.read_loop parse_sse rs ending buffer acc) = Error e -> e <> [].
Proof.
  induction rs as [|value rs IH]; intros buffer acc e; simpl.
  - destruct ending; simpl; intros E; inversion E. apply network_error_nonempty.
  - pose proof (process_lines_error parse_sse
                  (removelast (split_char (fun c => c) 10%N (buffer ++ value))) acc) as Hl.
    destruct (OpenRouter.process_lines parse_sse _ acc) as [acc' [e'|]]; simpl in *.
    + intros E. inversion E; subst. apply Hl. reflexivity.
    + apply IH.
Qed.

Lemma gemini_read_loop_error parse_chunk rs ending : forall buffer acc e,
  snd (Gemini.read_loop parse_chunk rs ending buffer acc) = Error e -> e <> [].
Proof.
  induction rs as [|value rs IH]; intros buffer acc e; simpl.
  - destruct ending; simpl; intros E; inversion E. nonempty.
  - destruct (Gemini.scan parse_chunk _ 0 _ Gemini.scan_init acc) as [buffer' acc'].
    apply IH.
Qed.

End ProviderFacts.

(* ===================================================================== *)
(** * Theorems: the orchestrator *)
(* ===================================================================== *)

Module OrchestratorFacts.
Import JS Providers Orchestrator Vocabulary ProviderFacts Samples.

Section Handlers.
Variable parse_sse : jsstring -> option OpenRouter.sse_data.
Variable parse_error_body : jsstring -> OpenRouter.error_payload.
Variable parse_completion : jsstring -> exn + OpenRouter.completion.
Variable parse_chunk : jsstring -> option jsvalue.
Variable parse_text : jsstring -> option jsstring.
Variable parse_error_message : jsstring -> exn + jsstring.
Variable parse_failure : jsstring -> jsstring.

Local Abbreviation send_ :=
  (send parse_sse parse_error_body parse_completion parse_chunk parse_text
        parse_error_message parse_failure).
Local Abbreviation handleStreamMessage_ :=
  (handleStreamMessage parse_sse parse_error_body parse_completion parse_chunk parse_text
                       parse_error_message parse_failure).
Local Abbreviation handleRequest_ :=
  (handleRequest parse_sse parse_error_body parse_completion parse_chunk parse_text
                 parse_error_message parse_failure).




(** No adapter reports an empty error. *)
Lemma send_error_nonempty (a : adapter) (p : params) (net : fetch_outcome) (e : jsstring) :
  outcome (send_ a p true net) = Error e -> e <> [].
Proof.
  unfold send. destruct a.
  - unfold OpenRouter.sendOpenRouterRequest.
    destruct (is_empty (apiKey p)); [simpl; intros E; inversion E; nonempty|].
    destruct net as [x|r]; [simpl; intros E; inversion E; apply network_error_nonempty|].
    destruct (negb (resp_ok r)); [simpl; apply openrouter_http_error_nonempty|].
    pose proof (openrouter_read_loop_error parse_sse (reads (resp_stream r))
                  (ending (resp_stream r)) [] (Streamed [] []) e) as Hr.
    destruct (OpenRouter.read_loop _ _ _ _ _) as [acc res]. exact Hr.
  - unfold Gemini.sendGeminiRequest.
    destruct (is_empty (apiKey p)); [simpl; intros E; inversion E; nonempty|].
    destruct net as [x|r]; [simpl; intros E; inversion E; nonempty|].
    destruct (negb (resp_ok r)); [simpl; apply gemini_http_error_nonempty|].
    pose proof (gemini_read_loop_error parse_chunk (reads (resp_stream r))
                  (ending (resp_stream r)) [] (Streamed [] []) e) as Hr.
    destruct (Gemini.read_loop _ _ _ _ _) as [acc res]. exact Hr.
Qed.

Lemma posted_app (l1 l2 : list effect) : posted (l1 ++ l2) = posted l1 ++ posted l2.
Proof.
  induction l1 as [|x l1 IH]; simpl; [reflexivity|].
  destruct x; simpl; rewrite IH; reflexivity.
Qed.

Lemma posted_fetches (urls : list jsstring) : posted (map Fetch urls) = [].
Proof. induction urls; simpl; auto. Qed.

Lemma posted_chunks (cs : list jsstring) :
  posted (map (fun c => Post (Chunk c)) cs) = map Chunk cs.
Proof. induction cs; simpl; congruence. Qed.

Lemma stream_run_posted (r : run) :
  posted (stream_run r) = map Chunk (emitted r) ++ posted (after_send r).
Proof.
  unfold stream_run. rewrite !posted_app, posted_fetches, posted_chunks. reflexivity.
Qed.

(** One adapter call seen from the port: fragments, then one terminal
    event. *)
Lemma stream_run_shape (r : run) :
  exists cs terminal,
    posted (stream_run r) = map Chunk cs ++ [terminal] /\ is_terminal terminal = true.
Proof.
  rewrite stream_run_posted. unfold after_send.
  destruct (outcome r) as [content|e].
  - destruct (is_empty (emitted r) && negb (is_empty content)) eqn:E; simpl.
    + exists (emitted r ++ [content]), Done. rewrite map_app, <- app_assoc. auto.
    + exists (emitted r), Done. auto.
  - destruct (is_empty e); simpl.
    + exists (emitted r), Done. auto.
    + exists (emitted r), (ErrorEvent e). auto.
Qed.

Lemma terminal_count (cs : list jsstring) (terminal : StreamEvent) :
  is_terminal terminal = true ->
  length (filter is_terminal (map Chunk cs ++ [terminal])) = 1.
Proof.
  intros H. rewrite filter_app. simpl. rewrite H.
  replace (filter is_terminal (map Chunk cs)) with (@nil StreamEvent); [reflexivity|].
  induction cs; simpl; auto.
Qed.

Lemma stream_shape settings net type payload :
  type <> OTHER_TYPE ->
  exists cs terminal,
    posted (handleStreamMessage_ settings net type payload) = map Chunk cs ++ [terminal]
    /\ is_terminal terminal = true.
Proof.
  intros Ht.
  assert (Hone : forall d, exists cs terminal,
             [ErrorEvent d] = map Chunk cs ++ [terminal] /\ is_terminal terminal = true).
  { intros d. exists [], (ErrorEvent d). auto. }
  destruct type; [| |congruence]; simpl;
    (destruct settings as [s|e]; simpl; [|apply Hone]);
    (destruct (PROVIDERS (provider s)) as [a| |]; simpl;
     [apply stream_run_shape | apply Hone | apply Hone]).
Qed.

(** C2. On a streaming channel, the events posted for one request are zero
    or more [Chunk] events followed by exactly one terminal event, [Done]
    or [Error], with nothing after it.  In particular, when the adapter
    reports an error, also after it has delivered fragments, the events are
    those fragments followed by one [Error] event, and no [Done]. *)
Theorem c2_chunks_then_exactly_one_terminal
        (settings : settings_outcome) (net : fetch_outcome)
        (type : message_type) (payload : RequestPayload) :
  type <> OTHER_TYPE ->
  let events := posted (handleStreamMessage_ settings net type payload) in
  (exists cs terminal, events = map Chunk cs ++ [terminal] /\ is_terminal terminal = true)
  /\ length (filter is_terminal events) = 1
  /\ (forall s a e,
         settings = SettingsRead s ->
         PROVIDERS (provider s) = Own a ->
         outcome (send_ a (stream_params a type payload s) true net) = Error e ->
         events = map Chunk (emitted (send_ a (stream_params a type payload s) true net))
                    ++ [ErrorEvent e]).
Proof.
  intros Ht events.
  destruct (stream_shape settings net type payload Ht) as (cs & terminal & Hs & Hterm).
  split; [|split].
  - exists cs, terminal. auto.
  - unfold events. rewrite Hs. apply terminal_count. assumption.
  - intros s a e -> Ha He. unfold events.
    destruct type; [| |congruence]; simpl; rewrite Ha; simpl;
      rewrite stream_run_posted; unfold after_send; rewrite He;
      destruct e as [|x e]; try reflexivity;
      exfalso; apply (send_error_nonempty _ _ _ _ He); reflexivity.
Qed.

(** An identifier that [PROVIDERS] does not resolve at all is rejected
    before any prompt is built and before any request leaves. *)
Lemma undefined_provider_fails_fast s net type payload :
  type <> OTHER_TYPE ->
  PROVIDERS (provider s) = Undefined ->
  handleStreamMessage_ (SettingsRead s) net type payload
    = [GetSettings; Post (ErrorEvent (unknown_provider (provider s)))]
  /\ forall translate,
       handleRequest_ translate (SettingsRead s) net payload
       = [GetSettings; Respond (Error (unknown_provider (provider s)))].
Proof.
  intros Ht Hu. split.
  - destruct type; [| |congruence]; simpl; rewrite Hu; reflexivity.
  - intros translate. unfold handleRequest. rewrite Hu. reflexivity.
Qed.

(** C7 at the provider identifier [constructor], which names no adapter:
    the table lookup finds the property inherited from [Object.prototype],
    so the request is not rejected as an unknown provider; the prompt is
    built and the failure reported is the one of the call of the missing
    [send].  No request leaves. *)
Theorem c7_inherited_name_is_not_rejected
        (net : fetch_outcome) (payload : RequestPayload) :
  let s := settings_for (str "constructor") in
  PROVIDERS (provider s) = Inherited
  /\ handleStreamMessage_ (SettingsRead s) net EXPLAIN_TEXT_STREAM payload
     = [GetSettings; BuildPrompt (buildUserMessage payload (language s));
        Post (ErrorEvent (str "provider.send is not a function"))]
  /\ handleRequest_ false (SettingsRead s) net payload
     = [GetSettings; BuildPrompt (buildUserMessage payload (language s));
        Respond (Error (str "provider.send is not a function"))]
  /\ str "provider.send is not a function" <> unknown_provider (provider s).
Proof.
  repeat split. vm_compute. discriminate.
Qed.

End Handlers.




Lemma c2_witness :
  EXPLAIN_TEXT_STREAM <> OTHER_TYPE
  /\ let events :=
       posted (handleStreamMessage sse_failing no_error_body no_completion chunk_plain text_plain
                 no_error_message no_message (SettingsRead (settings_for (str "openrouter")))
                 fails_midway EXPLAIN_TEXT_STREAM a_payload) in
     (exists cs terminal, events = map Chunk cs ++ [terminal] /\ is_terminal terminal = true)
     /\ length (filter is_terminal events) = 1
     /\ (forall s a e,
            SettingsRead (settings_for (str "openrouter")) = SettingsRead s ->
            PROVIDERS (provider s) = Own a ->
            outcome (send sse_failing no_error_body no_completion chunk_plain text_plain no_error_message
                          no_message a
                          (stream_params a EXPLAIN_TEXT_STREAM a_payload s) true fails_midway)
              = Error e ->
            events
            = map Chunk
                (emitted (send sse_failing no_error_body no_completion chunk_plain text_plain no_error_message
                               no_message a
                               (stream_params a EXPLAIN_TEXT_STREAM a_payload s) true
                               fails_midway))
                ++ [ErrorEvent e]).
Proof.
  split.
  - discriminate.
  - apply (c2_chunks_then_exactly_one_terminal sse_failing no_error_body no_completion chunk_plain
             text_plain no_error_message no_message
             (SettingsRead (settings_for (str "openrouter"))) fails_midway
             EXPLAIN_TEXT_STREAM a_payload).
    discriminate.
Defined.

(** The run behind the witness: one fragment, then the error. *)
Example midway_failure_events :
  posted (handleStreamMessage sse_failing no_error_body no_completion chunk_plain text_plain
            no_error_message no_message (SettingsRead (settings_for (str "openrouter")))
            fails_midway EXPLAIN_TEXT_STREAM a_payload)
  = [Chunk (str "Hel"); ErrorEvent (str "overloaded")].
Proof. vm_compute. reflexivity. Qed.

End OrchestratorFacts.

(* ===================================================================== *)
(** * Theorems: the model lists *)
(* ===================================================================== *)

Module ModelFacts.
Import JS Providers Models Samples.

Section Listing.
Variable Raw : Type.
Variable parse_models : adapter -> jsstring -> payload Raw.
Variable transform : adapter -> Raw -> option (list ModelDescriptor).

Local Abbreviation listModels_ := (listModels parse_models transform).
Local Abbreviation fetch_brings_ := (fetch_brings parse_models transform).

(** With a cache and without [forceRefresh], the cache is returned and
    nothing is fetched. *)
Lemma cache_hit a models apiKey net :
  listModels_ a (Some models) apiKey false net = Listing (Some models) models [].
Proof. destruct a; reflexivity. Qed.

(** A call that goes to the network and fails returns the fallback and
    leaves the cache as it was. *)
Lemma from_network_fails a fb cached url net :
  fetch_brings_ a net = None ->
  from_network parse_models transform a fb cached url net = Listing cached fb [url].
Proof.
  unfold fetch_brings, from_network. destruct net as [e|r]; [reflexivity|].
  destruct (resp_ok r); simpl; [|reflexivity].
  destruct (parse_models a (resp_text r)); try reflexivity.
  intros ->. reflexivity.
Qed.

Lemma from_network_brings a fb cached url net models :
  fetch_brings_ a net = Some models ->
  from_network parse_models transform a fb cached url net
  = Listing (Some models) models [url].
Proof.
  unfold fetch_brings, from_network. destruct net as [e|r]; [discriminate|].
  destruct (resp_ok r); simpl; [|discriminate].
  destruct (parse_models a (resp_text r)); try discriminate.
  intros ->. reflexivity.
Qed.

(** C8, as the code has it.  For both adapters: with a cache and without
    [forceRefresh], [listModels] returns the cache and fetches nothing, so
    that of two calls in a row the second, when not forced, fetches nothing
    as soon as the first left a cache.  A call that is forced, or finds no
    cache, fetches exactly once, except that the Gemini adapter without an
    API key returns the fallback without fetching.  When the fetch fails (a
    thrown transport error, a non-OK response, a malformed payload) the
    fallback is returned and the cache is left as it was; when it succeeds
    its descriptors are returned and cached. *)
Theorem c8_cache_hit_refresh_and_fallback (a : adapter)
        (cached : option (list ModelDescriptor)) (apiKey : jsstring) :
  (forall models net,
      cached = Some models ->
      listModels_ a cached apiKey false net = Listing cached models [])
  /\ (forall force net1 net2,
         cache_after (listModels_ a cached apiKey force net1) <> None ->
         fetched (snd (twice parse_models transform a cached apiKey force false net1 net2)) = []
         /\ length (fetched (fst (twice parse_models transform a cached apiKey
                                        force false net1 net2))
                    ++ fetched (snd (twice parse_models transform a cached apiKey
                                           force false net1 net2))) <= 1)
  /\ (forall force net,
         cached = None \/ force = true ->
         a = OpenRouterAdapter \/ apiKey <> [] ->
         fetched (listModels_ a cached apiKey force net) = [models_url a apiKey])
  /\ (forall force net,
         cached = None \/ force = true ->
         a = GeminiAdapter -> apiKey = [] ->
         listModels_ a cached apiKey force net = Listing cached (fallback a) [])
  /\ (forall force net,
         cached = None \/ force = true ->
         fetch_brings_ a net = None ->
         returned (listModels_ a cached apiKey force net) = fallback a
         /\ cache_after (listModels_ a cached apiKey force net) = cached)
  /\ (forall force net models,
         cached = None \/ force = true ->
         a = OpenRouterAdapter \/ apiKey <> [] ->
         fetch_brings_ a net = Some models ->
         listModels_ a cached apiKey force net
         = Listing (Some models) models [models_url a apiKey]).
Proof.
  assert (Hkey : forall k : jsstring, k <> [] -> is_empty k = false).
  { intros [|x k] H; [congruence | reflexivity]. }
  repeat apply conj.
  - intros models net ->. apply cache_hit.
  - intros force net1 net2 Hc. unfold twice. cbn [fst snd].
    assert (Hone : length (fetched (listModels_ a cached apiKey force net1)) <= 1).
    { unfold listModels, fetchOpenRouterModels, fetchGeminiModels, from_network.
      destruct a, cached, force, net1 as [e|r]; cbn [fetched length]; try lia;
        repeat match goal with
               | |- context [if ?b then _ else _] => destruct b
               | |- context [match ?x with _ => _ end] => destruct x
               end; cbn [fetched length]; lia. }
    destruct (cache_after (listModels_ a cached apiKey force net1)) as [models|];
      [|congruence].
    rewrite cache_hit. cbn [fetched]. rewrite app_nil_r. auto.
  - intros force net Hn Ha.
    assert (Hf : forall fb cached' url, fetched (from_network parse_models transform a fb cached' url net) = [url]).
    { intros. unfold from_network. destruct net as [e|r]; [reflexivity|].
      destruct (negb (resp_ok r)); [reflexivity|].
      destruct (parse_models a (resp_text r)); try reflexivity.
      destruct (transform a raw); reflexivity. }
    destruct a; simpl.
    + unfold fetchOpenRouterModels.
      destruct Hn as [-> | ->]; [|destruct cached]; apply Hf.
    + unfold fetchGeminiModels. destruct Ha as [Ha|Ha]; [discriminate|].
      rewrite (Hkey _ Ha).
      destruct Hn as [-> | ->]; [|destruct cached]; apply Hf.
  - intros force net Hn -> ->. simpl. unfold fetchGeminiModels. simpl.
    destruct Hn as [-> | ->]; [|destruct cached]; reflexivity.
  - intros force net Hn Hb.
    destruct a; simpl.
    + unfold fetchOpenRouterModels.
      destruct Hn as [-> | ->]; [|destruct cached];
        rewrite (from_network_fails _ _ _ _ _ Hb); auto.
    + unfold fetchGeminiModels.
      destruct (is_empty apiKey);
        destruct Hn as [-> | ->]; try destruct cached;
        try rewrite (from_network_fails _ _ _ _ _ Hb); auto.
  - intros force net models Hn Ha Hb.
    destruct a; simpl.
    + unfold fetchOpenRouterModels.
      destruct Hn as [-> | ->]; [|destruct cached];
        apply (from_network_brings _ _ _ _ _ _ Hb).
    + unfold fetchGeminiModels. destruct Ha as [Ha|Ha]; [discriminate|].
      rewrite (Hkey _ Ha).
      destruct Hn as [-> | ->]; [|destruct cached];
        apply (from_network_brings _ _ _ _ _ _ Hb).
Qed.

End Listing.

(** The cache hit, on a cache that a first call filled. *)
Lemma c8_witness :
  Some one_model = Some one_model
  /\ listModels list_models const_transform OpenRouterAdapter (Some one_model)
                (str "sk-test") false offline
     = Listing (Some one_model) one_model [].
Proof.
  split.
  - reflexivity.
  - apply (proj1 (c8_cache_hit_refresh_and_fallback unit list_models const_transform
                    OpenRouterAdapter (Some one_model) (str "sk-test"))
                 one_model offline).
    reflexivity.
Defined.

(** C8, as stated, fails twice.  A forced refresh of the Gemini list
    without an API key fetches nothing; and two calls in a row without
    [forceRefresh] both go to the network when the first one fails. *)
Lemma c8_forced_refresh_without_fetch_and_two_fetches :
  fetched (listModels no_models no_transform GeminiAdapter None [] true online) = []
  /\ (let calls := twice no_models no_transform OpenRouterAdapter None (str "sk-test")
                         false false offline offline in
      length (fetched (fst calls) ++ fetched (snd calls)) = 2).
Proof. split; vm_compute; reflexivity. Qed.

End ModelFacts.

(* ===================================================================== *)
(** * Theorems: the direction classifier refines its specification *)
(* ===================================================================== *)

Module DirectionRefinement.
Import JS Direction Vocabulary.

#[local] Arguments cmatch : simpl never.

Lemma skipn_nth {A} (s : list A) : forall i x,
  nth_error s i = Some x -> skipn i s = x :: skipn (S i) s.
Proof.
  induction s as [|y s IH]; intros [|i] x H; simpl in *; try discriminate.
  - inversion H. reflexivity.
  - apply IH. assumption.
Qed.

Lemma skipn_none {A} (s : list A) (i : nat) : nth_error s i = None -> skipn i s = [].
Proof. intros H. apply skipn_all2. apply nth_error_None. assumption. Qed.

(** ** [r.test(w)] for a one-character class *)

Lemma search_chr cs s : forall fuel i,
  length s <= i + fuel ->
  match search_from (Chr cs) s fuel i with Some _ => true | None => false end
  = existsb (cmatch cs) (skipn i s).
Proof.
  induction fuel as [|f IH]; intros i H; simpl.
  - rewrite skipn_all2 by lia. reflexivity.
  - destruct (nth_error s i) as [x|] eqn:E.
    + rewrite (skipn_nth s i x E). simpl. destruct (cmatch cs x); simpl; [reflexivity|].
      apply IH. lia.
    + rewrite (skipn_none s i E). simpl.
      rewrite IH by lia. rewrite skipn_all2; [reflexivity|].
      apply nth_error_None in E. lia.
Qed.

Lemma test_chr cs w : test (Chr cs) w = existsb (cmatch cs) w.
Proof.
  unfold test, exec. rewrite Nat.sub_0_r.
  rewrite (search_chr cs w (S (length w)) 0) by lia. reflexivity.
Qed.

(** ** The greedy run of separators *)

Lemma run_le cs l : run cs l <= length l.
Proof. induction l as [|x l IH]; simpl; [lia|]. destruct (cmatch cs x); simpl; lia. Qed.

Lemma star_chr_head cs s : forall fuel i,
  run cs (skipn i s) < fuel ->
  exists rest,
    star_loop (fun i' c' => rmatch (Chr cs) s i' (clear_caps (groups (Chr cs)) c'))
              true fuel i []
    = (i + run cs (skipn i s), []) :: rest.
Proof.
  induction fuel as [|f IH]; intros i H; [lia|].
  cbn [star_loop groups clear_caps filter].
  change (rmatch (Chr cs) s i [])
    with (match nth_error s i with
          | Some x => if cmatch cs x then [(S i, @nil (nat * (nat * nat)))] else []
          | None => []
          end).
  destruct (nth_error s i) as [x|] eqn:E.
  - rewrite (skipn_nth s i x E) in *. cbn [run] in *.
    destruct (cmatch cs x) eqn:D.
    + cbn [flat_map fst snd].
      replace (i <? S i) with true by (symmetry; apply Nat.ltb_lt; lia).
      destruct (IH (S i)) as [rest Hr]; [lia|].
      cbn [groups clear_caps filter] in Hr.
      rewrite Hr, app_nil_r. cbn [app]. eexists. f_equal. f_equal. lia.
    + cbn [flat_map app]. eexists. f_equal. f_equal. lia.
  - rewrite (skipn_none s i E). cbn [run flat_map app]. eexists. f_equal. f_equal. lia.
Qed.

Lemma delims_match s q x :
  nth_error s q = Some x -> is_delim x = true ->
  exists rest, rmatch re_delims s q [] = (q + run cDelim (skipn q s), []) :: rest.
Proof.
  intros E D. unfold re_delims, Plus.
  change (rmatch (Seq (Chr cDelim) (Star true (Chr cDelim))) s q [])
    with (flat_map (fun jc => rmatch (Star true (Chr cDelim)) s (fst jc) (snd jc))
                   (rmatch (Chr cDelim) s q [])).
  change (rmatch (Chr cDelim) s q [])
    with (match nth_error s q with
          | Some x => if cmatch cDelim x then [(S q, @nil (nat * (nat * nat)))] else []
          | None => []
          end).
  rewrite E. unfold is_delim in D. rewrite D.
  rewrite (skipn_nth s q x E). cbn [run]. rewrite D.
  cbn [flat_map fst snd].
  change (rmatch (Star true (Chr cDelim)) s (S q) [])
    with (star_loop (fun i' c' => rmatch (Chr cDelim) s i'
                                         (clear_caps (groups (Chr cDelim)) c'))
                    true (S (length s - S q)) (S q) []).
  destruct (star_chr_head cDelim s (S (length s - S q)) (S q)) as [rest Hr].
  { pose proof (run_le cDelim (skipn (S q) s)) as Hl. rewrite length_skipn in Hl. lia. }
  rewrite Hr. rewrite app_nil_r. eexists. f_equal. f_equal. lia.
Qed.

Lemma delims_no_match s q x :
  nth_error s q = Some x -> is_delim x = false -> rmatch re_delims s q [] = [].
Proof.
  intros E D. unfold re_delims, Plus.
  change (rmatch (Seq (Chr cDelim) (Star true (Chr cDelim))) s q [])
    with (flat_map (fun jc => rmatch (Star true (Chr cDelim)) s (fst jc) (snd jc))
                   (rmatch (Chr cDelim) s q [])).
  change (rmatch (Chr cDelim) s q [])
    with (match nth_error s q with
          | Some x => if cmatch cDelim x then [(S q, @nil (nat * (nat * nat)))] else []
          | None => []
          end).
  rewrite E. unfold is_delim in D. rewrite D. reflexivity.
Qed.

(** ** The pieces of the split are the words *)

Lemma words_skip_delims l : words_from [] l = words_from [] (skipn (run cDelim l) l).
Proof.
  induction l as [|x l IH]; simpl; [reflexivity|].
  unfold is_delim. destruct (cmatch cDelim x) eqn:D; simpl.
  - exact IH.
  - unfold is_delim. rewrite D. reflexivity.
Qed.

Lemma substring_snoc {A} (s : list A) p q x :
  p <= q -> nth_error s q = Some x -> substring s p (S q) = substring s p q ++ [x].
Proof.
  intros Hpq E. unfold substring.
  assert (Hs : skipn p s = firstn (q - p) (skipn p s) ++ x :: skipn (S q) s).
  { rewrite <- (skipn_nth s q x E).
    replace (skipn q s) with (skipn (q - p) (skipn p s)).
    - symmetry. apply firstn_skipn.
    - rewrite skipn_skipn. f_equal. lia. }
  rewrite Hs at 1.
  assert (Hl : length (firstn (q - p) (skipn p s)) = q - p).
  { apply firstn_length_le. rewrite length_skipn.
    assert (q < length s) by (apply nth_error_Some; congruence). lia. }
  replace (S q - p) with (length (firstn (q - p) (skipn p s)) + 1) by lia.
  rewrite firstn_app_2. reflexivity.
Qed.

Lemma substring_same {A} (s : list A) (e : nat) : substring s e e = [].
Proof. unfold substring. rewrite Nat.sub_diag. reflexivity. Qed.

Lemma nonempty_word_is_empty (w : jsstring) : nonempty_word w = negb (is_empty w).
Proof. destruct w; reflexivity. Qed.

Lemma is_empty_rev (w : jsstring) : is_empty (rev w) = is_empty w.
Proof.
  destruct w as [|x w]; [reflexivity|]. simpl.
  destruct (rev w ++ [x]) eqn:E; [|reflexivity].
  apply app_eq_nil in E. destruct E; discriminate.
Qed.

Lemma split_loop_words s : forall fuel p q,
  p <= q -> q <= length s -> length s - q < fuel ->
  filter nonempty_word (split_loop fuel re_delims s p q)
  = words_from (rev (substring s p q)) (skipn q s).
Proof.
  induction fuel as [|f IH]; intros p q Hpq Hq Hf; [lia|].
  cbn [split_loop].
  destruct (Nat.ltb q (length s)) eqn:Hlt.
  - apply Nat.ltb_lt in Hlt.
    destruct (nth_error s q) as [x|] eqn:E;
      [|apply nth_error_None in E; lia].
    rewrite (skipn_nth s q x E). cbn [words_from].
    destruct (is_delim x) eqn:D.
    + destruct (delims_match s q x E D) as [rest Hr]. rewrite Hr.
      assert (He : q + run cDelim (skipn q s) <= length s).
      { pose proof (run_le cDelim (skipn q s)) as Hl. rewrite length_skipn in Hl. lia. }
      assert (Hrun : run cDelim (skipn q s) = S (run cDelim (skipn (S q) s))).
      { rewrite (skipn_nth s q x E). simpl. unfold is_delim in D. rewrite D. reflexivity. }
      rewrite Nat.min_l by assumption.
      replace (Nat.eqb (q + run cDelim (skipn q s)) p) with false
        by (symmetry; apply Nat.eqb_neq; lia).
      cbn [filter]. rewrite IH by lia.
      rewrite substring_same. cbn [rev].
      rewrite (words_skip_delims (skipn (S q) s)).
      rewrite skipn_skipn.
      replace (run cDelim (skipn (S q) s) + S q) with (q + run cDelim (skipn q s)) by lia.
      rewrite is_empty_rev, rev_involutive, nonempty_word_is_empty.
      destruct (is_empty (substring s p q)); reflexivity.
    + rewrite (delims_no_match s q x E D).
      rewrite IH by lia.
      rewrite (substring_snoc s p q x Hpq E), rev_app_distr. reflexivity.
  - apply Nat.ltb_ge in Hlt. assert (q = length s) by lia. subst q.
    rewrite (skipn_all2 s (n := length s)) by lia. cbn [words_from filter].
    assert (Hs : substring s p (length s) = skipn p s).
    { unfold substring. apply firstn_all2. rewrite length_skipn. lia. }
    rewrite Hs, is_empty_rev, rev_involutive, nonempty_word_is_empty.
    destruct (is_empty (skipn p s)); reflexivity.
Qed.

(** The words the code counts are the words of the specification. *)
Lemma split_words (text : jsstring) :
  text <> [] ->
  filter nonempty_word (split_re re_delims text) = words_of text.
Proof.
  intros Hne. destruct text as [|x text]; [congruence|].
  unfold split_re.
  
  rewrite split_loop_words; [reflexivity | lia | lia | simpl; lia].
Qed.

(** ** Counting *)

Lemma isRTLWord_has_rtl w : isRTLWord w = has_rtl_char w.
Proof. apply test_chr. Qed.

Lemma count_words ws : forall r l,
  fold_left count_word ws (r, l) = (r + rtl_words ws, l + ltr_words ws).
Proof.
  induction ws as [|w ws IH]; intros r l.
  - unfold rtl_words, ltr_words. simpl. f_equal; lia.
  - cbn [fold_left]. unfold count_word at 2. cbn [fst snd].
    rewrite isRTLWord_has_rtl, test_chr.
    unfold rtl_words, ltr_words in *. cbn [filter].
    fold (has_latin_letter w).
    destruct (has_rtl_char w); cbn [negb andb length].
    + rewrite IH. f_equal; lia.
    + destruct (has_latin_letter w); cbn [length]; rewrite IH; f_equal; lia.
Qed.

(** The quotient exceeds one half exactly when twice the count exceeds the
    total. *)
Lemma more_than_half_spec r t :
  0 < t -> more_than_half r t = Nat.ltb t (2 * r).
Proof.
  intros Ht. unfold more_than_half.
  destruct (Nat.ltb t (2 * r)) eqn:E.
  - apply Nat.ltb_lt in E. apply negb_true_iff.
    destruct (Qle_bool _ _) eqn:Q; [|reflexivity]. exfalso.
    apply Qle_bool_iff in Q.
    apply (Qmult_le_compat_r _ _ (inject_Z (Z.of_nat t))) in Q.
    + rewrite Qmult_comm, Qmult_div_r in Q.
      * unfold Qle, Qmult, inject_Z in Q. cbn [Qnum Qden] in Q. lia.
      * unfold Qeq, inject_Z. cbn [Qnum Qden]. lia.
    + unfold Qle, inject_Z. cbn [Qnum Qden]. lia.
  - apply Nat.ltb_ge in E. apply negb_false_iff. apply Qle_bool_iff.
    apply Qle_shift_div_r.
    + unfold Qlt, inject_Z. cbn [Qnum Qden]. lia.
    + unfold Qle, Qmult, inject_Z. cbn [Qnum Qden]. lia.
Qed.

(** The code computes the direction of the specification. *)
Lemma detect_refines (text : jsstring) :
  detectTextDirection text = direction_of_words (words_of text).
Proof.
  unfold detectTextDirection, direction_of_words.
  destruct text as [|x text]; [reflexivity|]. cbn [is_empty].
  rewrite split_words by discriminate.
  set (ws := words_of (x :: text)).
  rewrite count_words. cbn [fst snd Nat.add].
  destruct (Nat.eqb (length ws) 0) eqn:El.
  - apply Nat.eqb_eq in El. destruct ws; [reflexivity | discriminate].
  - destruct (Nat.eqb (rtl_words ws + ltr_words ws) 0) eqn:Et.
    + apply Nat.eqb_eq in Et.
      replace (Nat.ltb (rtl_words ws + ltr_words ws) (2 * rtl_words ws)) with false;
        [reflexivity|]. symmetry. apply Nat.ltb_ge. lia.
    + apply Nat.eqb_neq in Et. rewrite more_than_half_spec by lia. reflexivity.
Qed.

(** C4. Every text whose words are [hello], [shalom], [shalom] (the Hebrew
    word, in Hebrew letters) is classified right-to-left: two of the three
    counted words are right-to-left.  The text [hello world] is classified
    left-to-right. *)
Theorem c4_test_vectors :
  (forall text,
      words_of text = [str "hello"; shalom; shalom] ->
      detectTextDirection text = Rtl)
  /\ rtl_words [str "hello"; shalom; shalom] = 2
  /\ ltr_words [str "hello"; shalom; shalom] = 1
  /\ words_of (str "hello world") = [str "hello"; str "world"]
  /\ detectTextDirection (str "hello world") = Ltr.
Proof.
  split.
  - intros text Hw. rewrite detect_refines, Hw. vm_compute. reflexivity.
  - repeat split; vm_compute; reflexivity.
Qed.

Lemma c4_witness :
  words_of (str "hello " ++ shalom ++ str ", " ++ shalom)
  = [str "hello"; shalom; shalom]
  /\ detectTextDirection (str "hello " ++ shalom ++ str ", " ++ shalom) = Rtl.
Proof.
  split.
  - vm_compute. reflexivity.
  - apply (proj1 c4_test_vectors). vm_compute. reflexivity.
Defined.





End DirectionRefinement.

(* ===================================================================== *)
(** * Theorems: what a match tells about the string *)
(* ===================================================================== *)

Module MatcherFacts.
Import JS Provenance.

#[local] Arguments cmatch : simpl never.

(** ** Inversion of the matcher *)

Lemma rmatch_seq r1 r2 s i c j c' :
  In (j, c') (rmatch (Seq r1 r2) s i c) ->
  exists m c1, In (m, c1) (rmatch r1 s i c) /\ In (j, c') (rmatch r2 s m c1).
Proof.
  cbn [rmatch]. intros H. apply in_flat_map in H.
  destruct H as [[m c1] [H1 H2]]. exists m, c1. auto.
Qed.

Lemma rmatch_alt r1 r2 s i c j c' :
  In (j, c') (rmatch (Alt r1 r2) s i c) ->
  In (j, c') (rmatch r1 s i c) \/ In (j, c') (rmatch r2 s i c).
Proof. cbn [rmatch]. apply in_app_or. Qed.

Lemma rmatch_group k r s i c j c' :
  In (j, c') (rmatch (Group k r) s i c) ->
  exists c1, c' = (k, (i, j)) :: c1 /\ In (j, c1) (rmatch r s i c).
Proof.
  cbn [rmatch]. intros H. apply in_map_iff in H.
  destruct H as [[j1 c1] [E H]]. cbn [fst snd] in E. inversion E; subst.
  exists c1. auto.
Qed.

Lemma rmatch_chr cs s i c j c' :
  In (j, c') (rmatch (Chr cs) s i c) ->
  j = S i /\ c' = c /\ exists x, nth_error s i = Some x /\ cmatch cs x = true.
Proof.
  cbn [rmatch]. destruct (nth_error s i) as [x|]; [|intros []].
  destruct (cmatch cs x) eqn:E; [|intros []].
  intros [H|[]]. inversion H; subst. eauto.
Qed.

Lemma rmatch_bol ml s i c j c' :
  In (j, c') (rmatch (Bol ml) s i c) -> j = i /\ c' = c.
Proof.
  cbn [rmatch]. destruct i as [|p].
  - intros [H|[]]. inversion H. auto.
  - destruct (nth_error s p) as [x|]; [|intros []].
    destruct (ml && isLineTerm x); [|intros []].
    intros [H|[]]. inversion H. auto.
Qed.

Lemma rmatch_eol ml s i c j c' :
  In (j, c') (rmatch (Eol ml) s i c) ->
  j = i /\ c' = c
  /\ match nth_error s i with
     | None => True
     | Some x => ml && isLineTerm x = true
     end.
Proof.
  cbn [rmatch]. destruct (nth_error s i) as [x|].
  - destruct (ml && isLineTerm x); [|intros []].
    intros [H|[]]. inversion H. auto.
  - destruct (Nat.eqb i (length s)); [|intros []].
    intros [H|[]]. inversion H. auto.
Qed.

Lemma star_loop_iterates step g : forall fuel i c j c',
  In (j, c') (star_loop step g fuel i c) -> iterates step i c j c'.
Proof.
  induction fuel as [|f IH]; intros i c j c' H.
  - destruct H as [H|[]]. inversion H. constructor.
  - cbn [star_loop] in H.
    assert (Hmore : In (j, c')
                       (flat_map (fun jc => if Nat.ltb i (fst jc)
                                            then star_loop step g f (fst jc) (snd jc)
                                            else []) (step i c))
                    -> iterates step i c j c').
    { intros Hm. apply in_flat_map in Hm. destruct Hm as [[q c1] [Hq Hr]].
      cbn [fst snd] in Hr. destruct (Nat.ltb i q) eqn:L; [|destruct Hr].
      apply Nat.ltb_lt in L. eapply iterates_more; eauto. }
    destruct g.
    + apply in_app_or in H. destruct H as [H|[H|[]]]; [auto|].
      inversion H. constructor.
    + destruct H as [H|H]; [|auto]. inversion H. constructor.
Qed.

Lemma rmatch_star g r s i c j c' :
  In (j, c') (rmatch (Star g r) s i c) -> iterates (body r s) i c j c'.
Proof. cbn [rmatch]. apply star_loop_iterates. Qed.

Lemma iterates_le step i c j c' : iterates step i c j c' -> i <= j.
Proof. induction 1; lia. Qed.

(** ** The first and the last character of a match *)

Lemma first_sound r : forall s i c j c',
  In (j, c') (rmatch r s i c) ->
  i <= j
  /\ (i < j -> exists x, nth_error s i = Some x /\ firstc r x = true)
  /\ (nullable r = false -> i < j).
Proof.
  induction r as [|cs|r1 IH1 r2 IH2|r1 IH1 r2 IH2|g r1 IH1|k r1 IH1|ml|ml];
    intros s i c j c' H; cbn [firstc nullable].
  - destruct H as [H|[]]. inversion H; subst.
    repeat split; [lia | lia | discriminate].
  - apply rmatch_chr in H. destruct H as (-> & -> & x & Hx & Hc).
    repeat split; [lia | eauto | lia].
  - apply rmatch_seq in H. destruct H as (m & c1 & H1 & H2).
    destruct (IH1 _ _ _ _ _ H1) as (L1 & F1 & N1).
    destruct (IH2 _ _ _ _ _ H2) as (L2 & F2 & N2).
    repeat split; [lia | |].
    + intros Hij. destruct (Nat.eq_dec i m) as [->|Hne].
      * destruct (F2 Hij) as (x & Hx & Hf). exists x. split; [assumption|].
        destruct (nullable r1) eqn:E; [|specialize (N1 eq_refl); lia].
        rewrite Hf. apply orb_true_r.
      * destruct F1 as (x & Hx & Hf); [lia|]. exists x. rewrite Hf. auto.
    + intros Hn. apply andb_false_iff in Hn. destruct Hn as [Hn|Hn].
      * specialize (N1 Hn). lia.
      * specialize (N2 Hn). lia.
  - apply rmatch_alt in H. destruct H as [H|H].
    + destruct (IH1 _ _ _ _ _ H) as (L1 & F1 & N1). repeat split; [lia | |].
      * intros Hij. destruct (F1 Hij) as (x & Hx & Hf). exists x. rewrite Hf. auto.
      * intros Hn. apply orb_false_iff in Hn. apply N1. tauto.
    + destruct (IH2 _ _ _ _ _ H) as (L1 & F1 & N1). repeat split; [lia | |].
      * intros Hij. destruct (F1 Hij) as (x & Hx & Hf). exists x. rewrite Hf.
        split; [assumption | apply orb_true_r].
      * intros Hn. apply orb_false_iff in Hn. apply N1. tauto.
  - apply rmatch_star in H.
    repeat split; [eapply iterates_le; eauto | | discriminate].
    intros Hij. destruct H as [|i c q c1 j c' Hq Hlt Hrest]; [lia|].
    destruct (IH1 _ _ _ _ _ Hq) as (_ & F1 & _). auto.
  - apply rmatch_group in H. destruct H as (c1 & -> & H). eauto.
  - apply rmatch_bol in H. destruct H as [-> ->].
    repeat split; [lia | lia | discriminate].
  - apply rmatch_eol in H. destruct H as (-> & -> & _).
    repeat split; [lia | lia | discriminate].
Qed.

Lemma last_sound r : forall s i c j c',
  In (j, c') (rmatch r s i c) -> i < j ->
  exists x, nth_error s (j - 1) = Some x /\ lastc r x = true.
Proof.
  induction r as [|cs|r1 IH1 r2 IH2|r1 IH1 r2 IH2|g r1 IH1|k r1 IH1|ml|ml];
    intros s i c j c' H Hij; cbn [lastc].
  - destruct H as [H|[]]. inversion H; subst. lia.
  - apply rmatch_chr in H. destruct H as (-> & -> & x & Hx & Hc).
    exists x. replace (S i - 1) with i by lia. auto.
  - apply rmatch_seq in H. destruct H as (m & c1 & H1 & H2).
    destruct (first_sound _ _ _ _ _ _ H1) as (L1 & _ & _).
    destruct (first_sound _ _ _ _ _ _ H2) as (L2 & _ & N2).
    destruct (Nat.eq_dec m j) as [->|Hne].
    + destruct (IH1 _ _ _ _ _ H1 Hij) as (x & Hx & Hl). exists x.
      split; [assumption|].
      destruct (nullable r2) eqn:E; [|specialize (N2 eq_refl); lia].
      rewrite Hl. apply orb_true_r.
    + destruct (IH2 _ _ _ _ _ H2) as (x & Hx & Hl); [lia|]. exists x.
      rewrite Hl. auto.
  - apply rmatch_alt in H. destruct H as [H|H].
    + destruct (IH1 _ _ _ _ _ H Hij) as (x & Hx & Hl). exists x. rewrite Hl. auto.
    + destruct (IH2 _ _ _ _ _ H Hij) as (x & Hx & Hl). exists x. rewrite Hl.
      split; [assumption | apply orb_true_r].
  - apply rmatch_star in H. induction H as [|i c q c1 j c' Hq Hlt Hrest IH]; [lia|].
    pose proof (iterates_le _ _ _ _ _ Hrest) as Hle.
    destruct (Nat.eq_dec q j) as [->|Hne].
    + apply (IH1 _ _ _ _ _ Hq Hlt).
    + apply IH. lia.
  - apply rmatch_group in H. destruct H as (c1 & -> & H). eauto.
  - apply rmatch_bol in H. destruct H as [-> ->]. lia.
  - apply rmatch_eol in H. destruct H as (-> & -> & _). lia.
Qed.

(** ** The fuel of the loops is never exhausted *)

Lemma rmatch_bound r : forall s i c j c',
  In (j, c') (rmatch r s i c) -> j <= Nat.max i (length s).
Proof.
  induction r as [|cs|r1 IH1 r2 IH2|r1 IH1 r2 IH2|g r1 IH1|k r1 IH1|ml|ml];
    intros s i c j c' H.
  - destruct H as [H|[]]. inversion H; subst. lia.
  - apply rmatch_chr in H. destruct H as (-> & -> & x & Hx & _).
    assert (i < length s) by (apply nth_error_Some; congruence). lia.
  - apply rmatch_seq in H. destruct H as (m & c1 & H1 & H2).
    specialize (IH1 _ _ _ _ _ H1). specialize (IH2 _ _ _ _ _ H2). lia.
  - apply rmatch_alt in H. destruct H as [H|H]; eauto.
  - apply rmatch_star in H.
    induction H as [|i c q c1 j c' Hq Hlt Hrest IH]; [lia|].
    specialize (IH1 _ _ _ _ _ Hq). lia.
  - apply rmatch_group in H. destruct H as (c1 & -> & H). eauto.
  - apply rmatch_bol in H. destruct H as [-> ->]. lia.
  - apply rmatch_eol in H. destruct H as (-> & -> & _). lia.
Qed.

Lemma flat_map_agree {A B} (f g : A -> list B) (l : list A) :
  (forall a, In a l -> f a = g a) -> flat_map f l = flat_map g l.
Proof.
  induction l as [|a l IH]; intros H; cbn [flat_map]; [reflexivity|].
  rewrite (H a (or_introl eq_refl)), IH; [reflexivity|].
  intros b Hb. apply H. right. assumption.
Qed.

(** Any fuel above the number of characters left gives the same matches. *)
Lemma star_loop_fuel r s g : forall fuel1 fuel2 i c,
  length s - i < fuel1 -> length s - i < fuel2 ->
  star_loop (body r s) g fuel1 i c = star_loop (body r s) g fuel2 i c.
Proof.
  induction fuel1 as [|f1 IH]; intros fuel2 i c H1 H2; [lia|].
  destruct fuel2 as [|f2]; [lia|]. cbn [star_loop].
  rewrite (flat_map_agree
             (fun jc => if Nat.ltb i (fst jc)
                        then star_loop (body r s) g f1 (fst jc) (snd jc) else [])
             (fun jc => if Nat.ltb i (fst jc)
                        then star_loop (body r s) g f2 (fst jc) (snd jc) else []));
    [reflexivity|].
  intros [q c1] Hq. cbn [fst snd]. destruct (Nat.ltb i q) eqn:L; [|reflexivity].
  apply Nat.ltb_lt in L. pose proof (rmatch_bound _ _ _ _ _ _ Hq) as Hb.
  apply IH; lia.
Qed.

Lemma search_range r s : forall fuel i m,
  search_from r s fuel i = Some m -> i <= m_start m /\ m_start m < i + fuel.
Proof.
  induction fuel as [|f IH]; intros i m; cbn [search_from]; [discriminate|].
  destruct (rmatch r s i []) as [|[j c] rest].
  - intros H. apply IH in H. lia.
  - intros H. inversion H; subst. cbn [m_start]. lia.
Qed.

Lemma exec_range r s i m :
  exec r s i = Some m -> i <= m_start m /\ m_start m <= length s.
Proof. unfold exec. intros H. apply search_range in H. lia. Qed.

Lemma exec_beyond r s i : length s < i -> exec r s i = None.
Proof.
  intros H. unfold exec. replace (S (length s) - i) with 0 by lia. reflexivity.
Qed.

(** ** What is known where a match starts *)

Lemma iterates_starts (r : regex) (after : known) s q c1 j c' :
  iterates (body r s) q c1 j c' ->
  after (nth_error s j) = true ->
  after (nth_error s q)
  || match nth_error s q with Some x => firstc r x | None => false end = true.
Proof.
  intros H Ha. destruct H as [|i c q c1 j c' Hq Hlt Hrest].
  - rewrite Ha. reflexivity.
  - destruct (first_sound _ _ _ _ _ _ Hq) as (_ & F & _).
    destruct (F Hlt) as (x & Hx & Hf). rewrite Hx, Hf. apply orb_true_r.
Qed.

Lemma peek_sound r : forall (after : known) s i c j c',
  In (j, c') (rmatch r s i c) ->
  after (nth_error s j) = true ->
  peek r after (nth_error s i) = true.
Proof.
  induction r as [|cs|r1 IH1 r2 IH2|r1 IH1 r2 IH2|g r1 IH1|k r1 IH1|ml|ml];
    intros after s i c j c' H Ha; cbn [peek].
  - destruct H as [H|[]]. inversion H; subst. assumption.
  - apply rmatch_chr in H. destruct H as (-> & -> & x & Hx & Hc).
    rewrite Hx. assumption.
  - apply rmatch_seq in H. destruct H as (m & c1 & H1 & H2).
    eapply IH1; eauto.
  - apply rmatch_alt in H. apply orb_true_iff. destruct H as [H|H]; eauto.
  - apply rmatch_star in H. eapply iterates_starts; eauto.
  - apply rmatch_group in H. destruct H as (c1 & -> & H). eauto.
  - apply rmatch_bol in H. destruct H as [-> ->]. assumption.
  - apply rmatch_eol in H. destruct H as (-> & -> & Hx).
    rewrite Ha. destruct (nth_error s i); auto.
Qed.

(** ** The captures end at harmless cuts *)

Lemma cap_get_cleared k ks c :
  existsb (Nat.eqb k) ks = true -> cap_get k (clear_caps ks c) = None.
Proof.
  intros Hk. unfold clear_caps.
  induction c as [|[k' se'] c IH]; cbn [filter cap_get fst]; [reflexivity|].
  destruct (negb (existsb (Nat.eqb k') ks)) eqn:E; cbn [cap_get]; [|assumption].
  destruct (Nat.eqb k k') eqn:Ek; [|assumption].
  apply Nat.eqb_eq in Ek. subst k'. rewrite Hk in E. discriminate.
Qed.

Lemma cap_get_clear k ks c se :
  cap_get k (clear_caps ks c) = Some se -> cap_get k c = Some se.
Proof.
  destruct (existsb (Nat.eqb k) ks) eqn:Hk.
  - rewrite (cap_get_cleared k ks c Hk). discriminate.
  - unfold clear_caps.
    induction c as [|[k' se'] c IH]; cbn [filter cap_get fst]; [discriminate|].
    destruct (negb (existsb (Nat.eqb k') ks)) eqn:E; cbn [cap_get].
    + destruct (Nat.eqb k k'); auto.
    + destruct (Nat.eqb k k') eqn:Ek; [|assumption].
      apply Nat.eqb_eq in Ek. subst k'. rewrite Hk in E. discriminate.
Qed.

Lemma caps_safe_clear k s ks c : caps_safe k s c -> caps_safe k s (clear_caps ks c).
Proof.
  intros H a b Hab. apply (H a b). apply (cap_get_clear k ks c). assumption.
Qed.

Lemma not_listed (P : jschar -> bool) (l : jsstring) (y : jschar) :
  forallb (fun x => negb (P x)) l = true -> P y = true -> existsb (N.eqb y) l = false.
Proof.
  intros Hall Hy. induction l as [|x l IH]; [reflexivity|].
  cbn [forallb existsb] in *. apply andb_true_iff in Hall. destruct Hall as [Hx Hl].
  rewrite (IH Hl), orb_false_r.
  destruct (N.eqb y x) eqn:E; [|reflexivity].
  apply N.eqb_eq in E. subst. rewrite Hy in Hx. discriminate.
Qed.

Lemma cut_ok_after (after : known) s j :
  stops_entity after = true -> after (nth_error s j) = true -> cut_ok s j = true.
Proof.
  intros Hs Ha. unfold cut_ok. destruct j as [|b]; [reflexivity|].
  destruct (nth_error s (S b)) as [x|]; [|reflexivity].
  unfold is_post.
  rewrite (not_listed (fun x => after (Some x)) post_chars x Hs Ha). reflexivity.
Qed.

Lemma cut_ok_last r s i c j c' :
  ends_entity r = true -> In (j, c') (rmatch r s i c) -> cut_ok s j = true.
Proof.
  intros He H. unfold ends_entity in He. apply andb_true_iff in He.
  destruct He as [Hn Hl]. apply negb_true_iff in Hn.
  destruct (first_sound _ _ _ _ _ _ H) as (_ & _ & N).
  specialize (N Hn).
  destruct (last_sound _ _ _ _ _ _ H N) as (y & Hy & Hlast).
  unfold cut_ok. destruct j as [|b]; [reflexivity|].
  destruct (nth_error s (S b)) as [x|]; [|reflexivity].
  replace (S b - 1) with b in Hy by lia. rewrite Hy.
  unfold is_pre. rewrite (not_listed (lastc r) pre_chars y Hl Hlast).
  apply orb_true_r.
Qed.

Lemma cut_ok_first r s i c j c' :
  nullable r = false ->
  forallb (fun x => negb (firstc r x)) post_chars = true ->
  In (j, c') (rmatch r s i c) -> cut_ok s i = true.
Proof.
  intros Hn Hf H.
  destruct (first_sound _ _ _ _ _ _ H) as (_ & F & N).
  destruct (F (N Hn)) as (x & Hx & Hfx).
  unfold cut_ok. destruct i as [|b]; [reflexivity|]. rewrite Hx.
  unfold is_post. rewrite (not_listed (firstc r) post_chars x Hf Hfx). reflexivity.
Qed.

Lemma group_safe_sound k s r : forall (after : known) i c j c',
  In (j, c') (rmatch r s i c) ->
  after (nth_error s j) = true ->
  group_safe k r after = true ->
  caps_safe k s c -> caps_safe k s c'.
Proof.
  induction r as [|cs|r1 IH1 r2 IH2|r1 IH1 r2 IH2|g r1 IH1|k' r1 IH1|ml|ml];
    intros after i c j c' H Ha Hg Hc; cbn [group_safe] in Hg.
  - destruct H as [H|[]]. inversion H; subst. assumption.
  - apply rmatch_chr in H. destruct H as (-> & -> & _). assumption.
  - apply rmatch_seq in H. destruct H as (m & c1 & H1 & H2).
    apply andb_true_iff in Hg. destruct Hg as [Hg1 Hg2].
    eapply IH2; eauto. eapply IH1; eauto. eapply peek_sound; eauto.
  - apply rmatch_alt in H. apply andb_true_iff in Hg. destruct Hg as [Hg1 Hg2].
    destruct H as [H|H]; eauto.
  - apply rmatch_star in H.
    induction H as [|i c q c1 j c' Hq Hlt Hrest IH]; [assumption|].
    apply IH; [assumption|].
    eapply IH1; [exact Hq | | exact Hg | apply caps_safe_clear; exact Hc].
    cbv beta. eapply iterates_starts; eauto.
  - apply rmatch_group in H. destruct H as (c1 & -> & H).
    apply andb_true_iff in Hg. destruct Hg as [Hg1 Hg2].
    pose proof (IH1 _ _ _ _ _ H Ha Hg1 Hc) as Hc1.
    intros a b. cbn [cap_get]. destruct (Nat.eqb k k') eqn:E; [|apply Hc1].
    intros Hab. inversion Hab; subst. cbn [negb orb] in Hg2.
    apply orb_true_iff in Hg2. destruct Hg2 as [Hs|He].
    + eapply cut_ok_after; eauto.
    + eapply cut_ok_last; eauto.
  - apply rmatch_bol in H. destruct H as [-> ->]. assumption.
  - apply rmatch_eol in H. destruct H as (-> & -> & _). assumption.
Qed.

(** ** What the static check of a replacement guarantees *)

Lemma search_sound r s : forall fuel i m,
  search_from r s fuel i = Some m ->
  In (m_end m, m_caps m) (rmatch r s (m_start m) []).
Proof.
  induction fuel as [|f IH]; intros i m; cbn [search_from]; [discriminate|].
  destruct (rmatch r s i []) as [|[j c] rest] eqn:E.
  - apply IH.
  - intros H. inversion H; subst. cbn [m_end m_caps m_start]. rewrite E. left.
    reflexivity.
Qed.

Lemma exec_sound r s i m :
  exec r s i = Some m -> In (m_end m, m_caps m) (rmatch r s (m_start m) []).
Proof. unfold exec. apply search_sound. Qed.

(** Any fuel above the number of positions left gives the same
    replacement. *)
Lemma replace_loop_fuel {A} (code : A -> jschar) r (s : list A) f :
  forall fuel1 fuel2 pos prev,
    S (length s) - pos < fuel1 -> S (length s) - pos < fuel2 ->
    replace_loop code fuel1 r s f pos prev = replace_loop code fuel2 r s f pos prev.
Proof.
  induction fuel1 as [|f1 IH]; intros fuel2 pos prev H1 H2; [lia|].
  destruct fuel2 as [|f2]; [lia|]. cbn [replace_loop].
  destruct (exec r (codes code s) pos) as [m|] eqn:E; [|reflexivity].
  pose proof (exec_range _ _ _ _ E) as [Hlo Hhi].
  pose proof (exec_sound _ _ _ _ E) as Hm.
  destruct (first_sound _ _ _ _ _ _ Hm) as (Hle & _ & _).
  unfold codes in Hhi. rewrite length_map in Hhi.
  f_equal. f_equal.
  apply IH; destruct (Nat.eqb (m_end m) (m_start m)) eqn:Ee;
    first [apply Nat.eqb_eq in Ee | apply Nat.eqb_neq in Ee]; lia.
Qed.

Lemma match_ok_sound r used whole s i m :
  match_ok r used whole = true ->
  exec r s i = Some m ->
  cut_ok s (m_start m) = true
  /\ (forall k, In k used -> caps_safe k s (m_caps m))
  /\ (whole = true -> cut_ok s (m_end m) = true).
Proof.
  unfold match_ok. intros Hok He.
  apply andb_true_iff in Hok. destruct Hok as [Hok Hw].
  apply andb_true_iff in Hok. destruct Hok as [Hok Hu].
  apply andb_true_iff in Hok. destruct Hok as [Hn Hf].
  apply negb_true_iff in Hn.
  pose proof (exec_sound _ _ _ _ He) as H.
  repeat split.
  - eapply cut_ok_first; eauto.
  - intros k Hk. rewrite forallb_forall in Hu. specialize (Hu k Hk).
    eapply (group_safe_sound k s r anything); eauto.
    intros a b Hab. discriminate.
  - intros ->. cbn [negb orb] in Hw. eapply cut_ok_last; eauto.
Qed.

End MatcherFacts.

(* ===================================================================== *)
(** * Theorems: entities survive the rendering *)
(* ===================================================================== *)

Module RenderFacts.
Import JS Markdown Provenance MatcherFacts.

#[local] Arguments cmatch : simpl never.

Local Abbreviation lit := (fun c : jschar => (c, FromRenderer)).

(** ** Cutting intact strings *)

Lemma intact_app a b : intact a -> intact b -> intact (a ++ b).
Proof.
  intros Ha Hb. induction Ha as [|x s Hx Hs IH|e s He Hs IH]; cbn [app].
  - assumption.
  - constructor; assumption.
  - rewrite <- app_assoc. constructor; assumption.
Qed.

Lemma entity_cases (P : jsstring -> Prop) :
  P (str "&amp;") -> P (str "&nbsp;") -> P (str "&lt;") -> P (str "&gt;") ->
  forall e, In e entities -> P e.
Proof.
  intros H1 H2 H3 H4 e He. unfold entities in He. cbn [In] in He.
  destruct He as [<-|[<-|[<-|[<-|[]]]]]; assumption.
Qed.

Ltac not_amp := cbn; discriminate.

(** A string that starts inside an entity is intact: what is left of the
    entity has no [&]. *)
Lemma entity_tail e : In e entities ->
  forall n s, 0 < n -> intact s -> intact (skipn n (from_escape e) ++ s).
Proof.
  revert e.
  apply (entity_cases (fun e => forall n s, 0 < n -> intact s ->
                                 intact (skipn n (from_escape e) ++ s)));
    intros n s Hn Hs;
    do 7 (destruct n as [|n]; [try lia; cbn; repeat (constructor; [not_amp|]); exact Hs|]);
    cbn; exact Hs.
Qed.

Lemma intact_skipn s : intact s -> forall a, intact (skipn a s).
Proof.
  induction 1 as [|x s Hx Hs IH|e s He Hs IH]; intros a.
  - destruct a; constructor.
  - destruct a; cbn [skipn]; [constructor; assumption | apply IH].
  - rewrite skipn_app. destruct a as [|a].
    + cbn [skipn Nat.sub]. constructor; assumption.
    + apply entity_tail; [assumption | lia | apply IH].
Qed.

Lemma cut_ok_tail x cs b : cut_ok (x :: cs) (S b) = true -> cut_ok cs b = true.
Proof.
  unfold cut_ok. cbn [nth_error]. destruct b as [|b]; [reflexivity|].
  cbn [nth_error]. auto.
Qed.

Lemma cut_ok_skip l : forall cs b,
  cut_ok (l ++ cs) (length l + b) = true -> cut_ok cs b = true.
Proof.
  induction l as [|x l IH]; intros cs b H; [exact H|].
  apply IH. eapply cut_ok_tail. exact H.
Qed.

Lemma codes_from_escape e : map fst (from_escape e) = e.
Proof.
  unfold from_escape. rewrite map_map. cbn [fst]. apply map_id.
Qed.

(** No harmless cut falls inside an entity. *)
Lemma entity_uncut e : In e entities ->
  forall cs b, 0 < b -> b < length e -> cut_ok (e ++ cs) b = false.
Proof.
  revert e.
  apply (entity_cases (fun e => forall cs b, 0 < b -> b < length e ->
                                 cut_ok (e ++ cs) b = false));
    intros cs b H0 Hb;
    do 7 (destruct b as [|b]; [try (cbn in Hb; lia); try reflexivity|]);
    cbn in Hb; lia.
Qed.

Lemma intact_firstn s : intact s ->
  forall b, cut_ok (map fst s) b = true -> intact (firstn b s).
Proof.
  induction 1 as [|x s Hx Hs IH|e s He Hs IH]; intros b Hb.
  - destruct b; constructor.
  - destruct b as [|b]; cbn [firstn]; [constructor|].
    constructor; [assumption|]. apply IH. eapply cut_ok_tail. exact Hb.
  - rewrite map_app, codes_from_escape in Hb.
    assert (Hlen : length (from_escape e) = length e)
      by (unfold from_escape; apply length_map).
    rewrite firstn_app, Hlen.
    destruct (Nat.eq_dec b 0) as [->|Hb0]; [constructor|].
    destruct (Nat.lt_ge_cases b (length e)) as [Hlt|Hge].
    + exfalso. apply (eq_true_false_abs _ Hb).
      apply (entity_uncut e He); lia.
    + rewrite firstn_all2 by lia. constructor; [assumption|].
      apply IH. apply (cut_ok_skip e).
      replace (length e + (b - length e)) with b by lia. exact Hb.
Qed.

Lemma intact_substring s a b :
  intact s -> cut_ok (map fst s) b = true -> intact (substring s a b).
Proof.
  intros Hs Hb. unfold substring.
  destruct (Nat.le_gt_cases b a) as [Hle|Hgt].
  - replace (b - a) with 0 by lia. constructor.
  - destruct (Nat.le_gt_cases (length s) a) as [Hla|Hla].
    + rewrite skipn_all2 by assumption. rewrite firstn_nil. constructor.
    + apply intact_firstn; [apply intact_skipn; assumption|].
      rewrite <- skipn_map.
      rewrite <- (firstn_skipn a (map fst s)) in Hb.
      apply (cut_ok_skip (firstn a (map fst s))).
      assert (Hl : length (firstn a (map fst s)) = a).
      { apply firstn_length_le. rewrite length_map. lia. }
      rewrite Hl. replace (a + (b - a)) with b by lia. exact Hb.
Qed.

(** ** The replacements *)

Lemma intact_lits (l : jsstring) :
  existsb (N.eqb (ch "&")) l = false -> intact (map lit l).
Proof.
  induction l as [|x l IH]; cbn [existsb map]; intros H; [constructor|].
  apply orb_false_iff in H. destruct H as [Hx Hl].
  constructor; [|auto]. cbn [fst]. intros E. subst. rewrite N.eqb_refl in Hx.
  discriminate.
Qed.

Lemma expand_intact t s m :
  intact s ->
  writes_no_amp t = true ->
  (forall k, In k (used_groups t) -> caps_safe k (map fst s) (m_caps m)) ->
  (uses_whole t = true -> cut_ok (map fst s) (m_end m) = true) ->
  intact (expand lit t s m).
Proof.
  intros Hs. unfold expand.
  induction t as [|item t IH]; intros Hw Hu Hwh; cbn [flat_map]; [constructor|].
  destruct item as [l|k|]; cbn [writes_no_amp used_groups uses_whole] in *.
  - apply andb_true_iff in Hw. destruct Hw as [Hl Hw].
    apply negb_true_iff in Hl.
    apply intact_app; [apply intact_lits; assumption | auto].
  - apply intact_app; [|apply IH; auto; intros k' Hk'; apply Hu; right; assumption].
    cbn [expand_item]. unfold group_text.
    destruct (cap_get k (m_caps m)) as [[a b]|] eqn:E; [|constructor].
    apply intact_substring; [assumption|].
    apply (Hu k (or_introl eq_refl) a b E).
  - apply intact_app.
    + cbn [expand_item]. unfold whole_text.
      apply intact_substring; [assumption | auto].
    + destruct (uses_whole t) eqn:E; apply IH; auto; discriminate.
Qed.

Lemma replace_loop_intact r s (f : list tchar -> mres -> list tchar) :
  intact s ->
  (forall pos m, exec r (map fst s) pos = Some m ->
                 cut_ok (map fst s) (m_start m) = true /\ intact (f s m)) ->
  forall fuel pos prev, intact (replace_loop fst fuel r s f pos prev).
Proof.
  intros Hs Hf. induction fuel as [|fuel IH]; intros pos prev; cbn [replace_loop].
  - apply intact_skipn. assumption.
  - unfold codes. destruct (exec r (map fst s) pos) as [m|] eqn:E.
    + destruct (Hf pos m E) as [Hc Hi].
      apply intact_app; [apply intact_substring; assumption|].
      apply intact_app; [assumption | apply IH].
    + apply intact_skipn. assumption.
Qed.

Lemma replace_fn_intact r used whole (f : list tchar -> mres -> list tchar) :
  match_ok r used whole = true ->
  (forall s m,
      intact s ->
      (forall k, In k used -> caps_safe k (map fst s) (m_caps m)) ->
      (whole = true -> cut_ok (map fst s) (m_end m) = true) ->
      intact (f s m)) ->
  forall s, intact s -> intact (replace_fn fst r f s).
Proof.
  intros Hok Hf s Hs. unfold replace_fn. apply replace_loop_intact; [assumption|].
  intros pos m E.
  destruct (match_ok_sound r used whole (map fst s) pos m Hok E) as (H1 & H2 & H3).
  split; [assumption | apply Hf; assumption].
Qed.

Lemma replace_all_intact r t :
  match_ok r (used_groups t) (uses_whole t) = true ->
  writes_no_amp t = true ->
  forall s, intact s -> intact (replace_all fst lit r t s).
Proof.
  intros Hok Hw s Hs. unfold replace_all.
  apply (replace_fn_intact r (used_groups t) (uses_whole t)); [assumption | | assumption].
  intros s' m Hs' Hu Hwh. apply expand_intact; assumption.
Qed.

(** ** [escapeHtml] writes whole entities *)

Lemma escapeHtmlT_intact text : intact (escapeHtmlT text).
Proof.
  unfold escapeHtmlT. induction text as [|c text IH]; cbn [flat_map]; [constructor|].
  unfold escape_charT.
  destruct (N.eqb c (ch "&")) eqn:E1;
    [apply (@intact_entity (str "&amp;")); [cbn; auto | assumption]|].
  destruct (N.eqb c 160) eqn:E2;
    [apply (@intact_entity (str "&nbsp;")); [cbn; auto | assumption]|].
  destruct (N.eqb c (ch "<")) eqn:E3;
    [apply (@intact_entity (str "&lt;")); [cbn; auto | assumption]|].
  destruct (N.eqb c (ch ">")) eqn:E4;
    [apply (@intact_entity (str "&gt;")); [cbn; auto 6 | assumption]|].
  cbn [app]. constructor; [|assumption].
  cbn [fst]. apply N.eqb_neq. assumption.
Qed.

(** ** [trim] and [split] *)

Lemma trimStart_skipn (s : list tchar) : exists n, trimStart fst s = skipn n s.
Proof.
  induction s as [|a s [n IH]]; [exists 0; reflexivity|].
  cbn [trimStart]. destruct (isSpace (fst a)).
  - exists (S n). exact IH.
  - exists 0. reflexivity.
Qed.

Lemma trimEnd_snoc (s : list tchar) (x : tchar) :
  trimEnd fst (s ++ [x]) = if isSpace (fst x) then trimEnd fst s else s ++ [x].
Proof.
  unfold trimEnd. rewrite rev_app_distr. cbn [rev app trimStart].
  destruct (isSpace (fst x)); [reflexivity|].
  cbn [rev]. rewrite rev_involutive. reflexivity.
Qed.

Lemma trimEnd_firstn (s : list tchar) :
  exists b, trimEnd fst s = firstn b s
            /\ b <= length s
            /\ (b < length s ->
                exists x, nth_error s b = Some x /\ isSpace (fst x) = true).
Proof.
  induction s as [|x s IH] using rev_ind.
  - exists 0. repeat split; [cbn; lia | cbn; lia].
  - rewrite trimEnd_snoc. destruct (isSpace (fst x)) eqn:E.
    + destruct IH as (b & Hb & Hle & Hsp). exists b.
      rewrite length_app. cbn [length]. repeat split; [|lia|].
      * rewrite firstn_app. replace (b - length s) with 0 by lia.
        cbn [firstn]. rewrite app_nil_r. assumption.
      * intros _. destruct (Nat.eq_dec b (length s)) as [->|Hne].
        -- exists x. rewrite nth_error_app2 by lia. rewrite Nat.sub_diag. auto.
        -- destruct Hsp as (y & Hy & Hs); [lia|]. exists y.
           rewrite nth_error_app1 by lia. auto.
    + exists (length (s ++ [x])). repeat split; [|lia|lia].
      symmetry. apply firstn_all.
Qed.

Lemma space_stops_entity c : isSpace c = true -> is_post c = false.
Proof.
  intros Hs. destruct (is_post c) eqn:E; [|reflexivity].
  unfold is_post, post_chars in E. cbn [str map list_ascii_of_string existsb] in E.
  repeat (apply orb_true_iff in E; destruct E as [E|E];
          [apply N.eqb_eq in E; subst; vm_compute in Hs; discriminate|]).
  discriminate.
Qed.

Lemma trim_intact s : intact s -> intact (trim fst s).
Proof.
  intros Hs. unfold trim.
  destruct (trimStart_skipn s) as [n Hn]. rewrite Hn.
  assert (Hk : intact (skipn n s)) by (apply intact_skipn; assumption).
  destruct (trimEnd_firstn (skipn n s)) as (b & Hb & Hle & Hsp). rewrite Hb.
  apply intact_firstn; [assumption|].
  unfold cut_ok. destruct b as [|b]; [reflexivity|].
  destruct (nth_error (map fst (skipn n s)) (S b)) as [c|] eqn:E; [|reflexivity].
  rewrite nth_error_map in E.
  destruct (nth_error (skipn n s) (S b)) as [x|] eqn:Ex; [|discriminate].
  cbn [option_map] in E. inversion E; subst.
  destruct Hsp as (y & Hy & Hspace).
  { apply nth_error_Some. congruence. }
  assert (x = y) by congruence. subst.
  rewrite (space_stops_entity _ Hspace). reflexivity.
Qed.

Lemma split_char_cons c (s : list tchar) : exists w ws, split_char fst c s = w :: ws.
Proof.
  induction s as [|a s (w & ws & IH)]; cbn [split_char]; [eauto|].
  destruct (N.eqb (fst a) c); [eauto|]. rewrite IH. eauto.
Qed.

Lemma split_char_prefix c (l : list tchar) : forall s w ws,
  Forall (fun a => N.eqb (fst a) c = false) l ->
  split_char fst c s = w :: ws ->
  split_char fst c (l ++ s) = (l ++ w) :: ws.
Proof.
  induction l as [|a l IH]; intros s w ws Hl Hs; [exact Hs|].
  inversion Hl; subst. cbn [app split_char].
  rewrite H1. rewrite (IH s w ws H2 Hs). reflexivity.
Qed.

Lemma entity_has_no (c : jschar) :
  existsb (N.eqb c) entity_chars = false ->
  forall e, In e entities -> Forall (fun a => N.eqb (fst a) c = false) (from_escape e).
Proof.
  intros Hc.
  assert (Hin : forall x, In x entity_chars -> N.eqb x c = false).
  { intros x Hx. destruct (N.eqb x c) eqn:E; [|reflexivity].
    apply N.eqb_eq in E. subst.
    assert (existsb (N.eqb c) entity_chars = true); [|congruence].
    apply existsb_exists. exists c. split; [assumption | apply N.eqb_refl]. }
  apply (entity_cases (fun e => Forall (fun a => N.eqb (fst a) c = false) (from_escape e)));
    cbn; repeat constructor; cbn [fst]; apply Hin; cbn; tauto.
Qed.

Lemma split_char_intact c s :
  existsb (N.eqb c) entity_chars = false ->
  intact s -> Forall intact (split_char fst c s).
Proof.
  intros Hc. induction 1 as [|x s Hx Hs IH|e s He Hs IH].
  - repeat constructor.
  - cbn [split_char]. destruct (N.eqb (fst x) c).
    + constructor; [constructor | assumption].
    + destruct (split_char fst c s) as [|w ws].
      * repeat constructor. assumption.
      * inversion IH; subst. constructor; [constructor|]; assumption.
  - destruct (split_char_cons c s) as (w & ws & Hw). rewrite Hw in IH.
    rewrite (split_char_prefix c (from_escape e) s w ws (entity_has_no c Hc e He) Hw).
    inversion IH; subst. constructor; [constructor|]; assumption.
Qed.

Lemma intact_concat l : Forall intact l -> intact (concat l).
Proof.
  induction 1; cbn [concat]; [constructor | apply intact_app; assumption].
Qed.

Lemma Forall_filter {A} (P : A -> Prop) f l : Forall P l -> Forall P (filter f l).
Proof.
  induction 1; cbn [filter]; [constructor|]. destruct (f x); [constructor|]; assumption.
Qed.

Lemma Forall_skipn {A} (P : A -> Prop) l : Forall P l -> forall n, Forall P (skipn n l).
Proof.
  induction 1; intros [|n]; cbn [skipn]; try constructor; auto.
Qed.

Lemma Forall_firstn {A} (P : A -> Prop) l : Forall P l -> forall n, Forall P (firstn n l).
Proof.
  induction 1; intros [|n]; cbn [firstn]; try constructor; auto.
Qed.

(** ** The two callbacks *)

Ltac lits_intact := apply intact_lits; vm_compute; reflexivity.

Lemma parseRow_intact line : intact line -> Forall intact (parseRow fst line).
Proof.
  intros Hl. unfold parseRow.
  assert (Hc : Forall intact (map (trim fst) (split_char fst (ch "|") line))).
  { apply Forall_map.
    eapply Forall_impl; [|apply split_char_intact; [vm_compute; reflexivity | exact Hl]].
    intros a. apply trim_intact. }
  set (cells := map (trim fst) (split_char fst (ch "|") line)) in *.
  assert (Hc' : Forall intact
                  match cells with
                  | c :: rest => if is_empty c then rest else cells
                  | [] => cells
                  end).
  { destruct cells as [|c rest]; [assumption|].
    destruct (is_empty c); [inversion Hc|]; assumption. }
  set (cells' := match cells with
                 | c :: rest => if is_empty c then rest else cells
                 | [] => cells
                 end) in *.
  destruct (rev cells') as [|c rest] eqn:E; [assumption|].
  destruct (is_empty c); [|assumption].
  apply Forall_rev. apply Forall_rev in Hc'. rewrite E in Hc'.
  inversion Hc'; assumption.
Qed.

Lemma row_html_intact tag line :
  existsb (N.eqb (ch "&")) (str tag) = false ->
  intact line -> intact (row_html fst lit tag line).
Proof.
  intros Ht Hl. unfold row_html, join.
  apply intact_app; [lits_intact|].
  apply intact_app; [|lits_intact].
  apply intact_concat. apply Forall_map.
  eapply Forall_impl; [|apply parseRow_intact; exact Hl].
  intros cell Hc.
  repeat (apply intact_app;
          [first [lits_intact | apply intact_lits; exact Ht | exact Hc]|]).
  lits_intact.
Qed.

Lemma table_fn_intact s m :
  intact s -> cut_ok (map fst s) (m_end m) = true -> intact (table_fn fst lit s m).
Proof.
  intros Hs Hc. unfold table_fn.
  assert (Hw : intact (whole_text s m))
    by (unfold whole_text; apply intact_substring; assumption).
  set (lines := filter _ _).
  assert (Hl : Forall intact lines).
  { apply Forall_filter. apply split_char_intact; [vm_compute; reflexivity|].
    apply trim_intact. assumption. }
  destruct (Nat.ltb (length lines) 2); [assumption|].
  destruct (find_separator fst (tl lines) 1) as [separatorIndex|]; [|assumption].
  apply intact_app; [lits_intact|].
  apply intact_app.
  { apply row_html_intact; [vm_compute; reflexivity|].
    destruct Hl; [constructor | assumption]. }
  apply intact_app; [|lits_intact].
  unfold join. apply intact_concat. apply Forall_map.
  eapply Forall_impl; [|apply Forall_skipn; exact Hl].
  intros line. apply row_html_intact. vm_compute. reflexivity.
Qed.

Lemma group_text_intact s m k g :
  intact s -> caps_safe k (map fst s) (m_caps m) ->
  group_text s m k = Some g -> intact g.
Proof.
  intros Hs Hc. unfold group_text.
  destruct (cap_get k (m_caps m)) as [[a b]|] eqn:E; [|discriminate].
  intros H. inversion H; subst. apply intact_substring; [assumption|].
  apply (Hc a b E).
Qed.

Lemma fence_fn_intact s m :
  intact s ->
  (forall k, In k [1; 2] -> caps_safe k (map fst s) (m_caps m)) ->
  intact (fence_fn fst lit s m).
Proof.
  intros Hs Hc. unfold fence_fn.
  assert (H1 : intact match group_text s m 1 with
                      | Some l => if is_empty l then map lit (str "plaintext") else l
                      | None => map lit (str "plaintext")
                      end).
  { destruct (group_text s m 1) as [l|] eqn:E; [|lits_intact].
    destruct (is_empty l); [lits_intact|].
    apply (group_text_intact s m 1 l Hs); [apply Hc; cbn; auto | assumption]. }
  assert (H2 : intact match group_text s m 2 with Some c => c | None => [] end).
  { destruct (group_text s m 2) as [l|] eqn:E; [|constructor].
    apply (group_text_intact s m 2 l Hs); [apply Hc; cbn; auto | assumption]. }
  repeat (apply intact_app;
          [first [lits_intact | exact H1 | apply trim_intact; exact H2
                 | apply (intact_lits [dquote]); vm_compute; reflexivity]|]).
  lits_intact.
Qed.

(** ** The whole renderer *)

Lemma render_intact html : intact html -> intact (render fst lit html).
Proof.
  intros H. unfold render.
  repeat (apply replace_all_intact; [vm_compute; reflexivity | vm_compute; reflexivity |]).
  apply intact_app; [lits_intact|]. apply intact_app; [|lits_intact].
  apply replace_all_intact; [vm_compute; reflexivity | vm_compute; reflexivity |].
  apply (replace_fn_intact re_table [] true); [vm_compute; reflexivity | |].
  { intros s m Hs _ Hw. apply table_fn_intact; auto. }
  repeat (apply replace_all_intact; [vm_compute; reflexivity | vm_compute; reflexivity |]).
  apply (replace_fn_intact re_fence [1; 2] false); [vm_compute; reflexivity | |].
  { intros s m Hs Hc _. apply fence_fn_intact; auto. }
  exact H.
Qed.

(** In the rendered markup every [&] begins a whole entity written by
    [escapeHtml]. *)
Lemma parseMarkdownT_intact text : intact (parseMarkdownT text).
Proof.
  unfold parseMarkdownT. destruct (is_empty text); [constructor|].
  apply render_intact. apply escapeHtmlT_intact.
Qed.

End RenderFacts.

(* ===================================================================== *)
(** * Theorems: the tagged run is the run, and nothing but the renderer
      writes markup *)
(* ===================================================================== *)

Module TaintFacts.
Import JS Markdown Provenance RenderFacts.

#[local] Arguments cmatch : simpl never.

Section Elementwise.
Variable A : Type.
Variable code : A -> jschar.
Variable lit : jschar -> A.

(** A property that every character written by the renderer has. *)
Variable P : A -> Prop.
Hypothesis P_lit : forall c, P (lit c).

Lemma all_substring s a b : Forall P s -> Forall P (substring s a b).
Proof.
  intros H. unfold substring. apply Forall_firstn. apply Forall_skipn. assumption.
Qed.

Lemma all_lits (l : jsstring) : Forall P (map lit l).
Proof. induction l; cbn [map]; constructor; auto. Qed.

Lemma all_expand t s m : Forall P s -> Forall P (expand lit t s m).
Proof.
  intros H. unfold expand. induction t as [|item t IH]; cbn [flat_map]; [constructor|].
  apply Forall_app. split; [|assumption].
  destruct item as [l|k|]; cbn [expand_item].
  - apply all_lits.
  - unfold group_text. destruct (cap_get k (m_caps m)) as [[a b]|]; [|constructor].
    apply all_substring. assumption.
  - apply all_substring. assumption.
Qed.

Lemma all_replace_loop r s f :
  Forall P s -> (forall m, Forall P (f s m)) ->
  forall fuel pos prev, Forall P (replace_loop code fuel r s f pos prev).
Proof.
  intros Hs Hf.
  assert (Hk : forall n, Forall P (skipn n s))
    by (intros n; apply Forall_skipn; assumption).
  induction fuel as [|fuel IH]; intros pos prev; cbn [replace_loop]; [apply Hk|].
  destruct (exec r (codes code s) pos) as [m|]; [|apply Hk].
  apply Forall_app. split; [apply all_substring; assumption|].
  apply Forall_app. split; [apply Hf | apply IH].
Qed.

Lemma all_replace_fn r f :
  (forall s m, Forall P s -> Forall P (f s m)) ->
  forall s, Forall P s -> Forall P (replace_fn code r f s).
Proof. intros Hf s Hs. unfold replace_fn. apply all_replace_loop; auto. Qed.

Lemma all_replace_all r t s : Forall P s -> Forall P (replace_all code lit r t s).
Proof.
  intros Hs. unfold replace_all. apply all_replace_fn; [|assumption].
  intros. apply all_expand. assumption.
Qed.

Lemma all_trimStart s : Forall P s -> Forall P (trimStart code s).
Proof.
  induction 1 as [|a s Ha Hs IH]; cbn [trimStart]; [constructor|].
  destruct (isSpace (code a)); [assumption | constructor; assumption].
Qed.

Lemma all_trim s : Forall P s -> Forall P (trim code s).
Proof.
  intros H. unfold trim, trimEnd. apply Forall_rev. apply all_trimStart.
  apply Forall_rev. apply all_trimStart. assumption.
Qed.

Lemma all_split_char c s : Forall P s -> Forall (Forall P) (split_char code c s).
Proof.
  induction 1 as [|a s Ha Hs IH]; cbn [split_char]; [repeat constructor|].
  destruct (N.eqb (code a) c); [constructor; [constructor | assumption]|].
  destruct (split_char code c s) as [|w ws]; [repeat constructor; assumption|].
  inversion IH; subst. constructor; [constructor|]; assumption.
Qed.

Lemma all_parseRow line : Forall P line -> Forall (Forall P) (parseRow code line).
Proof.
  intros Hl. unfold parseRow.
  assert (Hc : Forall (Forall P) (map (trim code) (split_char code (ch "|") line))).
  { apply Forall_map. eapply Forall_impl; [|apply all_split_char; exact Hl].
    intros a. apply all_trim. }
  set (cells := map (trim code) (split_char code (ch "|") line)) in *.
  assert (Hc' : Forall (Forall P)
                  match cells with
                  | c :: rest => if is_empty c then rest else cells
                  | [] => cells
                  end).
  { destruct cells as [|c rest]; [assumption|].
    destruct (is_empty c); [inversion Hc|]; assumption. }
  set (cells' := match cells with
                 | c :: rest => if is_empty c then rest else cells
                 | [] => cells
                 end) in *.
  destruct (rev cells') as [|c rest] eqn:E; [assumption|].
  destruct (is_empty c); [|assumption].
  apply Forall_rev. apply Forall_rev in Hc'. rewrite E in Hc'.
  inversion Hc'; assumption.
Qed.

Lemma all_concat l : Forall (Forall P) l -> Forall P (concat l).
Proof. induction 1; cbn [concat]; [constructor | apply Forall_app; auto]. Qed.

Ltac all_pieces :=
  repeat first
    [ apply all_lits
    | assumption
    | apply Forall_app; split
    | apply Forall_nil
    | apply Forall_cons; [apply P_lit|] ].

Lemma all_row_html tag line : Forall P line -> Forall P (row_html code lit tag line).
Proof.
  intros Hl. unfold row_html, join.
  apply Forall_app; split; [apply all_lits|].
  apply Forall_app; split; [|apply all_lits].
  apply all_concat. apply Forall_map.
  eapply Forall_impl; [|apply all_parseRow; exact Hl].
  intros cell Hc. all_pieces.
Qed.

Lemma all_table_fn s m : Forall P s -> Forall P (table_fn code lit s m).
Proof.
  intros Hs. unfold table_fn.
  assert (Hw : Forall P (whole_text s m)) by (apply all_substring; assumption).
  set (lines := filter _ _).
  assert (Hl : Forall (Forall P) lines).
  { apply Forall_filter. apply all_split_char. apply all_trim. assumption. }
  destruct (Nat.ltb (length lines) 2); [assumption|].
  destruct (find_separator code (tl lines) 1) as [separatorIndex|]; [|assumption].
  apply Forall_app; split; [apply all_lits|].
  apply Forall_app; split.
  { apply all_row_html. destruct Hl; [constructor | assumption]. }
  apply Forall_app; split; [|apply all_lits].
  unfold join. apply all_concat. apply Forall_map.
  eapply Forall_impl; [|apply Forall_skipn; exact Hl].
  intros line. apply all_row_html.
Qed.

Lemma all_group_text s m k :
  Forall P s -> Forall P match group_text s m k with Some g => g | None => [] end.
Proof.
  intros Hs. unfold group_text.
  destruct (cap_get k (m_caps m)) as [[a b]|]; [|constructor].
  apply all_substring. assumption.
Qed.

Lemma all_fence_fn s m : Forall P s -> Forall P (fence_fn code lit s m).
Proof.
  intros Hs. unfold fence_fn.
  assert (H1 : Forall P match group_text s m 1 with
                        | Some l => if is_empty l then map lit (str "plaintext") else l
                        | None => map lit (str "plaintext")
                        end).
  { pose proof (all_group_text s m 1 Hs) as Hg.
    destruct (group_text s m 1) as [l|]; [|apply all_lits].
    destruct (is_empty l); [apply all_lits | assumption]. }
  pose proof (all_trim _ (all_group_text s m 2 Hs)) as H2.
  all_pieces.
Qed.

Lemma all_render html : Forall P html -> Forall P (render code lit html).
Proof.
  intros H. unfold render.
  repeat apply all_replace_all.
  apply Forall_app; split; [apply all_lits|]. apply Forall_app; split; [|apply all_lits].
  apply all_replace_all.
  apply all_replace_fn; [intros; apply all_table_fn; assumption|].
  repeat apply all_replace_all.
  apply all_replace_fn; [intros; apply all_fence_fn; assumption|].
  exact H.
Qed.

End Elementwise.

(** ** Erasing the tags commutes with every step *)

Section Erasure.
Variable A : Type.
Variable code : A -> jschar.
Variable lit : jschar -> A.
Hypothesis code_lit : forall c, code (lit c) = c.

Local Abbreviation idc := (fun c : jschar => c).

Lemma codes_idc (l : jsstring) : codes idc l = l.
Proof. unfold codes. apply map_id. Qed.

Lemma erase_substring (s : list A) a b :
  map code (substring s a b) = substring (map code s) a b.
Proof. unfold substring. rewrite skipn_map, firstn_map. reflexivity. Qed.

Lemma erase_lits (l : jsstring) : map code (map lit l) = map idc l.
Proof. rewrite map_map. apply map_ext. intros c. apply code_lit. Qed.

Lemma erase_group_text s m k :
  option_map (map code) (group_text s m k) = group_text (map code s) m k.
Proof.
  unfold group_text. destruct (cap_get k (m_caps m)) as [[a b]|]; [|reflexivity].
  cbn [option_map]. rewrite erase_substring. reflexivity.
Qed.

Lemma erase_expand t s m :
  map code (expand lit t s m) = expand idc t (map code s) m.
Proof.
  unfold expand. induction t as [|item t IH]; cbn [flat_map]; [reflexivity|].
  rewrite map_app, IH. f_equal.
  destruct item as [l|k|]; cbn [expand_item].
  - apply erase_lits.
  - rewrite <- erase_group_text. destruct (group_text s m k); reflexivity.
  - apply erase_substring.
Qed.

Lemma erase_replace_loop r s f f' :
  (forall m, map code (f s m) = f' (map code s) m) ->
  forall fuel pos prev,
    map code (replace_loop code fuel r s f pos prev)
    = replace_loop idc fuel r (map code s) f' pos prev.
Proof.
  intros Hf. induction fuel as [|fuel IH]; intros pos prev; cbn [replace_loop].
  - symmetry. apply skipn_map.
  - rewrite codes_idc. unfold codes.
    destruct (exec r (map code s) pos) as [m|]; [|symmetry; apply skipn_map].
    rewrite !map_app, erase_substring, Hf, IH. reflexivity.
Qed.

Lemma erase_replace_fn r f f' :
  (forall s m, map code (f s m) = f' (map code s) m) ->
  forall s, map code (replace_fn code r f s) = replace_fn idc r f' (map code s).
Proof.
  intros Hf s. unfold replace_fn. rewrite length_map. apply erase_replace_loop.
  intros m. apply Hf.
Qed.

Lemma erase_replace_all r t s :
  map code (replace_all code lit r t s) = replace_all idc idc r t (map code s).
Proof.
  unfold replace_all. apply erase_replace_fn. intros. apply erase_expand.
Qed.

Lemma erase_trimStart s : map code (trimStart code s) = trimStart idc (map code s).
Proof.
  induction s as [|a s IH]; cbn [trimStart map]; [reflexivity|].
  destruct (isSpace (code a)); [assumption | reflexivity].
Qed.

Lemma erase_trim s : map code (trim code s) = trim idc (map code s).
Proof.
  unfold trim, trimEnd.
  rewrite map_rev, erase_trimStart, map_rev, erase_trimStart. reflexivity.
Qed.

Lemma erase_split_char c s :
  map (map code) (split_char code c s) = split_char idc c (map code s).
Proof.
  induction s as [|a s IH]; cbn [split_char map]; [reflexivity|].
  destruct (N.eqb (code a) c); cbn [map]; [rewrite IH; reflexivity|].
  rewrite <- IH. destruct (split_char code c s); reflexivity.
Qed.

Lemma erase_is_empty (s : list A) : is_empty (map code s) = is_empty s.
Proof. destruct s; reflexivity. Qed.

Lemma erase_drop_first (cells : list (list A)) :
  map (map code)
      match cells with
      | c :: rest => if is_empty c then rest else cells
      | [] => cells
      end
  = match map (map code) cells with
    | c :: rest => if is_empty c then rest else map (map code) cells
    | [] => map (map code) cells
    end.
Proof.
  destruct cells as [|c rest]; [reflexivity|]. cbn [map].
  rewrite erase_is_empty. destruct (is_empty c); reflexivity.
Qed.

Lemma erase_drop_last (cells : list (list A)) :
  map (map code)
      match rev cells with
      | c :: rest => if is_empty c then rev rest else cells
      | [] => cells
      end
  = match rev (map (map code) cells) with
    | c :: rest => if is_empty c then rev rest else map (map code) cells
    | [] => map (map code) cells
    end.
Proof.
  rewrite <- map_rev. destruct (rev cells) as [|c rest]; [reflexivity|]. cbn [map].
  rewrite erase_is_empty. destruct (is_empty c); [|reflexivity].
  apply map_rev.
Qed.

Lemma erase_parseRow line :
  map (map code) (parseRow code line) = parseRow idc (map code line).
Proof.
  unfold parseRow. rewrite erase_drop_last, erase_drop_first.
  rewrite map_map, <- erase_split_char, map_map.
  rewrite (map_ext (fun x => map code (trim code x)) (fun x => trim idc (map code x)));
    [reflexivity|].
  intros x. apply erase_trim.
Qed.

Lemma erase_concat (l : list (list A)) : map code (concat l) = concat (map (map code) l).
Proof. apply concat_map. Qed.

Lemma erase_row_html tag line :
  map code (row_html code lit tag line) = row_html idc idc tag (map code line).
Proof.
  unfold row_html, join.
  rewrite !map_app, !erase_lits, erase_concat, <- erase_parseRow, !map_map.
  f_equal. f_equal. f_equal. apply map_ext. intros cell.
  rewrite !map_app, !erase_lits. reflexivity.
Qed.

Lemma erase_isSeparator line : isSeparator idc (map code line) = isSeparator code line.
Proof. unfold isSeparator. rewrite codes_idc. reflexivity. Qed.

Lemma erase_find_separator lines : forall i,
  find_separator idc (map (map code) lines) i = find_separator code lines i.
Proof.
  induction lines as [|l lines IH]; intros i; cbn [find_separator map]; [reflexivity|].
  rewrite erase_isSeparator. destruct (isSeparator code l); [reflexivity | apply IH].
Qed.

Lemma erase_filter (p : list A -> bool) (p' : jsstring -> bool) (l : list (list A)) :
  (forall x, p' (map code x) = p x) ->
  map (map code) (filter p l) = filter p' (map (map code) l).
Proof.
  intros Hp. induction l as [|x l IH]; cbn [filter map]; [reflexivity|].
  rewrite Hp. destruct (p x); cbn [map]; rewrite IH; reflexivity.
Qed.

Lemma erase_table_fn s m :
  map code (table_fn code lit s m) = table_fn idc idc (map code s) m.
Proof.
  unfold table_fn, whole_text.
  rewrite <- erase_substring, <- erase_trim, <- erase_split_char.
  rewrite <- (erase_filter (fun line => negb (is_empty (trim code line)))
                           (fun line => negb (is_empty (trim idc line))));
    [|intros x; rewrite <- erase_trim, erase_is_empty; reflexivity].
  set (lines := filter _ _).
  rewrite length_map.
  destruct (Nat.ltb (length lines) 2); [reflexivity|].
  replace (tl (map (map code) lines)) with (map (map code) (tl lines))
    by (destruct lines; reflexivity).
  rewrite erase_find_separator.
  destruct (find_separator code (tl lines) 1) as [separatorIndex|]; [|reflexivity].
  unfold join.
  rewrite !map_app, !erase_lits, erase_concat, erase_row_html, map_map.
  replace (hd [] (map (map code) lines)) with (map code (hd [] lines))
    by (destruct lines; reflexivity).
  rewrite skipn_map, map_map.
  f_equal. f_equal. f_equal. f_equal. apply map_ext. intros line.
  apply erase_row_html.
Qed.

Lemma erase_fence_fn s m :
  map code (fence_fn code lit s m) = fence_fn idc idc (map code s) m.
Proof.
  unfold fence_fn.
  rewrite <- !erase_group_text.
  rewrite !map_app, !erase_lits. cbn [map]. rewrite code_lit.
  destruct (group_text s m 1) as [l|]; cbn [option_map];
    destruct (group_text s m 2) as [c|]; cbn [option_map];
    rewrite ?erase_is_empty, ?erase_trim;
    try destruct (is_empty l); rewrite ?erase_lits; reflexivity.
Qed.

Lemma erase_render html :
  map code (render code lit html) = render idc idc (map code html).
Proof.
  unfold render.
  repeat rewrite erase_replace_all.
  rewrite !map_app, !erase_lits.
  rewrite erase_replace_all.
  rewrite (erase_replace_fn re_table (table_fn code lit) (table_fn idc idc) erase_table_fn).
  repeat rewrite erase_replace_all.
  rewrite (erase_replace_fn re_fence (fence_fn code lit) (fence_fn idc idc) erase_fence_fn).
  reflexivity.
Qed.

End Erasure.

Lemma erase_escapeHtmlT text : map fst (escapeHtmlT text) = escapeHtml text.
Proof.
  unfold escapeHtmlT, escapeHtml.
  induction text as [|c text IH]; cbn [flat_map]; [reflexivity|].
  rewrite map_app, IH. f_equal. unfold escape_charT, escape_char.
  repeat match goal with |- context [if ?b then _ else _] => destruct b end;
    reflexivity.
Qed.

(** The tagged run, with the tags erased, is [parseMarkdown]. *)
Lemma erase_parseMarkdownT text : map fst (parseMarkdownT text) = parseMarkdown text.
Proof.
  unfold parseMarkdownT, parseMarkdown. destruct (is_empty text); [reflexivity|].
  rewrite (erase_render _ fst (fun c => (c, FromRenderer))); [|reflexivity].
  rewrite erase_escapeHtmlT. reflexivity.
Qed.

Lemma escapeHtmlT_well_tagged text :
  Forall (fun x => well_tagged x = true) (escapeHtmlT text).
Proof.
  unfold escapeHtmlT. induction text as [|c text IH]; cbn [flat_map]; [constructor|].
  apply Forall_app. split; [|assumption]. unfold escape_charT.
  destruct (N.eqb c (ch "&")) eqn:E1; [repeat constructor|].
  destruct (N.eqb c 160) eqn:E2; [repeat constructor|].
  destruct (N.eqb c (ch "<")) eqn:E3; [repeat constructor|].
  destruct (N.eqb c (ch ">")) eqn:E4; [repeat constructor|].
  repeat constructor. unfold well_tagged. cbn [fst snd].
  rewrite E1, E2, E3, E4. reflexivity.
Qed.

(** Every character of the rendered markup is well tagged. *)
Lemma parseMarkdownT_well_tagged text :
  Forall (fun x => well_tagged x = true) (parseMarkdownT text).
Proof.
  unfold parseMarkdownT. destruct (is_empty text); [constructor|].
  apply all_render; [reflexivity | apply escapeHtmlT_well_tagged].
Qed.

(** ** Every [&] begins an entity *)

Lemma entity_amp_first e : In e entities ->
  forall i, 0 < i -> nth_error e i <> Some (ch "&").
Proof.
  revert e.
  apply (entity_cases (fun e => forall i, 0 < i -> nth_error e i <> Some (ch "&")));
    intros i Hi;
    do 7 (destruct i as [|i]; [try lia; cbn; discriminate|]);
    cbn; destruct i; discriminate.
Qed.

Lemma intact_amp s : intact s ->
  forall i o, nth_error s i = Some (ch "&", o) ->
  exists e, In e entities /\ firstn (length e) (skipn i s) = from_escape e.
Proof.
  induction 1 as [|x s Hx Hs IH|e s He Hs IH]; intros i o Hi.
  - destruct i; discriminate.
  - destruct i as [|i]; cbn [nth_error] in Hi.
    + inversion Hi; subst. cbn [fst] in Hx. congruence.
    + cbn [skipn]. eapply IH. exact Hi.
  - assert (Hlen : length (from_escape e) = length e)
      by (unfold from_escape; apply length_map).
    destruct (Nat.eq_dec i 0) as [->|Hi0].
    + exists e. split; [assumption|]. cbn [skipn].
      rewrite <- Hlen, firstn_app, Nat.sub_diag, firstn_all. cbn [firstn].
      apply app_nil_r.
    + destruct (Nat.lt_ge_cases i (length e)) as [Hlt|Hge].
      * exfalso. rewrite nth_error_app1 in Hi by lia.
        unfold from_escape in Hi. rewrite nth_error_map in Hi.
        destruct (nth_error e i) as [c|] eqn:E; [|discriminate].
        cbn [option_map] in Hi. inversion Hi; subst.
        apply (entity_amp_first e He i); [lia | assumption].
      * rewrite nth_error_app2 in Hi by lia. rewrite Hlen in Hi.
        destruct (IH _ _ Hi) as (e' & He' & Hf). exists e'. split; [assumption|].
        rewrite skipn_app, Hlen, skipn_all2 by lia. exact Hf.
Qed.

Lemma well_tagged_markup c o :
  well_tagged (c, o) = true -> c = ch "<" \/ c = ch ">" -> o = FromRenderer.
Proof.
  unfold well_tagged. cbn [fst snd]. intros H Hc. destruct o; [| |reflexivity].
  - destruct Hc as [-> | ->]; vm_compute in H; discriminate.
  - destruct Hc as [-> | ->]; vm_compute in H; discriminate.
Qed.

Lemma well_tagged_input c :
  well_tagged (c, FromInput) = true -> c <> ch "&" /\ c <> ch "<" /\ c <> ch ">".
Proof.
  unfold well_tagged. cbn [fst snd]. intros H.
  repeat split; intros ->; vm_compute in H; discriminate.
Qed.

(** C10. [parseMarkdown] escapes the raw text before any markdown
    transformation.  Following every character of the rendered markup back
    to its origin: no character copied from the input is [&], [<] or [>];
    every [<] and [>] of the markup was written by the renderer itself; and
    every [&] begins a whole entity written by the escape for a character of
    the input. *)
Theorem c10_input_markup_only_as_entities (text : jsstring) :
  parseMarkdown text
  = (if is_empty text then []
     else render (fun c => c) (fun c => c) (escapeHtml text))
  /\ map fst (parseMarkdownT text) = parseMarkdown text
  /\ (forall c, In (c, FromInput) (parseMarkdownT text) ->
                 c <> ch "&" /\ c <> ch "<" /\ c <> ch ">")
  /\ (forall c o, In (c, o) (parseMarkdownT text) ->
                   c = ch "<" \/ c = ch ">" -> o = FromRenderer)
  /\ (forall i o, nth_error (parseMarkdownT text) i = Some (ch "&", o) ->
                   exists e, In e entities
                             /\ firstn (length e) (skipn i (parseMarkdownT text))
                                = from_escape e).
Proof.
  pose proof (parseMarkdownT_well_tagged text) as Hw.
  rewrite Forall_forall in Hw.
  refine (conj _ (conj _ (conj _ (conj _ _)))).
  - reflexivity.
  - apply erase_parseMarkdownT.
  - intros c Hc. apply well_tagged_input. apply (Hw _ Hc).
  - intros c o Hc. apply well_tagged_markup. apply (Hw _ Hc).
  - apply intact_amp. apply parseMarkdownT_intact.
Qed.

Lemma c10_witness :
  In (ch "<", FromRenderer) (parseMarkdownT (str "a<b"))
  /\ (ch "<" = ch "<" \/ ch "<" = ch ">")
  /\ FromRenderer = FromRenderer.
Proof.
  split; [vm_compute; auto|].
  split; [left; reflexivity|].
  apply (proj1 (proj2 (proj2 (proj2 (c10_input_markup_only_as_entities (str "a<b")))))
               (ch "<") FromRenderer).
  - vm_compute. auto.
  - left. reflexivity.
Defined.

(** The test vector with its origins: the markup is the renderer's, the
    entity is the escape's. *)
Example tagged_rendering :
  parseMarkdownT (str "a<b")
  = [(ch "<", FromRenderer); (ch "p", FromRenderer); (ch ">", FromRenderer);
     (ch "a", FromInput);
     (ch "&", FromEscape); (ch "l", FromEscape); (ch "t", FromEscape); (ch ";", FromEscape);
     (ch "b", FromInput);
     (ch "<", FromRenderer); (ch "/", FromRenderer); (ch "p", FromRenderer);
     (ch ">", FromRenderer)].
Proof. vm_compute. reflexivity. Qed.

End TaintFacts.

(* ===================================================================== *)
(** * Theorems: strings *)
(* ===================================================================== *)

Module StringFacts.
Import JS.

Lemma jseqb_eq (a b : jsstring) : jseqb a b = true <-> a = b.
Proof.
  revert b. induction a as [|x a IH]; intros [|y b]; cbn [jseqb];
    try (split; [discriminate | discriminate]); [tauto|].
  rewrite andb_true_iff, N.eqb_eq, IH. split.
  - intros [-> ->]. reflexivity.
  - intros E. inversion E. auto.
Qed.

Lemma jseqb_refl (a : jsstring) : jseqb a a = true.
Proof. apply jseqb_eq. reflexivity. Qed.

Lemma jseqb_sym (a b : jsstring) : jseqb a b = jseqb b a.
Proof.
  destruct (jseqb a b) eqn:E.
  - apply jseqb_eq in E. subst. symmetry. apply jseqb_refl.
  - destruct (jseqb b a) eqn:E'; [|reflexivity].
    apply jseqb_eq in E'. subst. rewrite jseqb_refl in E. discriminate.
Qed.

Lemma jseqb_neq (a b : jsstring) : jseqb a b = false <-> a <> b.
Proof.
  split.
  - intros E ->. rewrite jseqb_refl in E. discriminate.
  - intros N. destruct (jseqb a b) eqn:E; [|reflexivity].
    apply jseqb_eq in E. contradiction.
Qed.

Section Trim.
Context {A : Type}.
Variable code : A -> jschar.

Lemma trimStart_length (s : list A) : length (trimStart code s) <= length s.
Proof.
  induction s as [|a s IH]; cbn [trimStart length]; [lia|].
  destruct (isSpace (code a)); cbn [length]; lia.
Qed.

Lemma trim_length (s : list A) : length (trim code s) <= length s.
Proof.
  unfold trim, trimEnd. rewrite length_rev.
  pose proof (trimStart_length (rev (trimStart code s))) as H1.
  pose proof (trimStart_length s) as H2. rewrite length_rev in H1. lia.
Qed.

(** What [trimStart] leaves begins with a character that is no space. *)
Lemma trimStart_head (s : list A) :
  match trimStart code s with
  | [] => True
  | a :: _ => isSpace (code a) = false
  end.
Proof.
  induction s as [|a s IH]; cbn [trimStart]; [exact I|].
  destruct (isSpace (code a)) eqn:E; assumption.
Qed.

Lemma trimStart_id (s : list A) :
  match s with [] => True | a :: _ => isSpace (code a) = false end ->
  trimStart code s = s.
Proof. destruct s as [|a s]; [reflexivity|]. cbn [trimStart]. intros ->. reflexivity. Qed.

(** [trimStart] removes a prefix of spaces. *)
Lemma trimStart_split (s : list A) :
  exists ws, s = ws ++ trimStart code s /\ Forall (fun a => isSpace (code a) = true) ws.
Proof.
  induction s as [|a s (ws & E & H)]; [exists []; split; [reflexivity | constructor]|].
  cbn [trimStart]. destruct (isSpace (code a)) eqn:Ea.
  - exists (a :: ws). split; [cbn [app]; congruence | constructor; assumption].
  - exists []. split; [reflexivity | constructor].
Qed.

Lemma trimEnd_split (s : list A) :
  exists ws, s = trimEnd code s ++ ws /\ Forall (fun a => isSpace (code a) = true) ws.
Proof.
  unfold trimEnd. destruct (trimStart_split (rev s)) as (ws & E & H).
  exists (rev ws). split.
  - rewrite <- rev_app_distr, <- E, rev_involutive. reflexivity.
  - apply Forall_rev. assumption.
Qed.

(** [trim] removes spaces at both ends and nothing else. *)
Lemma trim_split (s : list A) :
  exists l r, s = l ++ trim code s ++ r
              /\ Forall (fun a => isSpace (code a) = true) l
              /\ Forall (fun a => isSpace (code a) = true) r.
Proof.
  unfold trim. destruct (trimStart_split s) as (l & El & Hl).
  destruct (trimEnd_split (trimStart code s)) as (r & Er & Hr).
  exists l, r. repeat split; try assumption. rewrite <- Er. assumption.
Qed.

Lemma trimEnd_keeps (s : list A) (x : A) :
  isSpace (code x) = false -> trimEnd code (s ++ [x]) = s ++ [x].
Proof.
  intros H. unfold trimEnd. rewrite rev_app_distr. cbn [rev app trimStart].
  rewrite H. cbn [rev]. rewrite rev_involutive. reflexivity.
Qed.

(** A string that neither begins nor ends with a space is its own trim. *)
Lemma trim_id (s : list A) :
  (forall a l, s = a :: l -> isSpace (code a) = false) ->
  (forall l a, s = l ++ [a] -> isSpace (code a) = false) ->
  trim code s = s.
Proof.
  intros Hfirst Hlast. unfold trim.
  rewrite trimStart_id.
  - destruct s as [|a l] using rev_ind; [reflexivity|].
    apply trimEnd_keeps. eapply Hlast. reflexivity.
  - destruct s as [|a l]; [exact I|]. eapply Hfirst. reflexivity.
Qed.

Lemma trim_first (s : list A) (a : A) (l : list A) :
  trim code s = a :: l -> isSpace (code a) = false.
Proof.
  intros E. pose proof (trimStart_head s) as Hs.
  destruct (trimEnd_split (trimStart code s)) as (ws & Ew & _).
  unfold trim in E. rewrite E in Ew. rewrite Ew in Hs. exact Hs.
Qed.

Lemma trim_last (s : list A) (l : list A) (a : A) :
  trim code s = l ++ [a] -> isSpace (code a) = false.
Proof.
  intros E. unfold trim, trimEnd in E.
  pose proof (trimStart_head (rev (trimStart code s))) as Hh.
  apply (f_equal (@rev _)) in E. rewrite rev_involutive, rev_app_distr in E.
  cbn [rev app] in E. rewrite E in Hh. exact Hh.
Qed.

Lemma trim_trim (s : list A) : trim code (trim code s) = trim code s.
Proof.
  apply trim_id.
  - intros a l E. eapply trim_first. exact E.
  - intros l a E. eapply trim_last. exact E.
Qed.

(** The trim of a string is empty exactly when the string is made of
    spaces. *)
Lemma trimStart_nil (s : list A) :
  trimStart code s = [] <-> Forall (fun a => isSpace (code a) = true) s.
Proof.
  induction s as [|a s IH]; cbn [trimStart]; [split; [constructor | reflexivity]|].
  destruct (isSpace (code a)) eqn:E.
  - rewrite IH. split; [constructor; assumption | intros H; inversion H; assumption].
  - split; [discriminate | intros H; inversion H; congruence].
Qed.

Lemma trim_nil (s : list A) :
  trim code s = [] <-> Forall (fun a => isSpace (code a) = true) s.
Proof.
  split.
  - intros E. destruct (trim_split s) as (l & r & Es & Hl & Hr).
    rewrite E in Es. rewrite Es. apply Forall_app. split; assumption.
  - intros H. unfold trim, trimEnd.
    assert (E : trimStart code s = []) by (apply trimStart_nil; assumption).
    rewrite E. reflexivity.
Qed.

End Trim.

End StringFacts.

(* ===================================================================== *)
(** * Theorems: when an expression cannot match, and where it can *)
(* ===================================================================== *)

Module MatchingFacts.
Import JS Provenance Matching MatcherFacts.


#[local] Arguments cmatch : simpl never.

(** A match holds a character of every class the expression requires. *)
Lemma requires_sound P r : forall s i c j c',
  requires P r ->
  In (j, c') (rmatch r s i c) ->
  exists k x, i <= k < j /\ nth_error s k = Some x /\ P x = true.
Proof.
  induction r as [|cs|r1 IH1 r2 IH2|r1 IH1 r2 IH2|g r1 IH1|k r1 IH1|ml|ml];
    intros s i c j c' Hr H; cbn [requires] in Hr; try contradiction.
  - apply rmatch_chr in H. destruct H as (-> & -> & x & Hx & Hc).
    exists i, x. repeat split; [lia | lia | assumption | auto].
  - apply rmatch_seq in H. destruct H as (m & c1 & H1 & H2).
    destruct (first_sound _ _ _ _ _ _ H1) as (L1 & _ & _).
    destruct (first_sound _ _ _ _ _ _ H2) as (L2 & _ & _).
    destruct Hr as [Hr|Hr].
    + destruct (IH1 _ _ _ _ _ Hr H1) as (k & x & Hk & Hx & Hp).
      exists k, x. repeat split; [lia | lia | assumption | assumption].
    + destruct (IH2 _ _ _ _ _ Hr H2) as (k & x & Hk & Hx & Hp).
      exists k, x. repeat split; [lia | lia | assumption | assumption].
  - apply rmatch_alt in H. destruct Hr as [Hr1 Hr2]. destruct H as [H|H]; eauto.
  - apply rmatch_group in H. destruct H as (c1 & -> & H). eauto.
Qed.

Lemma rmatch_needs P r s i c :
  requires P r -> (forall x, In x s -> P x = false) -> rmatch r s i c = [].
Proof.
  intros Hr Hs. destruct (rmatch r s i c) as [|[j c'] rest] eqn:E; [reflexivity|].
  destruct (requires_sound P r s i c j c' Hr) as (k & x & _ & Hx & Hp).
  { rewrite E. left. reflexivity. }
  apply nth_error_In in Hx. rewrite (Hs x Hx) in Hp. discriminate.
Qed.

Lemma search_needs P r s :
  requires P r -> (forall x, In x s -> P x = false) ->
  forall fuel i, search_from r s fuel i = None.
Proof.
  intros Hr Hs. induction fuel as [|f IH]; intros i; cbn [search_from]; [reflexivity|].
  rewrite (rmatch_needs P r s i [] Hr Hs). apply IH.
Qed.

Lemma exec_needs P r s i :
  requires P r -> (forall x, In x s -> P x = false) -> exec r s i = None.
Proof. intros Hr Hs. unfold exec. apply (search_needs P); assumption. Qed.

(** A replacement by an expression that cannot match changes nothing. *)
Lemma replace_fn_needs {A} (code : A -> jschar) P r f (s : list A) :
  requires P r -> (forall x, In x (map code s) -> P x = false) ->
  replace_fn code r f s = s.
Proof.
  intros Hr Hs. unfold replace_fn. cbn [replace_loop].
  unfold codes. rewrite (exec_needs P r (map code s) 0 Hr Hs). reflexivity.
Qed.

Lemma replace_all_needs {A} (code : A -> jschar) (lit : jschar -> A) P r t (s : list A) :
  requires P r -> (forall x, In x (map code s) -> P x = false) ->
  replace_all code lit r t s = s.
Proof. intros Hr Hs. unfold replace_all. apply (replace_fn_needs code P); assumption. Qed.

(** ** Captures *)

Lemma clear_caps_nil (c : caps) : clear_caps [] c = c.
Proof.
  unfold clear_caps. induction c as [|kv c IH]; simpl in *; congruence.
Qed.

(** An expression without groups leaves the captures as they are. *)
Lemma caps_unchanged r : forall s i c j c',
  groups r = [] -> In (j, c') (rmatch r s i c) -> c' = c.
Proof.
  induction r as [|cs|r1 IH1 r2 IH2|r1 IH1 r2 IH2|g r1 IH1|k r1 IH1|ml|ml];
    intros s i c j c' Hg H; cbn [groups] in Hg.
  - destruct H as [H|[]]. inversion H. reflexivity.
  - apply rmatch_chr in H. tauto.
  - apply app_eq_nil in Hg. destruct Hg as [Hg1 Hg2].
    apply rmatch_seq in H. destruct H as (m & c1 & H1 & H2).
    rewrite (IH2 _ _ _ _ _ Hg2 H2). eapply IH1; eauto.
  - apply app_eq_nil in Hg. destruct Hg as [Hg1 Hg2].
    apply rmatch_alt in H. destruct H as [H|H]; eauto.
  - apply rmatch_star in H. unfold body in H. rewrite Hg in H.
    induction H as [|i c q c1 j c' Hq Hlt Hrest IH]; [reflexivity|].
    rewrite IH. rewrite clear_caps_nil in Hq. eapply IH1; eauto.
  - discriminate.
  - apply rmatch_bol in H. tauto.
  - apply rmatch_eol in H. tauto.
Qed.

Lemma bol_start s i c j c' : In (j, c') (rmatch (Bol false) s i c) -> i = 0.
Proof.
  cbn [rmatch]. destruct i as [|p]; [reflexivity|].
  destruct (nth_error s p); cbn [andb]; intros [].
Qed.

Lemma eol_end s i c j c' : In (j, c') (rmatch (Eol false) s i c) -> i = length s.
Proof.
  cbn [rmatch]. destruct (nth_error s i); cbn [andb]; [intros []|].
  destruct (Nat.eqb_spec i (length s)); [auto | intros []].
Qed.

(** A match of [^ (G1) R]: it starts the string, and so does the group,
    which is not empty. *)
Lemma head_group X R s i j c' :
  groups X = [] -> nullable X = false ->
  In (j, c') (rmatch (Seq (Bol false) (Seq (Group 1 X) R)) s i []) ->
  i = 0 /\ exists a, 0 < a /\ In (j, c') (rmatch R s a [(1, (0, a))]).
Proof.
  intros GX NX H.
  apply rmatch_seq in H. destruct H as (m1 & c1 & H1 & H).
  pose proof (bol_start _ _ _ _ _ H1) as ->.
  apply rmatch_bol in H1. destruct H1 as [-> ->].
  apply rmatch_seq in H. destruct H as (m2 & c2 & H2 & H).
  apply rmatch_group in H2. destruct H2 as (c2' & -> & H2).
  pose proof (caps_unchanged _ _ _ _ _ _ GX H2) as ->.
  destruct (first_sound _ _ _ _ _ _ H2) as (_ & _ & L2). specialize (L2 NX).
  split; [reflexivity|]. exists m2. auto.
Qed.

(** A match of [(G2) $]: the group ends the string and is not empty. *)
Lemma tail_group Y s i c j c' :
  groups Y = [] -> nullable Y = false ->
  In (j, c') (rmatch (Seq (Group 2 Y) (Eol false)) s i c) ->
  c' = (2, (i, length s)) :: c /\ i < length s.
Proof.
  intros GY NY H.
  apply rmatch_seq in H. destruct H as (m & c1 & H1 & H).
  apply rmatch_group in H1. destruct H1 as (c1' & -> & H1).
  pose proof (caps_unchanged _ _ _ _ _ _ GY H1) as ->.
  destruct (first_sound _ _ _ _ _ _ H1) as (_ & _ & L). specialize (L NY).
  pose proof (eol_end _ _ _ _ _ H) as E.
  apply rmatch_eol in H. destruct H as (-> & -> & _).
  subst m. auto.
Qed.

(** ** The best match *)

Lemma best_chr cs s i c x :
  nth_error s i = Some x -> cmatch cs x = true -> best (Chr cs) s i c = Some (S i, c).
Proof. intros Hx Hc. unfold best. cbn [rmatch]. rewrite Hx, Hc. reflexivity. Qed.

Lemma best_seq r1 r2 s i c m c1 j c2 :
  best r1 s i c = Some (m, c1) -> best r2 s m c1 = Some (j, c2) ->
  best (Seq r1 r2) s i c = Some (j, c2).
Proof.
  unfold best. cbn [rmatch].
  destruct (rmatch r1 s i c) as [|[m' c1'] l1]; [discriminate|].
  cbn [hd_error]. intros E1. inversion E1; subst. cbn [flat_map fst snd].
  destruct (rmatch r2 s m c1) as [|jc l2]; [discriminate|].
  cbn [hd_error app]. auto.
Qed.

Lemma best_group k r s i c j c1 :
  best r s i c = Some (j, c1) -> best (Group k r) s i c = Some (j, (k, (i, j)) :: c1).
Proof.
  unfold best. cbn [rmatch].
  destruct (rmatch r s i c) as [|[j' c1'] l]; [discriminate|].
  cbn [hd_error map fst snd]. intros E. inversion E. reflexivity.
Qed.

Lemma best_bol ml s c : best (Bol ml) s 0 c = Some (0, c).
Proof. reflexivity. Qed.

Lemma best_eol ml s c : best (Eol ml) s (length s) c = Some (length s, c).
Proof.
  unfold best. cbn [rmatch].
  replace (nth_error s (length s)) with (@None jschar)
    by (symmetry; apply nth_error_None; lia).
  rewrite Nat.eqb_refl. reflexivity.
Qed.

Lemma span_le cs l : span cs l <= length l.
Proof. induction l as [|x l IH]; simpl; [lia|]. destruct (cmatch cs x); simpl; lia. Qed.

Lemma body_chr cs s i c : body (Chr cs) s i c = rmatch (Chr cs) s i c.
Proof. unfold body. cbn [groups]. rewrite clear_caps_nil. reflexivity. Qed.

(** The greedy star of a class takes the whole run first. *)
Lemma best_star_loop cs s c : forall fuel i,
  span cs (skipn i s) < fuel ->
  hd_error (star_loop (body (Chr cs) s) true fuel i c) = Some (i + span cs (skipn i s), c).
Proof.
  induction fuel as [|f IH]; intros i H; [lia|].
  cbn [star_loop]. rewrite body_chr. cbn [rmatch].
  destruct (nth_error s i) as [x|] eqn:E.
  - rewrite (DirectionRefinement.skipn_nth s i x E) in *. cbn [span] in *.
    destruct (cmatch cs x) eqn:D.
    + cbn [flat_map fst snd]. rewrite app_nil_r.
      replace (i <? S i) with true by (symmetry; apply Nat.ltb_lt; lia).
      specialize (IH (S i)).
      destruct (star_loop (body (Chr cs) s) true f (S i) c) as [|jc l].
      * cbn [hd_error] in IH. assert (Hf : span cs (skipn (S i) s) < f) by lia.
        specialize (IH Hf). discriminate.
      * cbn [hd_error app] in *. rewrite IH by lia. f_equal. f_equal. lia.
    + cbn [flat_map app hd_error]. f_equal. f_equal. lia.
  - rewrite (DirectionRefinement.skipn_none s i E). cbn [span flat_map app hd_error].
    f_equal. f_equal. lia.
Qed.

Lemma best_star cs s i c :
  best (Star true (Chr cs)) s i c = Some (i + span cs (skipn i s), c).
Proof.
  unfold best. cbn [rmatch]. apply best_star_loop.
  pose proof (span_le cs (skipn i s)) as H. rewrite length_skipn in H. lia.
Qed.

Lemma span_run cs (run rest : jsstring) :
  Forall (fun x => cmatch cs x = true) run ->
  match rest with [] => True | y :: _ => cmatch cs y = false end ->
  span cs (run ++ rest) = length run.
Proof.
  intros Hr Hy. induction Hr as [|x run Hx Hr IH]; cbn [app span length].
  - destruct rest as [|y rest]; [reflexivity|]. cbn [span]. rewrite Hy. reflexivity.
  - rewrite Hx, IH. reflexivity.
Qed.

Lemma skipn_prefix {A} (pre rest : list A) : skipn (length pre) (pre ++ rest) = rest.
Proof. rewrite skipn_app, skipn_all, Nat.sub_diag. reflexivity. Qed.

(** A greedy star, and a greedy plus, of a class at the start of a run of
    the class that something else ends. *)
Lemma best_star_run cs (pre run rest : jsstring) c :
  Forall (fun x => cmatch cs x = true) run ->
  match rest with [] => True | y :: _ => cmatch cs y = false end ->
  best (Star true (Chr cs)) (pre ++ run ++ rest) (length pre) c
  = Some (length pre + length run, c).
Proof.
  intros Hr Hy. rewrite best_star, skipn_prefix, span_run by assumption. reflexivity.
Qed.

Lemma best_plus_run cs (pre run rest : jsstring) c :
  run <> [] ->
  Forall (fun x => cmatch cs x = true) run ->
  match rest with [] => True | y :: _ => cmatch cs y = false end ->
  best (Plus true (Chr cs)) (pre ++ run ++ rest) (length pre) c
  = Some (length pre + length run, c).
Proof.
  intros Hne Hr Hy. destruct run as [|x run]; [congruence|]. inversion Hr; subst.
  unfold Plus. eapply best_seq.
  - apply (best_chr cs _ _ c x); [|assumption].
    rewrite nth_error_app2, Nat.sub_diag by lia. reflexivity.
  - pose proof (best_star_run cs (pre ++ [x]) run rest c) as H.
    rewrite <- app_assoc in H. cbn [app] in H.
    rewrite length_app in H. cbn [length] in H.
    replace (length pre + 1) with (S (length pre)) in H by lia.
    change ((x :: run) ++ rest) with (x :: run ++ rest).
    rewrite H by assumption. cbn [length]. f_equal. f_equal. lia.
Qed.

Lemma exec_best r s j c :
  best r s 0 [] = Some (j, c) -> exec r s 0 = Some (MRes 0 j c).
Proof.
  unfold best, exec. rewrite Nat.sub_0_r. cbn [search_from].
  destruct (rmatch r s 0 []) as [|[j' c'] l]; [discriminate|].
  cbn [hd_error]. intros E. inversion E. reflexivity.
Qed.

End MatchingFacts.

(* ===================================================================== *)
(** * Theorems: connection tests and management messages *)
(* ===================================================================== *)

Module ConnectionFacts.
Import JS Providers Models Orchestrator Connection ProviderFacts.

(** A connection test succeeds exactly when a key is given and the
    endpoint answers with an OK status: neither a thrown request nor any
    other status is ever reported as a success. *)
Theorem connection_test_succeeds_exactly_on_ok
        (a : adapter) (apiKey : jsstring) (net : fetch_outcome) :
  success (answer (testConnection a apiKey net)) = true
  <-> apiKey <> [] /\ exists r, net = FetchResponds r /\ resp_ok r = true.
Proof.
  destruct a; cbn [testConnection];
    unfold testOpenRouterConnection, testGeminiConnection;
    (destruct apiKey as [|k apiKey]; cbn [is_empty answer];
     [split; [discriminate | intros [H _]; congruence]|]);
    (destruct net as [e|r]; cbn [failed success];
     [split; [discriminate | intros [_ (r & E & _)]; discriminate]|]);
    (destruct (resp_ok r) eqn:Ok; cbn [success];
     [split; [intros _; split; [discriminate | exists r; auto]| reflexivity]|]);
    (split; [repeat match goal with
                    | |- context [if ?b then _ else _] => destruct b
                    end; discriminate
            | intros [_ (r' & E & Ok')]; inversion E; subst; congruence]).
Qed.

(** A failed connection test always carries a message that is not empty,
    a successful one carries none, and the test calls the network once, or
    not at all when no key is given. *)
Theorem connection_test_failure_is_explained
        (a : adapter) (apiKey : jsstring) (net : fetch_outcome) :
  let p := testConnection a apiKey net in
  (if success (answer p)
   then error (answer p) = None
   else exists e, error (answer p) = Some e /\ e <> [])
  /\ length (probed p) = (if is_empty apiKey then 0 else 1).
Proof.
  destruct a; cbn [testConnection];
    unfold testOpenRouterConnection, testGeminiConnection, connection_error;
    (destruct apiKey as [|k apiKey]; cbn [is_empty answer probed length];
     [split; [eexists; split; [reflexivity | discriminate] | reflexivity]|]);
    (split; [|reflexivity]);
    (destruct net as [e|r];
     [|destruct (resp_ok r); [reflexivity|]]);
    repeat match goal with
           | |- context [if ?b then _ else _] =>
               lazymatch b with
               | context [success] => fail
               | _ => destruct b
               end
           end;
    cbn [failed success error]; eexists; (split; [reflexivity | nonempty]).
Qed.

(** [handleTestConnection] runs a test only for the two provider names: any
    other identifier, the names that every object inherits included, is
    answered with [Unknown provider] without a request. *)
Theorem test_connection_rejects_every_other_name
        (provider apiKey : jsstring) (net : fetch_outcome) :
  (forall a, PROVIDERS provider <> Own a) ->
  handleTestConnection provider apiKey net = Probe [] (failed (str "Unknown provider")).
Proof.
  intros H. unfold handleTestConnection.
  unfold PROVIDERS in H.
  destruct (jseqb provider (str "openrouter")); [destruct (H OpenRouterAdapter); reflexivity|].
  destruct (jseqb provider (str "gemini")); [destruct (H GeminiAdapter); reflexivity|].
  reflexivity.
Qed.

Lemma test_connection_rejects_every_other_name_witness :
  (forall a, PROVIDERS (str "constructor") <> Own a)
  /\ handleTestConnection (str "constructor") (str "sk-test")
       (FetchResponds (Response true 200 [] (BodyStream [] StreamDone)))
     = Probe [] (failed (str "Unknown provider")).
Proof.
  assert (H : forall a, PROVIDERS (str "constructor") <> Own a)
    by (intros a; vm_compute; discriminate).
  split; [exact H|].
  apply (test_connection_rejects_every_other_name (str "constructor") (str "sk-test") _ H).
Defined.

Section Handlers.
Variable Raw : Type.
Variable parse_models : adapter -> jsstring -> payload Raw.
Variable transform : adapter -> Raw -> option (list ModelDescriptor).
Variable parse_sse : jsstring -> option OpenRouter.sse_data.
Variable parse_error_body : jsstring -> OpenRouter.error_payload.
Variable parse_completion : jsstring -> exn + OpenRouter.completion.
Variable parse_chunk : jsstring -> option jsvalue.
Variable parse_text : jsstring -> option jsstring.
Variable parse_error_message : jsstring -> exn + jsstring.
Variable parse_failure : jsstring -> jsstring.

Local Abbreviation handleModels_ := (handleModels parse_models transform).
Local Abbreviation onMessage_ :=
  (onMessage parse_models transform parse_sse parse_error_body parse_completion parse_chunk
             parse_text parse_error_message parse_failure).

Lemma listModels_fetches (a : adapter) cachedModels apiKey force net :
  length (fetched (listModels parse_models transform a cachedModels apiKey force net)) <= 1.
Proof.
  destruct a; cbn [listModels];
    unfold fetchOpenRouterModels, fetchGeminiModels, from_network;
    repeat match goal with
           | |- context [match ?x with _ => _ end] => destruct x
           end; cbn [fetched length]; lia.
Qed.

(** The model-list handlers answer a provider of the table with a list of
    models and never with an error; an identifier that the table does not
    resolve is answered with [Unknown provider]; for a name inherited from
    [Object.prototype] the handler sends no answer at all and its promise
    is rejected.  No case makes more than one request, and only a provider
    of the table makes any. *)
Theorem model_list_reply_by_provider_lookup
        (forceRefresh : bool) (k : caches) (provider apiKey : jsstring)
        (net : fetch_outcome) :
  let h := handleModels_ forceRefresh k provider apiKey net in
  match PROVIDERS provider with
  | Own a =>
      (exists models, replies h = [ReplyModels models]) /\ uncaught h = None
      /\ length (requests h) <= 1
  | Undefined =>
      replies h = [ReplyResult (Error (str "Unknown provider"))] /\ uncaught h = None
      /\ requests h = [] /\ caches_after h = k
  | Inherited =>
      replies h = [] /\ uncaught h <> None /\ requests h = [] /\ caches_after h = k
  end.
Proof.
  unfold handleModels. destruct (PROVIDERS provider) as [a| |]; cbn.
  - split; [eexists; reflexivity|]. split; [reflexivity|]. apply listModels_fetches.
  - repeat split. discriminate.
  - repeat split.
Qed.

Lemma fetches_of_app l1 l2 : fetches_of (l1 ++ l2) = fetches_of l1 ++ fetches_of l2.
Proof.
  induction l1 as [|x l1 IH]; simpl; [reflexivity|].
  destruct x; simpl; rewrite IH; reflexivity.
Qed.

Lemma responses_of_app l1 l2 : responses_of (l1 ++ l2) = responses_of l1 ++ responses_of l2.
Proof.
  induction l1 as [|x l1 IH]; simpl; [reflexivity|].
  destruct x; simpl; rewrite IH; reflexivity.
Qed.

Lemma responses_of_fetches urls : responses_of (map Fetch urls) = [].
Proof. induction urls; simpl; auto. Qed.

Lemma fetches_of_fetches urls : fetches_of (map Fetch urls) = urls.
Proof. induction urls; simpl; congruence. Qed.

Lemma send_fetches (a : adapter) p streaming net :
  length (net_calls (send parse_sse parse_error_body parse_completion parse_chunk parse_text
                          parse_error_message parse_failure a p streaming net))
  = if is_empty (apiKey p) then 0 else 1.
Proof.
  destruct a; cbn [send];
    unfold OpenRouter.sendOpenRouterRequest, Gemini.sendGeminiRequest;
    (destruct (is_empty (apiKey p)); [reflexivity|]);
    (destruct net as [e|r]; [reflexivity|]);
    (destruct (negb (resp_ok r)); [reflexivity|]);
    (destruct streaming; [|reflexivity]).
  - destruct (OpenRouter.read_loop _ _ _ _ _). reflexivity.
  - destruct (Gemini.read_loop _ _ _ _). reflexivity.
Qed.

Lemma handleRequest_replies translate settings net payload :
  let l := handleRequest parse_sse parse_error_body parse_completion parse_chunk parse_text
                         parse_error_message parse_failure translate settings net payload in
  length (responses_of l) = 1 /\ length (fetches_of l) <= 1.
Proof.
  unfold handleRequest. destruct settings as [s|e]; cbn; [|split; lia].
  destruct (PROVIDERS (provider s)) as [a| |]; cbn; [|split; lia|split; lia].
  rewrite responses_of_app, fetches_of_app, responses_of_fetches, fetches_of_fetches.
  cbn. rewrite app_nil_r, send_fetches.
  split; [reflexivity|]. destruct (is_empty _); lia.
Qed.

(** Every message the listener receives is answered exactly once, with one
    exception: a model-list message for a name inherited from
    [Object.prototype] is never answered.  The listener keeps the channel
    open for every message type it knows and closes it for any other, which
    it answers at once with [Unknown message type]; no message makes more
    than one request. *)
Theorem every_message_is_answered_once (w : world) (m : message) :
  let h := snd (onMessage_ w m) in
  let unanswered :=
    match m with
    | GET_MODELS provider _ | REFRESH_MODELS provider _ =>
        match PROVIDERS provider with Inherited => true | _ => false end
    | _ => false
    end in
  length (replies h) = (if unanswered then 0 else 1)
  /\ length (requests h) <= 1
  /\ (fst (onMessage_ w m) = false
      <-> exists type, m = OTHER_MESSAGE type)
  /\ (forall type, m = OTHER_MESSAGE type ->
        h = Handled [] None [ReplyResult (Error (str "Unknown message type"))] None
                    (model_caches w)).
Proof.
  destruct m as [payload|payload| |newSettings|provider apiKey|provider apiKey
                 |provider apiKey|type]; cbn [onMessage fst snd].
  - destruct (handleRequest_replies false (stored w) (network w) payload) as [Hr Hf].
    unfold handleExplainRequest, of_effects. cbn [replies requests].
    repeat split; try assumption; try discriminate.
    intros [t E]; discriminate.
  - destruct (handleRequest_replies true (stored w) (network w) payload) as [Hr Hf].
    unfold handleTranslateRequest, of_effects. cbn [replies requests].
    repeat split; try assumption; try discriminate.
    intros [t E]; discriminate.
  - unfold handleGetSettings. destruct (stored w); cbn;
      repeat split; try lia; try discriminate; intros [t E]; discriminate.
  - unfold handleSaveSettings. destruct (write_error w); cbn;
      repeat split; try lia; try discriminate; intros [t E]; discriminate.
  - cbn [replies requests length].
    repeat split; try discriminate; [|intros [t E]; discriminate].
    unfold handleTestConnection, testOpenRouterConnection, testGeminiConnection.
    repeat match goal with
           | |- context [if ?b then _ else _] => destruct b
           end; cbn; lia.
  - unfold handleGetModels, handleModels.
    pose proof (listModels_fetches) as Hq.
    destruct (PROVIDERS provider) as [a| |]; cbn [replies requests length];
      repeat split; try apply Hq; try lia; try discriminate;
      intros [t E]; discriminate.
  - unfold handleRefreshModels, handleModels.
    pose proof (listModels_fetches) as Hq.
    destruct (PROVIDERS provider) as [a| |]; cbn [replies requests length];
      repeat split; try apply Hq; try lia; try discriminate;
      intros [t E]; discriminate.
  - repeat split; cbn; try lia.
    + exists type. reflexivity.
Qed.

End Handlers.

End ConnectionFacts.

(* ===================================================================== *)
(** * Theorems: a streamed answer does not depend on how it is cut *)
(* ===================================================================== *)

Module StreamFacts.
Import JS Providers Orchestrator Scanning Samples MoreSamples.

(** ** Lines across two reads *)

Lemma split_char_nonempty {A} (code : A -> jschar) c (s : list A) : split_char code c s <> [].
Proof.
  destruct s as [|a s]; cbn [split_char]; [discriminate|].
  destruct (N.eqb (code a) c); [discriminate|].
  destruct (split_char code c s); discriminate.
Qed.

Lemma removelast_cons {A} (x : A) (l : list A) :
  l <> [] -> removelast (x :: l) = x :: removelast l.
Proof. destruct l; [congruence | reflexivity]. Qed.

Lemma last_cons {A} (x : A) (l : list A) d : l <> [] -> last (x :: l) d = last l d.
Proof. destruct l; [congruence | reflexivity]. Qed.

Lemma last_app_r {A} (l1 l2 : list A) d : l2 <> [] -> last (l1 ++ l2) d = last l2 d.
Proof.
  intros H. induction l1 as [|x l1 IH]; [reflexivity|].
  cbn [app]. rewrite last_cons; [assumption|].
  destruct l1; [assumption | discriminate].
Qed.

(** Splitting a text that arrives in two parts: the complete lines of the
    first part, then the lines of its unfinished line followed by the
    second part. *)
Lemma split_char_app {A} (code : A -> jschar) c (x y : list A) :
  split_char code c (x ++ y)
  = removelast (split_char code c x)
      ++ split_char code c (last (split_char code c x) [] ++ y).
Proof.
  induction x as [|a x IH]; [reflexivity|].
  cbn [app split_char].
  pose proof (split_char_nonempty code c x) as Hne.
  destruct (N.eqb (code a) c) eqn:E.
  - rewrite removelast_cons, last_cons by assumption.
    cbn [app]. rewrite <- IH. reflexivity.
  - rewrite IH. destruct (split_char code c x) as [|w [|w1 ws]]; [congruence| |].
    + cbn [removelast last app split_char]. rewrite E. reflexivity.
    + cbn [removelast last app]. reflexivity.
Qed.

Section OpenRouterReads.
Import OpenRouter.
Variable parse_sse : jsstring -> option sse_data.

Lemma process_lines_app l1 : forall l2 acc,
  process_lines parse_sse (l1 ++ l2) acc
  = match process_lines parse_sse l1 acc with
    | (acc', None) => process_lines parse_sse l2 acc'
    | failure => failure
    end.
Proof.
  induction l1 as [|l l1 IH]; intros l2 acc; cbn [app process_lines]; [reflexivity|].
  destruct (process_line parse_sse l acc); [apply IH | reflexivity].
Qed.

Lemma openrouter_reads_join a b rs ending buffer acc :
  read_loop parse_sse (a :: b :: rs) ending buffer acc
  = read_loop parse_sse ((a ++ b) :: rs) ending buffer acc.
Proof.
  cbn [read_loop].
  rewrite (app_assoc buffer a b).
  rewrite (split_char_app (fun c : jschar => c) 10%N (buffer ++ a) b).
  set (lines1 := split_char (fun c : jschar => c) 10%N (buffer ++ a)).
  set (lines2 := split_char (fun c : jschar => c) 10%N (last lines1 [] ++ b)).
  assert (H2 : lines2 <> []) by apply split_char_nonempty.
  rewrite removelast_app, last_app_r by assumption.
  rewrite process_lines_app.
  destruct (process_lines parse_sse (removelast lines1) acc) as [acc' [e|]]; reflexivity.
Qed.

Lemma openrouter_reads_concat rs : forall a ending buffer acc,
  read_loop parse_sse (a :: rs) ending buffer acc
  = read_loop parse_sse [a ++ concat rs] ending buffer acc.
Proof.
  induction rs as [|b rs IH]; intros a ending buffer acc.
  - cbn [concat]. rewrite app_nil_r. reflexivity.
  - rewrite openrouter_reads_join, IH. cbn [concat]. rewrite app_assoc. reflexivity.
Qed.

Lemma openrouter_stream_concat rs ending acc :
  read_loop parse_sse rs ending [] acc = read_loop parse_sse [concat rs] ending [] acc.
Proof.
  destruct rs as [|a rs]; [reflexivity|]. apply openrouter_reads_concat.
Qed.

End OpenRouterReads.

(** ** Objects across two reads *)

Lemma substring_app_l {A} (s t : list A) a b :
  b <= length s -> substring (s ++ t) a b = substring s a b.
Proof.
  intros H. unfold substring. rewrite skipn_app, firstn_app, length_skipn.
  replace (b - a - (length s - a)) with 0 by lia. cbn [firstn]. apply app_nil_r.
Qed.

Section GeminiReads.
Import Gemini.
Variable parse_chunk : jsstring -> option jsvalue.
Variable parse_text : jsstring -> option jsstring.

Local Abbreviation scan_ := (scan parse_chunk).

Lemma scan_continues buffer i char rest st st2 acc :
  next_state i char st = Some st2 ->
  scan_ buffer i (char :: rest) st acc = scan_ buffer (S i) rest st2 acc.
Proof.
  unfold next_state. cbn [scan].
  repeat match goal with
         | |- context [if ?b then _ else _] => destruct b
         end; intros E; inversion E; subst; reflexivity.
Qed.

Lemma scan_completes buffer i char rest st acc :
  next_state i char st = None ->
  scan_ buffer i (char :: rest) st acc
  = scan_ rest 0 rest (ScanState (braceCount st - 1)%Z (startIdx st) false false)
          match parse_chunk (substring buffer (Z.to_nat (startIdx st)) (S i)) with
          | Some content => deliver content acc
          | None => acc
          end.
Proof.
  unfold next_state. cbn [scan].
  repeat match goal with
         | |- context [if ?b then _ else _] => destruct b
         end; intros E; inversion E; reflexivity.
Qed.

Lemma next_state_same i char st st' :
  same_scan st st' ->
  match next_state i char st, next_state i char st' with
  | Some st2, Some st2' => same_scan st2 st2'
  | None, None => (braceCount st - 1 = 0)%Z /\ startIdx st = startIdx st'
  | _, _ => False
  end.
Proof.
  destruct st as [bc si ins esc], st' as [bc' si' ins' esc'].
  unfold same_scan, next_state. cbn [braceCount startIdx inString escaped].
  intros (<- & <- & <- & Hs).
  assert (Hc : (0 < bc)%Z \/ (bc <= 0)%Z) by lia.
  destruct Hc as [Hc|Hc]; [destruct (Hs Hc) as [<- Hne]; clear Hs | clear Hs];
    repeat match goal with
           | |- context [if ?b then _ else _] => destruct b eqn:?
           end;
    cbn [braceCount startIdx inString escaped] in *;
    repeat match goal with
           | H : _ && _ = true |- _ => apply andb_true_iff in H; destruct H
           | H : _ && _ = false |- _ => apply andb_false_iff in H; destruct H
           | H : negb _ = true |- _ => apply negb_true_iff in H
           | H : negb _ = false |- _ => apply negb_false_iff in H
           | H : Z.eqb _ _ = true |- _ => apply Z.eqb_eq in H
           | H : Z.eqb _ _ = false |- _ => apply Z.eqb_neq in H
           end;
    try lia; try congruence;
    repeat split; try lia; try congruence; intros; split; lia || congruence.
Qed.

(** A stale [startIdx] is never read. *)
Lemma scan_same rest : forall buffer i st st' acc,
  same_scan st st' -> scan_ buffer i rest st acc = scan_ buffer i rest st' acc.
Proof.
  induction rest as [|char rest IH]; intros buffer i st st' acc H; [reflexivity|].
  pose proof (next_state_same i char st st' H) as Hn.
  destruct (next_state i char st) as [st2|] eqn:E1;
    destruct (next_state i char st') as [st2'|] eqn:E2; try contradiction.
  - rewrite (scan_continues _ _ _ _ _ _ _ E1), (scan_continues _ _ _ _ _ _ _ E2).
    apply IH. assumption.
  - rewrite (scan_completes _ _ _ _ _ _ E1), (scan_completes _ _ _ _ _ _ E2).
    destruct Hn as [Hb Hs]. destruct H as (Hbc & _). rewrite <- Hbc, <- Hs. reflexivity.
Qed.

(** Scanning a buffer that arrives in two parts.  [pre] is what the scan
    has read of the current buffer, and reading it again from the start
    leads to the same state. *)
Lemma scan_app r1 : forall pre r2 st acc,
  (forall tail acc', scan_ (pre ++ tail) 0 (pre ++ tail) scan_init acc'
                     = scan_ (pre ++ tail) (length pre) tail st acc') ->
  scan_ ((pre ++ r1) ++ r2) (length pre) (r1 ++ r2) st acc
  = let '(b1, acc1) := scan_ (pre ++ r1) (length pre) r1 st acc in
    scan_ (b1 ++ r2) 0 (b1 ++ r2) scan_init acc1.
Proof.
  induction r1 as [|char r1 IH]; intros pre r2 st acc Hre.
  - rewrite app_nil_r. cbn [app scan]. symmetry. apply Hre.
  - cbn [app]. destruct (next_state (length pre) char st) as [st2|] eqn:E.
    + rewrite (scan_continues _ _ _ _ _ _ _ E), (scan_continues _ _ _ _ _ _ _ E).
      replace (pre ++ char :: r1) with ((pre ++ [char]) ++ r1)
        by (rewrite <- app_assoc; reflexivity).
      replace (S (length pre)) with (length (pre ++ [char]))
        by (rewrite length_app; simpl; lia).
      apply IH. intros tail acc'.
      rewrite <- app_assoc. cbn [app]. rewrite Hre.
      rewrite (scan_continues _ _ _ _ _ _ _ E).
      rewrite length_app. cbn [length]. rewrite Nat.add_1_r. reflexivity.
    + rewrite (scan_completes _ _ _ _ _ _ E), (scan_completes _ _ _ _ _ _ E).
      rewrite substring_app_l by (rewrite length_app; simpl; lia).
      apply (IH [] r2). intros tail acc'. cbn [app length].
      apply scan_same. unfold next_state in E.
      repeat match type of E with
             | context [if ?b then _ else _] => destruct b eqn:?
             end; try discriminate.
      match goal with
      | H : _ && _ = true |- _ => apply andb_true_iff in H; destruct H as [H0 _]
      end.
      apply Z.eqb_eq in H0. unfold same_scan, scan_init.
      cbn [braceCount startIdx inString escaped]. rewrite H0.
      repeat split; lia.
Qed.

Lemma gemini_reads_join a b rs ending buffer acc :
  read_loop parse_chunk (a :: b :: rs) ending buffer acc
  = read_loop parse_chunk ((a ++ b) :: rs) ending buffer acc.
Proof.
  cbn [read_loop].
  rewrite (app_assoc buffer a b).
  pose proof (scan_app (buffer ++ a) [] b scan_init acc) as H.
  cbn [app length] in H. rewrite H by reflexivity.
  destruct (scan_ (buffer ++ a) 0 (buffer ++ a) scan_init acc) as [b1 acc1].
  reflexivity.
Qed.

Lemma gemini_reads_concat rs : forall a ending buffer acc,
  read_loop parse_chunk (a :: rs) ending buffer acc
  = read_loop parse_chunk [a ++ concat rs] ending buffer acc.
Proof.
  induction rs as [|b rs IH]; intros a ending buffer acc.
  - cbn [concat]. rewrite app_nil_r. reflexivity.
  - rewrite gemini_reads_join, IH. cbn [concat]. rewrite app_assoc. reflexivity.
Qed.

Lemma gemini_stream_concat rs ending acc :
  read_loop parse_chunk rs ending [] acc = read_loop parse_chunk [concat rs] ending [] acc.
Proof.
  destruct rs as [|a rs]; [reflexivity|]. apply gemini_reads_concat.
Qed.

End GeminiReads.

Section Send.
Variable parse_sse : jsstring -> option OpenRouter.sse_data.
Variable parse_error_body : jsstring -> OpenRouter.error_payload.
Variable parse_completion : jsstring -> exn + OpenRouter.completion.
Variable parse_chunk : jsstring -> option jsvalue.
Variable parse_text : jsstring -> option jsstring.
Variable parse_error_message : jsstring -> exn + jsstring.
Variable parse_failure : jsstring -> jsstring.

Local Abbreviation send_ :=
  (send parse_sse parse_error_body parse_completion parse_chunk parse_text
        parse_error_message parse_failure).

(** What a streamed request delivers and returns depends only on the text
    of the body and on how the body ends, not on where the network cuts it
    into reads: for both adapters, two bodies whose reads concatenate to
    the same text give the same fragments and the same result. *)
Theorem streamed_result_ignores_read_boundaries
        (a : adapter) (p : params) (ok : bool) (status : nat) (text : jsstring)
        (s1 s2 : body_stream) :
  concat (reads s1) = concat (reads s2) ->
  ending s1 = ending s2 ->
  send_ a p true (FetchResponds (Response ok status text s1))
  = send_ a p true (FetchResponds (Response ok status text s2)).
Proof.
  intros Hc He. destruct a; cbn [send];
    unfold OpenRouter.sendOpenRouterRequest, Gemini.sendGeminiRequest;
    cbn [resp_ok resp_stream];
    (destruct (is_empty (apiKey p)); [reflexivity|]);
    (destruct (negb ok); [reflexivity|]).
  - rewrite (openrouter_stream_concat parse_sse (reads s1)),
            (openrouter_stream_concat parse_sse (reads s2)), Hc, He. reflexivity.
  - rewrite (gemini_stream_concat parse_chunk (reads s1)),
            (gemini_stream_concat parse_chunk (reads s2)), Hc, He. reflexivity.
Qed.

End Send.

Lemma streamed_result_ignores_read_boundaries_witness :
  concat (reads split_reads) = concat (reads one_read)
  /\ ending split_reads = ending one_read
  /\ send sse_plain no_error_body no_completion chunk_plain text_plain no_error_message no_message
          OpenRouterAdapter a_request true
          (FetchResponds (Response true 200 [] split_reads))
     = send sse_plain no_error_body no_completion chunk_plain text_plain no_error_message no_message
            OpenRouterAdapter a_request true
            (FetchResponds (Response true 200 [] one_read)).
Proof.
  assert (Hc : concat (reads split_reads) = concat (reads one_read))
    by (vm_compute; reflexivity).
  assert (He : ending split_reads = ending one_read) by reflexivity.
  split; [exact Hc|]. split; [exact He|].
  apply (streamed_result_ignores_read_boundaries sse_plain no_error_body no_completion chunk_plain
           text_plain no_error_message no_message OpenRouterAdapter a_request true 200 []
           split_reads one_read Hc He).
Defined.

End StreamFacts.

(* ===================================================================== *)
(** * Theorems: the order of what a request does *)
(* ===================================================================== *)

Module HandlerFacts.
Import JS Providers Orchestrator Traces ProviderFacts OrchestratorFacts ConnectionFacts.

Section Handlers.
Variable parse_sse : jsstring -> option OpenRouter.sse_data.
Variable parse_error_body : jsstring -> OpenRouter.error_payload.
Variable parse_completion : jsstring -> exn + OpenRouter.completion.
Variable parse_chunk : jsstring -> option jsvalue.
Variable parse_text : jsstring -> option jsstring.
Variable parse_error_message : jsstring -> exn + jsstring.
Variable parse_failure : jsstring -> jsstring.

Local Abbreviation send_ :=
  (send parse_sse parse_error_body parse_completion parse_chunk parse_text
        parse_error_message parse_failure).
Local Abbreviation handleStreamMessage_ :=
  (handleStreamMessage parse_sse parse_error_body parse_completion parse_chunk parse_text
                       parse_error_message parse_failure).
Local Abbreviation handleRequest_ :=
  (handleRequest parse_sse parse_error_body parse_completion parse_chunk parse_text
                 parse_error_message parse_failure).




Lemma send_calls (a : adapter) p streaming net :
  net_calls (send_ a p streaming net) = []
  \/ exists url, net_calls (send_ a p streaming net) = [url].
Proof.
  pose proof (send_fetches parse_sse parse_error_body parse_completion parse_chunk parse_text
                parse_error_message parse_failure a p streaming net) as H.
  destruct (net_calls _) as [|url [|url' l]]; [left; reflexivity | right; eauto |].
  destruct (is_empty _); discriminate.
Qed.

(** A one-shot request ([EXPLAIN_TEXT], [TRANSLATE_TEXT]) reads the
    settings first, then builds at most one prompt, then makes at most one
    request, and answers exactly once, as its last step; it posts nothing on
    a port. *)
Theorem one_shot_request_answers_once_at_the_end
        (translate : bool) (settings : settings_outcome) (net : fetch_outcome)
        (payload : RequestPayload) :
  exists pre r,
    handleRequest_ translate settings net payload = GetSettings :: pre ++ [Respond r]
    /\ preparation_shape pre
    /\ posted (handleRequest_ translate settings net payload) = [].
Proof.
  unfold handleRequest, preparation_shape.
  destruct settings as [s|e].
  2:{ exists [], (Error (ex_message e)). repeat split. left. reflexivity. }
  destruct (PROVIDERS (provider s)) as [a| |].
  - set (m := if translate then _ else _).
    set (sp := if translate then _ else _).
    destruct (send_calls a (requestParams a s sp m) false net) as [E|[url E]];
      rewrite E; cbn [map app].
    + exists [BuildPrompt m], (outcome (send_ a (requestParams a s sp m) false net)).
      repeat split. right. left. eauto.
    + exists [BuildPrompt m; Fetch url],
             (outcome (send_ a (requestParams a s sp m) false net)).
      repeat split. right. right. eauto.
  - eexists [BuildPrompt _], _. repeat split. right. left. eauto.
  - exists [], (Error (unknown_provider (provider s))). repeat split. left. reflexivity.
Qed.

(** A streaming request reads the settings first, then builds at most one
    prompt, then makes at most one request, and only then posts on the
    port: no event is posted before the adapter has been called, and
    nothing but events follows. *)
Theorem streaming_request_posts_after_the_call
        (settings : settings_outcome) (net : fetch_outcome)
        (type : message_type) (payload : RequestPayload) :
  type <> OTHER_TYPE ->
  exists pre events,
    handleStreamMessage_ settings net type payload
    = GetSettings :: pre ++ map Post events
    /\ preparation_shape pre
    /\ posted (handleStreamMessage_ settings net type payload) = events.
Proof.
  intros Ht. unfold preparation_shape.
  assert (Hp : forall evs, posted (map Post evs) = evs)
    by (induction evs; simpl; congruence).
  destruct type; [| |congruence]; cbn [handleStreamMessage];
    (destruct settings as [s|e];
     [|exists [], [ErrorEvent (ex_message e)]; repeat split; left; reflexivity]);
    (destruct (PROVIDERS (provider s)) as [a| |];
     [| eexists [BuildPrompt _], [ErrorEvent _]; repeat split; right; left; eauto
      | eexists [], [ErrorEvent _]; repeat split; left; reflexivity]);
    unfold stream_run;
    match goal with
    | |- context [send_ ?a ?p true ?net] =>
        set (r := send_ a p true net);
        assert (Ha : exists evs, after_send r = map Post evs)
          by (unfold after_send; destruct (outcome r) as [c|e];
              [destruct (is_empty (emitted r) && negb (is_empty c));
               [exists [Chunk c; Done] | exists [Done]]
              |destruct (is_empty e); [exists [Done] | exists [ErrorEvent e]]];
              reflexivity);
        destruct Ha as [evs Ha];
        destruct (send_calls a p true net) as [E|[url E]]; fold r in E; rewrite E, Ha
    end; cbn [map app];
    rewrite <- (map_map Chunk Post), <- map_app.
  all: first
    [ eexists [BuildPrompt _], _; split; [reflexivity|];
      split; [right; left; eauto | cbn [posted]; apply Hp]
    | eexists [BuildPrompt _; Fetch _], _; split; [reflexivity|];
      split; [right; right; eauto | cbn [posted app]; apply Hp] ].
Qed.

End Handlers.

Lemma streaming_request_posts_after_the_call_witness :
  EXPLAIN_TEXT_STREAM <> OTHER_TYPE
  /\ exists pre events,
       handleStreamMessage Samples.sse_plain Samples.no_error_body Samples.no_completion Samples.chunk_plain
         Samples.text_plain Samples.no_error_message Samples.no_message
         (SettingsRead (Samples.settings_for (str "openrouter"))) Samples.two_reads
         EXPLAIN_TEXT_STREAM Samples.a_payload
       = GetSettings :: pre ++ map Post events
       /\ preparation_shape pre
       /\ posted (handleStreamMessage Samples.sse_plain Samples.no_error_body
                    Samples.no_completion Samples.chunk_plain Samples.text_plain Samples.no_error_message
                    Samples.no_message
                    (SettingsRead (Samples.settings_for (str "openrouter")))
                    Samples.two_reads EXPLAIN_TEXT_STREAM Samples.a_payload)
          = events.
Proof.
  assert (H : EXPLAIN_TEXT_STREAM <> OTHER_TYPE) by discriminate.
  split; [exact H|].
  apply (streaming_request_posts_after_the_call Samples.sse_plain Samples.no_error_body
           Samples.no_completion Samples.chunk_plain Samples.text_plain Samples.no_error_message Samples.no_message
           (SettingsRead (Samples.settings_for (str "openrouter"))) Samples.two_reads
           EXPLAIN_TEXT_STREAM Samples.a_payload H).
Defined.

End HandlerFacts.

(* ===================================================================== *)
(** * Theorems: the response panel *)
(* ===================================================================== *)

Module PanelFacts.
Import JS Markdown Errors Providers Orchestrator Panel StringFacts.

(** ** The tab shown and the prompt asked for *)

Lemma translate_prompt_by_mode (payload : RequestPayload) (language m m' : jsstring) :
  jseqb m (str "idioms") = jseqb m' (str "idioms") ->
  jseqb m (str "similar") = jseqb m' (str "similar") ->
  jseqb m (str "learning") = jseqb m' (str "learning") ->
  buildTranslateUserMessage
    (MkPayload (text payload) (contextBefore payload) (pageTitle payload) (pageUrl payload)
               (Some m)) language
  = buildTranslateUserMessage
      (MkPayload (text payload) (contextBefore payload) (pageTitle payload) (pageUrl payload)
                 (Some m')) language.
Proof.
  intros H1 H2 H3. unfold buildTranslateUserMessage.
  cbn [mode text contextBefore pageTitle pageUrl]. rewrite H1, H2, H3. reflexivity.
Qed.

Lemma tab_of_id (i : jsstring) :
  id (getTranslateTab (Some i))
  = if jseqb (str "translation") i then str "translation"
    else if jseqb (str "idioms") i then str "idioms"
    else if jseqb (str "similar") i then str "similar"
    else if jseqb (str "learning") i then str "learning"
    else str "translation".
Proof.
  unfold getTranslateTab, TRANSLATE_TABS, translation_tab. cbn [find id].
  repeat match goal with
         | |- context [if ?b then _ else _] => destruct b
         end; reflexivity.
Qed.

(** Whatever tab identifier the panel holds, also none, an empty one or an
    unknown one, the prompt the worker builds from the mode the panel sends
    ([tabId || 'translation']) is the prompt of the tab whose loading text
    the panel shows ([getTranslateTab(tabId)]): the fallback of the panel
    and the [default] of the worker agree. *)
Theorem translation_prompt_is_the_prompt_of_the_tab_shown
        (tabId : option jsstring) (selection : SelectionContext)
        (href language : jsstring) :
  buildTranslateUserMessage (request_payload Translate tabId selection href) language
  = buildTranslateUserMessage
      (MkPayload (sel_text selection) (sel_contextBefore selection)
                 (sel_pageTitle selection) href
                 (Some (id (getTranslateTab tabId)))) language.
Proof.
  unfold request_payload, request_mode.
  destruct tabId as [i|]; [|reflexivity].
  destruct i as [|x i]; [reflexivity|].
  cbn [or_else_s]. set (t := x :: i).
  apply (translate_prompt_by_mode
           (MkPayload (sel_text selection) (sel_contextBefore selection)
                      (sel_pageTitle selection) href None));
    rewrite tab_of_id;
    destruct (jseqb (str "translation") t) eqn:E0;
    try (apply jseqb_eq in E0; rewrite <- E0; reflexivity);
    destruct (jseqb (str "idioms") t) eqn:E1;
    try (apply jseqb_eq in E1; rewrite <- E1; reflexivity);
    destruct (jseqb (str "similar") t) eqn:E2;
    try (apply jseqb_eq in E2; rewrite <- E2; reflexivity);
    destruct (jseqb (str "learning") t) eqn:E3;
    try (apply jseqb_eq in E3; rewrite <- E3; reflexivity);
    rewrite jseqb_sym; first [rewrite E1 | rewrite E2 | rewrite E3]; reflexivity.
Qed.

(** ** The selection *)

Lemma substring_length {A} (s : list A) a b : length (substring s a b) <= b - a.
Proof. unfold substring. rewrite length_firstn. lia. Qed.

(** A selection is kept only when what is left after trimming has two
    characters or more; the text kept is that trimmed selection, and the
    context kept with it has at most 200 characters and neither begins nor
    ends with white space. *)
Theorem selection_context_bounds
        (raw : jsstring) (fullText : option jsstring) (title : jsstring) :
  match getSelectionContext (Some raw) fullText title with
  | None => length (trim (fun c => c) raw) < 2
  | Some c =>
      sel_text c = trim (fun c => c) raw
      /\ 2 <= length (sel_text c)
      /\ length (sel_contextBefore c) <= 200
      /\ trim (fun c => c) (sel_contextBefore c) = sel_contextBefore c
  end.
Proof.
  unfold getSelectionContext.
  set (t := trim (fun c : jschar => c) raw).
  destruct (is_empty t) eqn:Ee; cbn [orb].
  { destruct t; [cbn; lia | discriminate]. }
  destruct (Nat.ltb (length t) 2) eqn:El.
  { apply Nat.ltb_lt in El. assumption. }
  apply Nat.ltb_ge in El. cbn [sel_text sel_contextBefore].
  split; [reflexivity|]. split; [assumption|].
  unfold contextBefore_of.
  destruct fullText as [fullText|]; [|split; [cbn; lia | reflexivity]].
  destruct (indexOf fullText t) as [[|before]|]; try (split; [cbn; lia | reflexivity]).
  set (ctx := substring fullText (S before - 200) (S before)).
  split.
  - pose proof (trim_length (fun c : jschar => c) ctx) as H1.
    pose proof (substring_length fullText (S before - 200) (S before)) as H2.
    fold ctx in H2. lia.
  - apply trim_trim.
Qed.

(** ** The port listener *)

Section Listener.
Variable unicodeLower : jschar -> jsstring.
Variable highlight : jsstring -> jsstring.

Local Abbreviation onPortMessage_ := (onPortMessage unicodeLower highlight).
Local Abbreviation receive_ := (receive unicodeLower highlight).
Local Abbreviation renderError_ := (renderError unicodeLower).

Lemma receive_app p l1 l2 : receive_ p (l1 ++ l2) = receive_ (receive_ p l1) l2.
Proof. unfold receive. apply fold_left_app. Qed.

Lemma receive_closed p msgs : listening p = false -> receive_ p msgs = p.
Proof.
  intros H. induction msgs as [|m msgs IH]; [reflexivity|].
  unfold receive in *. cbn [fold_left]. unfold onPortMessage at 2. rewrite H. exact IH.
Qed.

Lemma receive_chunks cs : forall p,
  listening p = true -> displays p -> cs <> [] ->
  receive_ p (map Chunk cs)
  = MkPanel true (fullContent p ++ concat cs) false
            (ShowsResponse (parseMarkdown (fullContent p ++ concat cs))).
Proof.
  induction cs as [|c cs IH]; intros p Hl Hd Hn; [congruence|].
  unfold receive. cbn [map fold_left]. fold (receive_ (onPortMessage_ p (Chunk c)) (map Chunk cs)).
  assert (E : onPortMessage_ p (Chunk c)
              = MkPanel true (fullContent p ++ c) false
                        (ShowsResponse (parseMarkdown (fullContent p ++ c)))).
  { unfold onPortMessage. rewrite Hl. cbn [negb].
    destruct Hd as [Hf|[html Hc]].
    - rewrite Hf. reflexivity.
    - rewrite Hc. destruct (isFirstChunk p); reflexivity. }
  rewrite E. destruct cs as [|c' cs].
  - cbn [map concat]. rewrite app_nil_r. reflexivity.
  - rewrite IH; [|reflexivity|right; eexists; reflexivity|discriminate].
    cbn [fullContent concat]. rewrite <- !app_assoc. reflexivity.
Qed.

(** While fragments arrive the panel shows the rendering of all the text
    received so far, and of nothing else: after the fragments [cs] it
    holds their concatenation and displays [parseMarkdown] of it, however
    the text was cut into fragments. *)
Theorem panel_shows_the_rendering_of_the_text_so_far
        (type : request_kind) (tabId : option jsstring) (cs : list jsstring) :
  cs <> [] ->
  receive_ (requested type tabId) (map Chunk cs)
  = MkPanel true (concat cs) false (ShowsResponse (parseMarkdown (concat cs))).
Proof.
  intros H. rewrite receive_chunks; [reflexivity | reflexivity | left; reflexivity | exact H].
Qed.

Lemma terminal_closes p (terminal : StreamEvent) :
  terminal = Done \/ (exists e, terminal = ErrorEvent e /\ e <> []) ->
  listening (onPortMessage_ p terminal) = false.
Proof.
  intros H. unfold onPortMessage.
  destruct (listening p) eqn:L; cbn [negb]; [|assumption].
  destruct H as [->|(e & -> & He)]; [reflexivity|].
  destruct e; [congruence | reflexivity].
Qed.

(** Once [Done] or an error has been received the panel is closed to its
    port: whatever is posted afterwards changes nothing. *)
Theorem nothing_is_shown_after_the_terminal_event
        (p : panel) (before after : list StreamEvent) (terminal : StreamEvent) :
  terminal = Done \/ (exists e, terminal = ErrorEvent e /\ e <> []) ->
  receive_ p (before ++ terminal :: after) = receive_ p (before ++ [terminal])
  /\ listening (receive_ p (before ++ [terminal])) = false.
Proof.
  intros H.
  assert (Hc : listening (receive_ p (before ++ [terminal])) = false).
  { rewrite receive_app. unfold receive at 1. cbn [fold_left]. apply terminal_closes.
    assumption. }
  split; [|exact Hc].
  replace (before ++ terminal :: after) with ((before ++ [terminal]) ++ after)
    by (rewrite <- app_assoc; reflexivity).
  rewrite receive_app. apply receive_closed. exact Hc.
Qed.

(** A disconnect ends the request as well: the panel is closed to its port
    and ignores whatever the port delivers afterwards; the display changes
    only when the disconnect carries an error and no fragment has been
    shown yet. *)
Theorem disconnect_ends_the_request
        (p : panel) (lastError : option jsstring) (msgs : list StreamEvent) :
  let q := onPortDisconnect unicodeLower p lastError in
  receive_ q msgs = q
  /\ listening q = false
  /\ (container q <> container p ->
      listening p = true /\ isFirstChunk p = true /\ lastError <> None).
Proof.
  cbv zeta.
  assert (Hc : listening (onPortDisconnect unicodeLower p lastError) = false).
  { unfold onPortDisconnect.
    destruct (listening p) eqn:L; cbn [negb]; [|exact L].
    destruct lastError as [m|]; [|reflexivity].
    destruct (isFirstChunk p); reflexivity. }
  split; [|split].
  - apply receive_closed. exact Hc.
  - exact Hc.
  - unfold onPortDisconnect.
    destruct (listening p); cbn [negb]; [|congruence].
    destruct lastError as [m|]; [|cbn; congruence].
    destruct (isFirstChunk p); [|cbn; congruence].
    intros _. repeat split; discriminate.
Qed.

Section EndToEnd.
Variable parse_sse : jsstring -> option OpenRouter.sse_data.
Variable parse_error_body : jsstring -> OpenRouter.error_payload.
Variable parse_completion : jsstring -> exn + OpenRouter.completion.
Variable parse_chunk : jsstring -> option jsvalue.
Variable parse_text : jsstring -> option jsstring.
Variable parse_error_message : jsstring -> exn + jsstring.
Variable parse_failure : jsstring -> jsstring.

Local Abbreviation send_ :=
  (send parse_sse parse_error_body parse_completion parse_chunk parse_text
        parse_error_message parse_failure).
Local Abbreviation handleStreamMessage_ :=
  (handleStreamMessage parse_sse parse_error_body parse_completion parse_chunk parse_text
                       parse_error_message parse_failure).


End EndToEnd.

End Listener.

Lemma panel_shows_the_rendering_witness :
  [str "Hel"; str "lo"] <> []
  /\ receive MoreSamples.plain_lower MoreSamples.no_highlight (requested Explain None)
             (map Chunk [str "Hel"; str "lo"])
     = MkPanel true (concat [str "Hel"; str "lo"]) false
               (ShowsResponse (parseMarkdown (concat [str "Hel"; str "lo"]))).
Proof.
  assert (H : [str "Hel"; str "lo"] <> []) by discriminate.
  split; [exact H|].
  apply (panel_shows_the_rendering_of_the_text_so_far MoreSamples.plain_lower
           MoreSamples.no_highlight Explain None [str "Hel"; str "lo"] H).
Defined.

Lemma nothing_is_shown_after_the_terminal_event_witness :
  (Done = Done \/ (exists e, Done = ErrorEvent e /\ e <> []))
  /\ receive MoreSamples.plain_lower MoreSamples.no_highlight (requested Explain None)
             ([Chunk (str "Hello")] ++ Done :: [Chunk (str "late")])
     = receive MoreSamples.plain_lower MoreSamples.no_highlight (requested Explain None)
               ([Chunk (str "Hello")] ++ [Done])
  /\ listening (receive MoreSamples.plain_lower MoreSamples.no_highlight
                        (requested Explain None) ([Chunk (str "Hello")] ++ [Done])) = false.
Proof.
  assert (H : Done = Done \/ (exists e, Done = ErrorEvent e /\ e <> []))
    by (left; reflexivity).
  split; [exact H|].
  apply (nothing_is_shown_after_the_terminal_event MoreSamples.plain_lower
           MoreSamples.no_highlight (requested Explain None) [Chunk (str "Hello")]
           [Chunk (str "late")] Done H).
Defined.


(** The run behind the witness: the two fragments received, then [Done]. *)
Example streamed_answer_on_the_panel :
  container
    (receive MoreSamples.plain_lower MoreSamples.no_highlight (requested Explain None)
       (posted (handleStreamMessage Samples.sse_plain Samples.no_error_body
                  Samples.no_completion Samples.chunk_plain Samples.text_plain Samples.no_error_message
                  Samples.no_message
                  (SettingsRead (Samples.settings_for (str "openrouter")))
                  Samples.two_reads EXPLAIN_TEXT_STREAM Samples.a_payload)))
  = ShowsResponse (str "<p>Hello</p>").
Proof. vm_compute. reflexivity. Qed.

(** A delta whose content is the empty array: the worker posts one chunk
    of empty text, and the panel replaces the loading view by an empty
    response. *)
Example empty_fragment_on_the_panel :
  container
    (receive MoreSamples.plain_lower MoreSamples.no_highlight (requested Explain None)
       (posted (handleStreamMessage Samples.sse_array Samples.no_error_body
                  Samples.no_completion Samples.chunk_plain Samples.text_plain
                  Samples.no_error_message Samples.no_message
                  (SettingsRead (Samples.settings_for (str "openrouter")))
                  Samples.array_stream EXPLAIN_TEXT_STREAM Samples.a_payload)))
  = ShowsResponse (parseMarkdown []).
Proof. vm_compute. reflexivity. Qed.

End PanelFacts.

(* ===================================================================== *)
(** * Theorems: escaping *)
(* ===================================================================== *)

Module EscapeFacts.
Import JS Markdown Errors Panel.

Lemma escape_char_cases (c : jschar) :
  (c = ch "&" /\ escape_char c = str "&amp;")
  \/ (c = 160%N /\ escape_char c = str "&nbsp;")
  \/ (c = ch "<" /\ escape_char c = str "&lt;")
  \/ (c = ch ">" /\ escape_char c = str "&gt;")
  \/ (c <> ch "&" /\ c <> 160%N /\ c <> ch "<" /\ c <> ch ">" /\ escape_char c = [c]).
Proof.
  unfold escape_char.
  destruct (N.eqb_spec c (ch "&")); [auto|].
  destruct (N.eqb_spec c 160); [auto|].
  destruct (N.eqb_spec c (ch "<")); [auto 6|].
  destruct (N.eqb_spec c (ch ">")); [auto 6|].
  right. right. right. right. auto.
Qed.

Lemma escapeHtml_chars (text : jsstring) (c : jschar) :
  In c (escapeHtml text) -> c <> ch "<" /\ c <> ch ">" /\ c <> 160%N.
Proof.
  unfold escapeHtml. intros H. apply in_flat_map in H. destruct H as (x & _ & Hc).
  destruct (escape_char_cases x) as [[-> E]|[[-> E]|[[-> E]|[[-> E]|(N1 & N2 & N3 & N4 & E)]]]];
    rewrite E in Hc.
  1-4: cbn in Hc;
       repeat (destruct Hc as [<-|Hc]; [repeat split; discriminate|]); destruct Hc.
  destruct Hc as [<-|[]]. auto.
Qed.

(** What [escapeHtml] returns holds no [<], no [>] and no no-break space,
    whatever the text: those characters of the text are all replaced. *)
Theorem escapeHtml_leaves_no_markup_character (text : jsstring) :
  Forall (fun c => c <> ch "<" /\ c <> ch ">" /\ c <> 160%N) (escapeHtml text).
Proof. apply Forall_forall. intros c. apply escapeHtml_chars. Qed.

Lemma escapeHtml_cons (c : jschar) (text : jsstring) :
  escapeHtml (c :: text) = escape_char c ++ escapeHtml text.
Proof. reflexivity. Qed.

Lemma escapeHtml_inj (a b : jsstring) :
  escapeHtml a = escapeHtml b -> a = b.
Proof.
  revert b. induction a as [|x a IH]; intros [|y b].
  - reflexivity.
  - rewrite escapeHtml_cons. cbn [escapeHtml flat_map].
    destruct (escape_char_cases y) as [[_ E]|[[_ E]|[[_ E]|[[_ E]|(_ & _ & _ & _ & E)]]]];
      rewrite E; discriminate.
  - rewrite escapeHtml_cons. cbn [escapeHtml flat_map].
    destruct (escape_char_cases x) as [[_ E]|[[_ E]|[[_ E]|[[_ E]|(_ & _ & _ & _ & E)]]]];
      rewrite E; discriminate.
  - rewrite !escapeHtml_cons.
    destruct (escape_char_cases x)
      as [[-> Ex]|[[-> Ex]|[[-> Ex]|[[-> Ex]|(X1 & X2 & X3 & X4 & Ex)]]]];
      destruct (escape_char_cases y)
        as [[-> Ey]|[[-> Ey]|[[-> Ey]|[[-> Ey]|(Y1 & Y2 & Y3 & Y4 & Ey)]]]];
      rewrite ?Ex, ?Ey; cbn [str map list_ascii_of_string app ch N_of_ascii];
      intros H; inversion H; subst;
      try congruence;
      try (f_equal; apply IH; assumption);
      try (exfalso; first [apply X1 | apply Y1]; reflexivity).
Qed.

(** Escaping loses nothing: two texts have the same escaped form exactly
    when they are the same text. *)
Theorem escapeHtml_is_injective (a b : jsstring) :
  escapeHtml a = escapeHtml b <-> a = b.
Proof.
  split; [apply escapeHtml_inj | intros ->; reflexivity].
Qed.

Section ErrorView.
Variable unicodeLower : jschar -> jsstring.

Lemma count_escaped (text : jsstring) (c : jschar) :
  c = ch "<" \/ c = ch ">" -> count_occ N.eq_dec (escapeHtml text) c = 0.
Proof.
  intros H. apply count_occ_not_In. intros Hin.
  destruct (escapeHtml_chars text c Hin) as (N1 & N2 & _). destruct H; contradiction.
Qed.

(** The markup of the error view is the markup of its template: whatever
    the error text, the view holds the same thirteen [<] and thirteen [>],
    so that no character of the error opens or closes a tag. *)
Theorem error_view_markup_is_fixed (errorText : jsstring) :
  count_occ N.eq_dec (renderError unicodeLower errorText) (ch "<") = 13
  /\ count_occ N.eq_dec (renderError unicodeLower errorText) (ch ">") = 13.
Proof.
  unfold renderError.
  set (e := parseError unicodeLower (EString errorText)).
  unfold line. rewrite !count_occ_app.
  rewrite !(count_escaped (cause e)), !(count_escaped (message e)) by auto.
  split; vm_compute; reflexivity.
Qed.

End ErrorView.

End EscapeFacts.

(* ===================================================================== *)
(** * Theorems: the error classifier on free text *)
(* ===================================================================== *)

Module ClassifierFacts.
Import JS Errors Provenance Matching MatcherFacts MatchingFacts StringFacts.

#[local] Arguments cmatch : simpl never.

(** ** The two groups of a split *)

Lemma colon_groups s i j c' :
  In (j, c') (rmatch re_colon s i []) ->
  i = 0 /\ exists a b, c' = [(2, (b, length s)); (1, (0, a))] /\ 0 < a /\ b < length s.
Proof.
  intros H. apply head_group in H; [|reflexivity|reflexivity].
  destruct H as (-> & a & Ha & H). split; [reflexivity|].
  apply rmatch_seq in H. destruct H as (m1 & c1 & H1 & H).
  apply caps_unchanged in H1; [subst c1 | reflexivity].
  apply rmatch_seq in H. destruct H as (m2 & c2 & H2 & H).
  apply caps_unchanged in H2; [subst c2 | reflexivity].
  apply tail_group in H; [|reflexivity|reflexivity].
  destruct H as [-> Hb]. exists a, m2. auto.
Qed.

Lemma period_groups s i j c' :
  In (j, c') (rmatch re_period s i []) ->
  i = 0 /\ exists a b, c' = [(2, (b, length s)); (1, (0, a))] /\ 0 < a /\ b < length s.
Proof.
  intros H. apply head_group in H; [|reflexivity|reflexivity].
  destruct H as (-> & a & Ha & H). split; [reflexivity|].
  apply rmatch_seq in H. destruct H as (m1 & c1 & H1 & H).
  apply caps_unchanged in H1; [subst c1 | reflexivity].
  apply tail_group in H; [|reflexivity|reflexivity].
  destruct H as [-> Hb]. exists a, m1. auto.
Qed.

Lemma substring_from_start {A} (s : list A) a : substring s 0 a = firstn a s.
Proof. unfold substring. rewrite Nat.sub_0_r. reflexivity. Qed.

Lemma substring_to_end {A} (s : list A) b : substring s b (length s) = skipn b s.
Proof. unfold substring. apply firstn_all2. rewrite length_skipn. lia. Qed.

(** What [match2] returns for either expression: a prefix and a suffix of
    the text, neither of them empty. *)
Lemma match2_pieces r s g1 g2 :
  r = re_colon \/ r = re_period ->
  match2 r s = Some (g1, g2) ->
  exists a b, g1 = firstn a s /\ g2 = skipn b s /\ 0 < a /\ b < length s.
Proof.
  intros Hr. unfold match2. destruct (exec r s 0) as [m|] eqn:E; [|discriminate].
  pose proof (exec_sound _ _ _ _ E) as Hm.
  assert (Hg : m_start m = 0 /\ exists a b,
               m_caps m = [(2, (b, length s)); (1, (0, a))] /\ 0 < a /\ b < length s).
  { destruct Hr as [-> | ->]; [eapply colon_groups | eapply period_groups]; exact Hm. }
  destruct Hg as (_ & a & b & Hc & Ha & Hb).
  unfold group_text. rewrite Hc. cbn [cap_get Nat.eqb].
  rewrite substring_from_start, substring_to_end.
  intros H. inversion H. exists a, b. repeat split; assumption.
Qed.

Lemma trim_holds {A} (code : A -> jschar) (w : list A) (a : A) :
  In a w -> isSpace (code a) = false -> trim code w <> [].
Proof.
  intros Hin Ha E. apply trim_nil in E. rewrite Forall_forall in E.
  specialize (E a Hin). congruence.
Qed.

(** The pieces of a trimmed text stay non-empty when trimmed. *)
Lemma pieces_nonempty (text : jsstring) (a b : nat) :
  trim (fun c => c) text <> [] -> 0 < a -> b < length (trim (fun c => c) text) ->
  trim (fun c => c) (firstn a (trim (fun c => c) text)) <> []
  /\ trim (fun c => c) (skipn b (trim (fun c => c) text)) <> [].
Proof.
  set (s := trim (fun c : jschar => c) text). intros Hne Ha Hb. split.
  - destruct s as [|x l] eqn:Es; [congruence|].
    destruct a as [|a]; [lia|]. cbn [firstn].
    apply (trim_holds (fun c : jschar => c) _ x); [left; reflexivity|].
    apply (trim_first (fun c : jschar => c) text x l). exact Es.
  - destruct s as [|z l _] eqn:Es using rev_ind; [congruence|].
    rewrite length_app in Hb. cbn [length] in Hb.
    rewrite skipn_app. replace (b - length l) with 0 by lia. cbn [skipn].
    apply (trim_holds (fun c : jschar => c) _ z); [apply in_or_app; right; left; reflexivity|].
    apply (trim_last (fun c : jschar => c) text l z). exact Es.
Qed.

Section Classifier.
Variable unicodeLower : jschar -> jsstring.

Local Abbreviation parseError_ := (parseError unicodeLower).
Local Abbreviation parseText_ := (parseText unicodeLower).
Local Abbreviation infer_cause_ := (infer_cause unicodeLower).

Lemma infer_cause_nonempty (t : jsstring) : infer_cause_ t <> [].
Proof.
  unfold infer_cause.
  repeat match goal with
         | |- context [if ?b then _ else _] => destruct b
         end; discriminate.
Qed.

Lemma parseText_nonempty (text : jsstring) :
  cause (parseText_ text) <> [] /\ message (parseText_ text) <> [].
Proof.
  unfold parseText.
  set (s := trim (fun c : jschar => c) text).
  destruct (is_empty s) eqn:Ee; [split; discriminate|].
  assert (Hne : s <> []) by (destruct s; [discriminate | discriminate]).
  destruct (match2 re_colon s) as [[g1 g2]|] eqn:Ec.
  { destruct (match2_pieces re_colon s g1 g2 (or_introl eq_refl) Ec)
      as (a & b & -> & -> & Ha & Hb).
    cbn [cause message]. apply pieces_nonempty; assumption. }
  destruct (match2 re_period s) as [[g1 g2]|] eqn:Ep.
  { destruct (match2_pieces re_period s g1 g2 (or_intror eq_refl) Ep)
      as (a & b & -> & -> & Ha & Hb).
    destruct (Nat.ltb 10 (length (skipn b s))).
    - cbn [cause message]. apply pieces_nonempty; assumption.
    - cbn [cause message]. split; [apply infer_cause_nonempty | assumption]. }
  cbn [cause message]. split; [apply infer_cause_nonempty | assumption].
Qed.

(** Whatever it is given (nothing, a string, a structured error, a number),
    [parseError] returns a cause and a message that are both non-empty: the
    error view never shows an empty line. *)
Theorem parseError_never_returns_an_empty_field (errorText : errinput) :
  cause (parseError_ errorText) <> [] /\ message (parseError_ errorText) <> [].
Proof.
  destruct errorText as [|s|o|truthy text]; cbn [parseError].
  - split; discriminate.
  - destruct (is_empty s); [split; discriminate | apply parseText_nonempty].
  - unfold parseObject. cbn [cause message].
    split; apply ProviderFacts.or_else_s_nonempty; discriminate.
  - destruct truthy; [apply parseText_nonempty | split; discriminate].
Qed.

(** ** Text of the form [cause: message] *)

Lemma not_colon x : x <> ch ":" -> cmatch (CNot (cChar ":")) x = true.
Proof.
  intros H. unfold cmatch, cChar, cOne. apply negb_true_iff.
  destruct (N.leb_spec (ch ":") x); destruct (N.leb_spec x (ch ":"));
    cbn [andb]; try reflexivity. exfalso. apply H. lia.
Qed.

Lemma is_colon : cmatch (CNot (cChar ":")) (ch ":") = false.
Proof. reflexivity. Qed.

Lemma not_line_term x : isLineTerm x = false -> cmatch cDot x = true.
Proof.
  intros H. unfold isLineTerm in H. unfold cDot.
  change (cmatch (CNot cLineTerm) x) with (negb (cmatch cLineTerm x)).
  rewrite H. reflexivity.
Qed.

Lemma colon_split (c sp m : jsstring) :
  c <> [] -> m <> [] ->
  Forall (fun x => x <> ch ":") c ->
  Forall (fun x => isSpace x = true) sp ->
  Forall (fun x => isLineTerm x = false) m ->
  match m with [] => True | y :: _ => isSpace y = false end ->
  match2 re_colon (c ++ ch ":" :: sp ++ m) = Some (c, m).
Proof.
  intros Hc Hm Fc Fsp Fm Hy.
  set (text := c ++ ch ":" :: sp ++ m).
  set (p := length (c ++ ch ":" :: sp)).
  set (caps1 := [(1, (0, length c))]).
  assert (G1 : best (Group 1 (Plus true (Chr (CNot (cChar ":"))))) text 0 [] = Some (length c, caps1)).
  { apply best_group.
    apply (best_plus_run (CNot (cChar ":")) [] c (ch ":" :: sp ++ m) []); [assumption| |exact is_colon].
    eapply Forall_impl; [|exact Fc]. intros x. apply not_colon. }
  assert (G2 : best (Chr (cChar ":")) text (length c) caps1 = Some (S (length c), caps1)).
  { apply (best_chr _ _ _ _ (ch ":")); [|reflexivity].
    unfold text. rewrite nth_error_app2, Nat.sub_diag by lia. reflexivity. }
  assert (G3 : best (Star true (Chr cSpace)) text (S (length c)) caps1 = Some (p, caps1)).
  { pose proof (best_star_run cSpace (c ++ [ch ":"]) sp m caps1) as H.
    rewrite <- app_assoc in H. cbn [app] in H.
    rewrite length_app in H. cbn [length] in H.
    replace (length c + 1) with (S (length c)) in H by lia.
    fold text in H. rewrite H; [|assumption|destruct m; auto].
    unfold p. rewrite length_app. cbn [length]. f_equal. f_equal. lia. }
  assert (G4 : best (Group 2 (Plus true (Chr cDot))) text p caps1
               = Some (length text, (2, (p, length text)) :: caps1)).
  { apply best_group.
    pose proof (best_plus_run cDot (c ++ ch ":" :: sp) m [] caps1) as H.
    rewrite app_nil_r in H. rewrite <- app_assoc in H. cbn [app] in H.
    fold text in H. fold p in H. rewrite H; [|assumption| |exact I].
    - unfold text, p. rewrite !length_app. cbn [length]. rewrite length_app.
      f_equal. f_equal. lia.
    - eapply Forall_impl; [|exact Fm]. intros x. apply not_line_term. }
  pose proof (best_eol false text ((2, (p, length text)) :: caps1)) as G5.
  pose proof (best_seq _ _ _ _ _ _ _ _ _ G4 G5) as B4.
  pose proof (best_seq _ _ _ _ _ _ _ _ _ G3 B4) as B3.
  pose proof (best_seq _ _ _ _ _ _ _ _ _ G2 B3) as B2.
  pose proof (best_seq _ _ _ _ _ _ _ _ _ G1 B2) as B1.
  pose proof (best_seq _ _ _ _ _ _ _ _ _ (best_bol false text []) B1) as B0.
  unfold match2. change re_colon with
    (Seq (Bol false)
       (Seq (Group 1 (Plus true (Chr (CNot (cChar ":")))))
          (Seq (Chr (cChar ":"))
             (Seq (Star true (Chr cSpace))
                (Seq (Group 2 (Plus true (Chr cDot))) (Eol false)))))).
  rewrite (exec_best _ _ _ _ B0).
  unfold group_text, caps1. cbn [m_caps cap_get Nat.eqb].
  rewrite substring_from_start, substring_to_end.
  unfold text at 1. rewrite firstn_app, firstn_all, Nat.sub_diag. cbn [firstn].
  rewrite app_nil_r.
  unfold text, p.
  replace (c ++ ch ":" :: sp ++ m) with ((c ++ ch ":" :: sp) ++ m)
    by (rewrite <- app_assoc; reflexivity).
  rewrite skipn_prefix. reflexivity.
Qed.

(** An error text of the form [cause: message] is split at its colon.
    When the cause holds no colon, the message stays on one line, and
    neither begins nor ends with white space, [parseError] returns exactly
    that cause and that message, whatever white space follows the colon;
    no keyword of the text is looked at. *)
Theorem cause_and_message_are_split_at_the_colon (c sp m : jsstring) :
  c <> [] -> m <> [] ->
  trim (fun x => x) c = c -> trim (fun x => x) m = m ->
  Forall (fun x => x <> ch ":") c ->
  Forall (fun x => isSpace x = true) sp ->
  Forall (fun x => isLineTerm x = false) m ->
  parseError_ (EString (c ++ ch ":" :: sp ++ m)) = Classified c m.
Proof.
  intros Hc Hm Tc Tm Fc Fsp Fm.
  set (text := c ++ ch ":" :: sp ++ m).
  assert (Hy : match m with [] => True | y :: _ => isSpace y = false end).
  { destruct m as [|y l]; [exact I|]. apply (trim_first (fun x : jschar => x) _ y l Tm). }
  assert (Ht : trim (fun x : jschar => x) text = text).
  { apply trim_id.
    - intros a l E. destruct c as [|x c']; [congruence|].
      unfold text in E. cbn [app] in E. inversion E; subst.
      apply (trim_first (fun x : jschar => x) _ a c' Tc).
    - intros l a E. destruct m as [|z m' _] using rev_ind; [congruence|].
      unfold text in E.
      replace (c ++ ch ":" :: sp ++ m' ++ [z]) with ((c ++ ch ":" :: sp ++ m') ++ [z]) in E
        by (rewrite <- !app_assoc; cbn [app]; rewrite <- app_assoc; reflexivity).
      apply app_inj_tail in E. destruct E as [_ <-].
      apply (trim_last (fun x : jschar => x) _ m' z Tm). }
  cbn [parseError].
  assert (Hne : is_empty text = false) by (unfold text; destruct c; [congruence | reflexivity]).
  rewrite Hne. unfold parseText. rewrite Ht, Hne.
  unfold text. rewrite (colon_split c sp m Hc Hm Fc Fsp Fm Hy), Tc, Tm. reflexivity.
Qed.

(** ** Text that cannot be split *)

Lemma colon_requires : requires (fun x => N.eqb x (ch ":")) re_colon.
Proof.
  cbn. right. right. left. intros x H. unfold cmatch in H. cbn in H.
  apply andb_true_iff in H. destruct H as [H1 H2].
  apply N.leb_le in H1, H2. apply N.eqb_eq. lia.
Qed.

Lemma period_requires : requires (fun x => N.eqb x (ch ".")) re_period.
Proof.
  cbn. right. left. right. left. intros x H. unfold cmatch in H. cbn in H.
  apply andb_true_iff in H. destruct H as [H1 H2].
  apply N.leb_le in H1, H2. apply N.eqb_eq. lia.
Qed.

Lemma trim_incl {A} (code : A -> jschar) (s : list A) (a : A) :
  In a (trim code s) -> In a s.
Proof.
  intros H. destruct (trim_split code s) as (l & r & E & _). rewrite E.
  apply in_or_app. right. apply in_or_app. left. assumption.
Qed.

(** A text with no colon and no period is never split: its message is the
    whole text, trimmed, and its cause is the one of the keyword table; a
    text of white space only is the default error. *)
Theorem text_without_colon_or_period_is_classified_by_keyword (text : jsstring) :
  (forall c, In c text -> c <> ch ":" /\ c <> ch ".") ->
  parseError_ (EString text)
  = if is_empty (trim (fun c => c) text) then defaultError
    else Classified (infer_cause_ (trim (fun c => c) text)) (trim (fun c => c) text).
Proof.
  intros H. cbn [parseError].
  destruct text as [|x text]; [reflexivity|]. cbn [is_empty].
  unfold parseText. set (s := trim (fun c : jschar => c) (x :: text)).
  destruct (is_empty s); [reflexivity|].
  assert (Hs : forall P c0, P = (fun x : jschar => N.eqb x c0) ->
                 (forall c, In c (x :: text) -> c <> c0) ->
                 forall c, In c s -> P c = false).
  { intros P c0 -> Hc c Hin. apply N.eqb_neq. apply Hc.
    apply (trim_incl (fun c : jschar => c)). exact Hin. }
  unfold match2.
  rewrite (exec_needs _ re_colon s 0 colon_requires
             (Hs _ (ch ":") eq_refl (fun c Hc => proj1 (H c Hc)))).
  rewrite (exec_needs _ re_period s 0 period_requires
             (Hs _ (ch ".") eq_refl (fun c Hc => proj2 (H c Hc)))).
  reflexivity.
Qed.

End Classifier.

Lemma text_without_colon_or_period_witness :
  (forall c, In c (str "Request timeout") -> c <> ch ":" /\ c <> ch ".")
  /\ parseError MoreSamples.plain_lower (EString (str "Request timeout"))
     = if is_empty (trim (fun c => c) (str "Request timeout")) then defaultError
       else Classified (infer_cause MoreSamples.plain_lower
                          (trim (fun c => c) (str "Request timeout")))
                       (trim (fun c => c) (str "Request timeout")).
Proof.
  assert (H : forall c, In c (str "Request timeout") -> c <> ch ":" /\ c <> ch ".").
  { intros c Hc. cbn in Hc.
    repeat (destruct Hc as [<-|Hc]; [split; discriminate|]). destruct Hc. }
  split; [exact H|].
  apply (text_without_colon_or_period_is_classified_by_keyword MoreSamples.plain_lower
           (str "Request timeout") H).
Defined.


Lemma cause_and_message_witness :
  let c := str "Rate limit" in
  let m := str "slow down" in
  (c <> [] /\ m <> [] /\ trim (fun x => x) c = c /\ trim (fun x => x) m = m
   /\ Forall (fun x => x <> ch ":") c
   /\ Forall (fun x => isSpace x = true) (str " ")
   /\ Forall (fun x => isLineTerm x = false) m)
  /\ parseError MoreSamples.plain_lower (EString (c ++ ch ":" :: str " " ++ m))
     = Classified c m.
Proof.
  cbv zeta.
  assert (H1 : str "Rate limit" <> []) by discriminate.
  assert (H2 : str "slow down" <> []) by discriminate.
  assert (H3 : trim (fun x : jschar => x) (str "Rate limit") = str "Rate limit")
    by (vm_compute; reflexivity).
  assert (H4 : trim (fun x : jschar => x) (str "slow down") = str "slow down")
    by (vm_compute; reflexivity).
  assert (H5 : Forall (fun x => x <> ch ":") (str "Rate limit"))
    by (repeat constructor; discriminate).
  assert (H6 : Forall (fun x => isSpace x = true) (str " "))
    by (repeat constructor).
  assert (H7 : Forall (fun x => isLineTerm x = false) (str "slow down"))
    by (repeat constructor).
  split; [repeat split; assumption|].
  apply (cause_and_message_are_split_at_the_colon MoreSamples.plain_lower
           (str "Rate limit") (str " ") (str "slow down") H1 H2 H3 H4 H5 H6 H7).
Defined.

End ClassifierFacts.

(* ===================================================================== *)
(** * Theorems: text without markup is one paragraph *)
(* ===================================================================== *)

Module PlainTextFacts.
Import JS Markdown Provenance Matching PlainText MatcherFacts MatchingFacts.

#[local] Arguments cmatch : simpl never.

Lemma range_one c x : cmatch (CRange c c) x = true -> x = c.
Proof.
  unfold cmatch. intros H. apply andb_true_iff in H. destruct H as [H1 H2].
  apply N.leb_le in H1, H2. lia.
Qed.

(** ** The replacements that need a character the text does not have *)

Ltac special_char :=
  let x := fresh "x" in
  let Hx := fresh "Hx" in
  intros x Hx;
  first [ apply range_one in Hx; subst x; vm_compute; reflexivity
        | unfold plain; unfold cDigit in *; rewrite Hx; rewrite andb_false_r; reflexivity ].

Ltac needs_special :=
  lazymatch goal with
  | |- False => fail
  | |- forall x, _ => special_char
  | |- _ \/ _ => first [ left; needs_special | right; needs_special ]
  | |- _ /\ _ => split; needs_special
  | |- requires _ ?r =>
      first [ progress cbn [requires]
            | let r' := eval hnf in r in change r with r'; cbn [requires] ];
      needs_special
  end.

Lemma plain_escape (text : jsstring) :
  Forall (fun c => plain c = true) text -> escapeHtml text = text.
Proof.
  induction 1 as [|c text Hc Ht IH]; [reflexivity|].
  unfold escapeHtml in *. cbn [flat_map]. rewrite IH.
  unfold escape_char.
  unfold plain, special in Hc. cbn [str map list_ascii_of_string app existsb] in Hc.
  apply andb_true_iff in Hc. destruct Hc as [Hc _]. apply negb_true_iff in Hc.
  repeat (apply orb_false_iff in Hc; destruct Hc as [? Hc]).
  repeat match goal with
         | H : N.eqb c ?k = false |- context [N.eqb c ?k'] =>
             change (N.eqb c k') with (N.eqb c k); rewrite H
         end.
  reflexivity.
Qed.

(** ** The wrapped text *)

Section Wrapped.
Variable text : jsstring.
Hypothesis no_lt : forall x, In x text -> x <> ch "<".

Local Abbreviation wrapped := (str "<p>" ++ text ++ str "</p>").

Lemma wrapped_head k y :
  nth_error (str "<p>") k = Some y -> nth_error wrapped k = Some y.
Proof.
  intros H. rewrite nth_error_app1; [assumption|].
  apply nth_error_Some. congruence.
Qed.

Lemma wrapped_tail k :
  nth_error wrapped (3 + length text + k) = nth_error (str "</p>") k.
Proof.
  rewrite nth_error_app2 by (cbn; lia).
  rewrite nth_error_app2 by (cbn; lia).
  f_equal. cbn [str map list_ascii_of_string length]. lia.
Qed.

Lemma wrapped_middle k :
  k < length text -> nth_error wrapped (3 + k) = nth_error text k.
Proof.
  intros H. rewrite nth_error_app2 by (cbn; lia).
  rewrite nth_error_app1 by (cbn [str map list_ascii_of_string length]; lia).
  f_equal. cbn [str map list_ascii_of_string length]. lia.
Qed.

(** The only [<] of the wrapped text are those of the two tags. *)
Lemma wrapped_lt i : nth_error wrapped i = Some (ch "<") -> i = 0 \/ i = 3 + length text.
Proof.
  intros H.
  destruct (Nat.lt_ge_cases i 3) as [L|L].
  - destruct i as [|[|[|i]]]; [auto | cbn in H; discriminate H | cbn in H; discriminate H | lia].
  - replace i with (3 + (i - 3)) in H by lia.
    destruct (Nat.lt_ge_cases (i - 3) (length text)) as [M|M].
    + rewrite wrapped_middle in H by assumption.
      apply nth_error_In in H. destruct (no_lt _ H). reflexivity.
    + replace (3 + (i - 3)) with (3 + length text + (i - 3 - length text)) in H by lia.
      rewrite wrapped_tail in H.
      destruct (i - 3 - length text) as [|[|[|[|k]]]] eqn:E;
        [right; lia | | | | destruct k]; vm_compute in H; discriminate H.
Qed.

(** A literal that begins with [<] and fits neither tag does not occur. *)
Lemma no_occurrence (w : jsstring) i :
  clashes w (str "<p>") = true -> clashes w (str "</p>") = true ->
  nth_error w 0 = Some (ch "<") ->
  (forall k a, nth_error w k = Some a -> nth_error wrapped (i + k) = Some a) ->
  False.
Proof.
  intros C1 C2 H0 Hocc.
  assert (Hclash : forall u, clashes w u = true ->
            exists k x y, nth_error w k = Some x /\ nth_error u k = Some y /\ x <> y).
  { clear. induction w as [|x w IH]; intros [|y u] H; cbn [clashes] in H; try discriminate.
    apply orb_true_iff in H. destruct H as [H|H].
    - exists 0, x, y. repeat split. apply negb_true_iff in H. apply N.eqb_neq. assumption.
    - destruct (IH u H) as (k & a & b & Ha & Hb & Hab). exists (S k), a, b. auto. }
  pose proof (Hocc 0 _ H0) as Hi. rewrite Nat.add_0_r in Hi.
  destruct (wrapped_lt i Hi) as [-> | ->].
  - destruct (Hclash _ C1) as (k & x & y & Hx & Hy & Hxy).
    pose proof (Hocc k x Hx) as H1. cbn [Nat.add] in H1.
    rewrite (wrapped_head k y Hy) in H1. congruence.
  - destruct (Hclash _ C2) as (k & x & y & Hx & Hy & Hxy).
    pose proof (Hocc k x Hx) as H1. rewrite wrapped_tail in H1. congruence.
Qed.

End Wrapped.

(** ** Where a literal matches *)

Lemma lit_chars (w : list ascii) : forall s i c j c',
  In (j, c') (rmatch (SeqL (map (fun a => Chr (cChar a)) w)) s i c) ->
  forall k a, nth_error (map ch w) k = Some a -> nth_error s (i + k) = Some a.
Proof.
  induction w as [|a w IH]; intros s i c j c' H k x Hk.
  - destruct k; discriminate.
  - destruct w as [|b w].
    + cbn [map SeqL] in H. apply rmatch_chr in H. destruct H as (_ & _ & y & Hy & Hc).
      apply range_one in Hc. subst y.
      destruct k as [|[|k]]; try discriminate.
      cbn [map nth_error] in Hk. inversion Hk; subst. rewrite Nat.add_0_r. assumption.
    + change (SeqL (map (fun a => Chr (cChar a)) (a :: b :: w)))
        with (Seq (Chr (cChar a)) (SeqL (map (fun a => Chr (cChar a)) (b :: w)))) in H.
      apply rmatch_seq in H. destruct H as (m & c1 & H1 & H2).
      apply rmatch_chr in H1. destruct H1 as (-> & -> & y & Hy & Hc).
      apply range_one in Hc. subst y.
      destruct k as [|k].
      * cbn [map nth_error] in Hk. inversion Hk; subst. rewrite Nat.add_0_r. assumption.
      * cbn [map nth_error] in Hk.
        replace (i + S k) with (S i + k) by lia.
        eapply IH; [exact H2|]. exact Hk.
Qed.

Lemma begins_with_chars r w s i c j c' :
  begins_with r w ->
  In (j, c') (rmatch r s i c) ->
  forall k a, nth_error (str w) k = Some a -> nth_error s (i + k) = Some a.
Proof.
  intros [-> | [r' ->]] H k a Hk.
  - eapply lit_chars; [exact H | exact Hk].
  - apply rmatch_seq in H. destruct H as (m & c1 & H1 & _).
    eapply lit_chars; [exact H1 | exact Hk].
Qed.

Lemma iterates_class cs s i c j c' :
  iterates (body (Chr cs) s) i c j c' ->
  forall k, i <= k < j -> exists x, nth_error s k = Some x /\ cmatch cs x = true.
Proof.
  induction 1 as [|i c q c1 j c' Hq Hlt Hrest IH]; intros k Hk; [lia|].
  rewrite body_chr in Hq. apply rmatch_chr in Hq.
  destruct Hq as (-> & -> & x & Hx & Hc).
  destruct (Nat.eq_dec k i) as [->|Hne]; [eauto|]. apply IH. lia.
Qed.

Section Cleanup.
Variable text : jsstring.
Hypothesis no_lt : forall x, In x text -> x <> ch "<".
Hypothesis some_ink : Exists (fun c => isSpace c = false) text.

Local Abbreviation wrapped := (str "<p>" ++ text ++ str "</p>").

(** [<p>\s*R] does not match when [R] begins with [<]: the paragraph is
    not empty. *)
Lemma no_empty_paragraph R i c :
  nullable R = false -> (forall x, firstc R x = true -> x = ch "<") ->
  rmatch (Seq (Lit "<p>") (Seq (Star true (Chr cSpace)) R)) wrapped i c = [].
Proof.
  intros NR FR.
  destruct (rmatch _ wrapped i c) as [|[j c'] rest] eqn:E; [reflexivity|]. exfalso.
  assert (H : In (j, c') (rmatch (Seq (Lit "<p>") (Seq (Star true (Chr cSpace)) R))
                                 wrapped i c)) by (rewrite E; left; reflexivity).
  clear E. apply rmatch_seq in H. destruct H as (m1 & c1 & H1 & H).
  pose proof (lit_chars _ _ _ _ _ _ H1) as Hl.
  assert (Hm1 : m1 = i + 3).
  { clear - H1. cbn [Lit list_ascii_of_string map SeqL] in H1.
    apply rmatch_seq in H1. destruct H1 as (a & ca & Ha & H1).
    apply rmatch_chr in Ha. destruct Ha as (-> & _).
    apply rmatch_seq in H1. destruct H1 as (b & cb & Hb & H1).
    apply rmatch_chr in Hb. destruct Hb as (-> & _).
    apply rmatch_chr in H1. destruct H1 as (-> & _). lia. }
  pose proof (Hl 0 (ch "<") eq_refl) as H0. rewrite Nat.add_0_r in H0.
  pose proof (Hl 1 (ch "p") eq_refl) as Hp.
  destruct (wrapped_lt text no_lt i H0) as [-> | ->].
  2:{ rewrite (wrapped_tail text 1) in Hp. vm_compute in Hp. discriminate Hp. }
  subst m1. cbn [Nat.add] in H.
  apply rmatch_seq in H. destruct H as (m2 & c2 & H2 & H).
  apply rmatch_star in H2.
  pose proof (iterates_le _ _ _ _ _ H2) as Hle.
  pose proof (iterates_class _ _ _ _ _ _ H2) as Hsp.
  destruct (first_sound _ _ _ _ _ _ H) as (_ & F & N). specialize (N NR).
  destruct (F N) as (x & Hx & Hf). apply FR in Hf. subst x.
  destruct (wrapped_lt text no_lt m2 Hx) as [-> | ->]; [lia|].
  apply Exists_exists in some_ink. destruct some_ink as (y & Hy & Hink).
  apply In_nth_error in Hy. destruct Hy as [k Hk].
  assert (Hlen : k < length text) by (apply nth_error_Some; congruence).
  destruct (Hsp (3 + k)) as (z & Hz & Hcz); [lia|].
  rewrite (wrapped_middle text k Hlen) in Hz.
  assert (z = y) by congruence. subst z.
  unfold isSpace in Hink. congruence.
Qed.

(** [(T)\s*</p>] does not match when [T] begins with a literal that fits
    neither tag of the wrapped text. *)
Lemma no_closing_tag T w R i c :
  begins_with T w ->
  clashes (str w) (str "<p>") = true -> clashes (str w) (str "</p>") = true ->
  nth_error (str w) 0 = Some (ch "<") ->
  rmatch (Seq (Group 1 T) R) wrapped i c = [].
Proof.
  intros B C1 C2 H0.
  destruct (rmatch _ wrapped i c) as [|[j c'] rest] eqn:E; [reflexivity|]. exfalso.
  assert (H : In (j, c') (rmatch (Seq (Group 1 T) R) wrapped i c))
    by (rewrite E; left; reflexivity).
  clear E. apply rmatch_seq in H. destruct H as (m1 & c1 & H1 & _).
  apply rmatch_group in H1. destruct H1 as (c1' & _ & H1).
  apply (no_occurrence text no_lt (str w) i C1 C2 H0).
  apply (begins_with_chars T w wrapped i c m1 c1' B H1).
Qed.

End Cleanup.

Lemma never_matches_replace {A} (code : A -> jschar) (lit : jschar -> A) r t (s : list A) :
  (forall i, rmatch r (map code s) i [] = []) -> replace_all code lit r t s = s.
Proof.
  intros H. unfold replace_all, replace_fn. cbn [replace_loop]. unfold exec, codes.
  assert (Hs : forall fuel i, search_from r (map code s) fuel i = None).
  { induction fuel as [|f IH]; intros i; cbn [search_from]; [reflexivity|].
    rewrite H. apply IH. }
  rewrite Hs. reflexivity.
Qed.

Lemma first_is_lt_lit (w : string) x :
  nth_error (str w) 0 = Some (ch "<") -> 2 <= String.length w ->
  firstc (Lit w) x = true -> x = ch "<".
Proof.
  destruct w as [|a [|b w]]; cbn [String.length]; try (intros; lia).
  intros H0 _. cbn [str list_ascii_of_string map nth_error] in H0. inversion H0 as [Ha].
  change (Lit (String a (String b w)))
    with (Seq (Chr (cChar a)) (SeqL (map (fun a => Chr (cChar a)) (list_ascii_of_string (String b w))))).
  cbn [firstc nullable andb]. rewrite orb_false_r. intros H.
  unfold cChar, cOne in H. apply range_one in H. congruence.
Qed.

(** A text made of plain characters, not all of them white space, is
    rendered as one paragraph that holds the text unchanged: no construct
    is recognised in it, and none of the paragraph clean-ups applies. *)
Theorem plain_text_is_rendered_as_one_paragraph (text : jsstring) :
  Forall (fun c => plain c = true) text ->
  Exists (fun c => isSpace c = false) text ->
  parseMarkdown text = str "<p>" ++ text ++ str "</p>".
Proof.
  intros Hplain Hink.
  assert (Hne : is_empty text = false).
  { destruct text; [inversion Hink | reflexivity]. }
  unfold parseMarkdown. rewrite Hne, (plain_escape text Hplain).
  set (P := fun x : jschar => negb (plain x)).
  assert (Hs : forall x, In x (map (fun c : jschar => c) text) -> P x = false).
  { intros x Hx. rewrite map_id in Hx. rewrite Forall_forall in Hplain.
    unfold P. rewrite (Hplain x Hx). reflexivity. }
  assert (no_lt : forall x, In x text -> x <> ch "<").
  { intros x Hx ->. rewrite Forall_forall in Hplain. specialize (Hplain _ Hx).
    vm_compute in Hplain. discriminate Hplain. }
  unfold render.
  rewrite (replace_fn_needs (fun c : jschar => c) P re_fence _ text)
    by (try exact Hs; unfold P; needs_special).
  repeat match goal with
         | |- context [replace_all ?code ?lit ?r ?t text] =>
             rewrite (replace_all_needs code lit P r t text)
               by (try exact Hs; unfold P; needs_special)
         end.
  rewrite (replace_fn_needs (fun c : jschar => c) P re_table _ text)
    by (try exact Hs; unfold P; needs_special).
  repeat match goal with
         | |- context [replace_all ?code ?lit ?r ?t text] =>
             rewrite (replace_all_needs code lit P r t text)
               by (try exact Hs; unfold P; needs_special)
         end.
  rewrite !map_id.
  set (s := str "<p>" ++ text ++ str "</p>").
  assert (Hbefore : forall R t,
            nullable R = false -> (forall x, firstc R x = true -> x = ch "<") ->
            replace_all (fun c : jschar => c) (fun c : jschar => c)
                        (Seq (Lit "<p>") (Seq (Star true (Chr cSpace)) R)) t s = s).
  { intros R t NR FR. apply never_matches_replace. intros i. rewrite map_id.
    apply no_empty_paragraph; assumption. }
  assert (Hafter : forall T w R t,
            begins_with T w ->
            clashes (str w) (str "<p>") = true -> clashes (str w) (str "</p>") = true ->
            nth_error (str w) 0 = Some (ch "<") ->
            replace_all (fun c : jschar => c) (fun c : jschar => c)
                        (Seq (Group 1 T) R) t s = s).
  { intros T w R t B C1 C2 H0. apply never_matches_replace. intros i. rewrite map_id.
    apply (no_closing_tag text no_lt T w); assumption. }
  assert (Lt : forall w x, nth_error (str w) 0 = Some (ch "<") -> 2 <= String.length w ->
                 firstc (Group 1 (Lit w)) x = true -> x = ch "<").
  { intros w x H0 H2. cbn [firstc]. apply first_is_lt_lit; assumption. }
  change (SeqL [Lit "<p>"; Star true (Chr cSpace); Lit "</p>"])
    with (Seq (Lit "<p>") (Seq (Star true (Chr cSpace)) (Lit "</p>"))).
  rewrite (Hbefore (Lit "</p>"))
    by first [reflexivity | intros x; apply first_is_lt_lit; [reflexivity | cbn; lia]].
  unfold re_p_before, re_p_after.
  repeat match goal with
         | |- context [SeqL [Lit "<p>"; Star true (Chr cSpace); Group 1 ?tag]] =>
             change (SeqL [Lit "<p>"; Star true (Chr cSpace); Group 1 tag])
               with (Seq (Lit "<p>") (Seq (Star true (Chr cSpace)) (Group 1 tag)))
         | |- context [SeqL [Group 1 ?tag; Star true (Chr cSpace); Lit "</p>"]] =>
             change (SeqL [Group 1 tag; Star true (Chr cSpace); Lit "</p>"])
               with (Seq (Group 1 tag) (Seq (Star true (Chr cSpace)) (Lit "</p>")))
         end.
  rewrite (Hbefore (Group 1 re_h_open))
    by first
         [ reflexivity
         | intros x; unfold re_h_open;
           change (SeqL [Lit "<h"; Chr (CRange 49 52); Lit ">"])
             with (Seq (Lit "<h") (Seq (Chr (CRange 49 52)) (Lit ">")));
           cbn [firstc]; intros H; apply orb_true_iff in H; destruct H as [H|H];
           [apply (first_is_lt_lit "<h"%string); [reflexivity | cbn; lia | exact H]
           |apply andb_true_iff in H; destruct H as [H _]; discriminate H] ].
  rewrite (Hafter re_h_close "</h"%string) by first [reflexivity | right; eexists; reflexivity].
  rewrite (Hbefore (Group 1 (Lit "<ul>"))) by first [reflexivity | intros x; apply Lt; [reflexivity | cbn; lia]].
  rewrite (Hafter (Lit "</ul>") "</ul>"%string) by first [reflexivity | left; reflexivity].
  rewrite (Hbefore (Group 1 (Lit "<pre>"))) by first [reflexivity | intros x; apply Lt; [reflexivity | cbn; lia]].
  rewrite (Hafter (Lit "</pre>") "</pre>"%string) by first [reflexivity | left; reflexivity].
  rewrite (Hbefore (Group 1 (Lit "<blockquote>"))) by first [reflexivity | intros x; apply Lt; [reflexivity | cbn; lia]].
  rewrite (Hafter (Lit "</blockquote>") "</blockquote>"%string) by first [reflexivity | left; reflexivity].
  rewrite (Hbefore (Group 1 (Lit "<hr>"))) by first [reflexivity | intros x; apply Lt; [reflexivity | cbn; lia]].
  rewrite (Hafter (Lit "<hr>") "<hr>"%string) by first [reflexivity | left; reflexivity].
  rewrite (Hbefore (Group 1 (Lit "<table>"))) by first [reflexivity | intros x; apply Lt; [reflexivity | cbn; lia]].
  rewrite (Hafter (Lit "</table>") "</table>"%string) by first [reflexivity | left; reflexivity].
  reflexivity.
Qed.

Lemma plain_text_witness :
  Forall (fun c => plain c = true) (str "Entropy measures disorder.")
  /\ Exists (fun c => isSpace c = false) (str "Entropy measures disorder.")
  /\ parseMarkdown (str "Entropy measures disorder.")
     = str "<p>" ++ str "Entropy measures disorder." ++ str "</p>".
Proof.
  assert (H1 : Forall (fun c => plain c = true) (str "Entropy measures disorder."))
    by (repeat constructor).
  assert (H2 : Exists (fun c => isSpace c = false) (str "Entropy measures disorder."))
    by (left; reflexivity).
  split; [exact H1|]. split; [exact H2|].
  apply (plain_text_is_rendered_as_one_paragraph (str "Entropy measures disorder.") H1 H2).
Defined.

End PlainTextFacts.

(* ===================================================================== *)
(** * Theorems: more on the direction of a text *)
(* ===================================================================== *)

Module DirectionFacts.
Import JS Direction DirectionRefinement.

#[local] Arguments cmatch : simpl never.

(** The characters of the words are characters of the text. *)
Lemma words_from_chars s : forall cur,
  Forall (fun w => forall c, In c w -> In c cur \/ In c s) (words_from cur s).
Proof.
  induction s as [|x s IH]; intros cur; cbn [words_from].
  - destruct cur as [|y cur]; cbn [is_empty]; constructor; [|constructor].
    intros c Hc. left. apply in_rev. assumption.
  - destruct (is_delim x).
    + assert (Hrest : Forall (fun w => forall c, In c w -> In c cur \/ In c (x :: s))
                             (words_from [] s)).
      { eapply Forall_impl; [|apply IH]. cbv beta. intros w Hw c Hc.
        destruct (Hw c Hc) as [[]|H]. right. right. assumption. }
      destruct cur as [|y cur]; cbn [is_empty]; [assumption|].
      constructor; [|assumption]. intros c Hc. left. apply in_rev. assumption.
    + eapply Forall_impl; [|apply IH]. cbv beta. intros w Hw c Hc.
      destruct (Hw c Hc) as [[<-|H]|H]; [right; left; reflexivity | left; assumption
                                        | right; right; assumption].
Qed.

Lemma no_rtl_word (ws : list jsstring) :
  Forall (fun w => has_rtl_char w = false) ws -> rtl_words ws = 0.
Proof.
  unfold rtl_words. induction 1 as [|w ws Hw Hs IH]; [reflexivity|].
  cbn [filter]. rewrite Hw. assumption.
Qed.

(** A text without any right-to-left character is left-to-right, whatever
    else it holds. *)
Theorem text_without_rtl_character_is_ltr (text : jsstring) :
  (forall c, In c text -> cmatch cRtl c = false) ->
  detectTextDirection text = Ltr.
Proof.
  intros H. rewrite detect_refines. unfold direction_of_words.
  rewrite no_rtl_word; [reflexivity|].
  eapply Forall_impl; [|apply (words_from_chars text [])]. cbv beta.
  intros w Hw. unfold has_rtl_char.
  destruct (existsb (cmatch cRtl) w) eqn:E; [|reflexivity].
  apply existsb_exists in E. destruct E as (c & Hc & Hr).
  destruct (Hw c Hc) as [[]|Hin]. rewrite (H c Hin) in Hr. discriminate.
Qed.

Lemma text_without_rtl_character_witness :
  (forall c, In c (str "hello, world") -> cmatch cRtl c = false)
  /\ detectTextDirection (str "hello, world") = Ltr.
Proof.
  assert (H : forall c, In c (str "hello, world") -> cmatch cRtl c = false).
  { intros c Hc. cbn in Hc.
    repeat (destruct Hc as [<-|Hc]; [reflexivity|]). destruct Hc. }
  split; [exact H|].
  apply (text_without_rtl_character_is_ltr (str "hello, world") H).
Defined.

(** ** Words that count for neither side *)

Lemma words_from_word (w : jsstring) : forall cur,
  Forall (fun x => is_delim x = false) w ->
  words_from cur w = if is_empty (rev cur ++ w) then [] else [rev cur ++ w].
Proof.
  induction w as [|x w IH]; intros cur Hw; cbn [words_from].
  - rewrite app_nil_r, is_empty_rev. destruct cur; reflexivity.
  - inversion Hw; subst. rewrite H1. rewrite IH by assumption.
    cbn [rev]. rewrite <- app_assoc. reflexivity.
Qed.

Lemma words_from_snoc (sep : jschar) (w : jsstring) s : forall cur,
  is_delim sep = true -> w <> [] ->
  Forall (fun x => is_delim x = false) w ->
  words_from cur (s ++ sep :: w) = words_from cur s ++ [w].
Proof.
  intros cur Hsep Hne Hw. revert cur.
  assert (Hword : words_from [] w = [w]).
  { rewrite words_from_word by assumption. cbn [rev app].
    destruct w; [congruence | reflexivity]. }
  induction s as [|x s IH]; intros cur; cbn [app words_from].
  - rewrite Hsep, Hword. destruct cur; reflexivity.
  - destruct (is_delim x).
    + destruct (is_empty cur); rewrite IH; reflexivity.
    + apply IH.
Qed.

(** A word with no Latin letter and no right-to-left character (a number,
    say) counts for neither side: added to a text after a separator, it
    leaves the direction as it was. *)
Theorem neutral_word_does_not_change_the_direction
        (text : jsstring) (sep : jschar) (w : jsstring) :
  is_delim sep = true ->
  w <> [] ->
  Forall (fun x => is_delim x = false) w ->
  has_rtl_char w = false ->
  has_latin_letter w = false ->
  detectTextDirection (text ++ sep :: w) = detectTextDirection text.
Proof.
  intros Hsep Hne Hw Hr Hl. rewrite !detect_refines. unfold words_of.
  rewrite (words_from_snoc sep w text [] Hsep Hne Hw).
  unfold direction_of_words, rtl_words, ltr_words.
  rewrite !filter_app. cbn [filter]. rewrite Hr, Hl. cbn [negb andb].
  rewrite !app_nil_r. reflexivity.
Qed.

Lemma neutral_word_witness :
  is_delim (ch " ") = true
  /\ str "2024" <> []
  /\ Forall (fun x => is_delim x = false) (str "2024")
  /\ has_rtl_char (str "2024") = false
  /\ has_latin_letter (str "2024") = false
  /\ detectTextDirection (Vocabulary.shalom ++ ch " " :: str "2024")
     = detectTextDirection Vocabulary.shalom.
Proof.
  assert (H1 : is_delim (ch " ") = true) by reflexivity.
  assert (H2 : str "2024" <> []) by discriminate.
  assert (H3 : Forall (fun x => is_delim x = false) (str "2024")) by (repeat constructor).
  assert (H4 : has_rtl_char (str "2024") = false) by reflexivity.
  assert (H5 : has_latin_letter (str "2024") = false) by reflexivity.
  repeat (split; [assumption|]).
  apply (neutral_word_does_not_change_the_direction Vocabulary.shalom (ch " ") (str "2024")
           H1 H2 H3 H4 H5).
Defined.

End DirectionFacts.

(* ===================================================================== *)
(** * Theorems: the prompts *)
(* ===================================================================== *)

Module PromptFacts.
Import JS Providers Orchestrator Traces.

Lemma occurs_here (w pre post : jsstring) : occurs_in w (pre ++ w ++ post).
Proof. exists pre, post. reflexivity. Qed.

Lemma occurs_later (w pre s : jsstring) : occurs_in w s -> occurs_in w (pre ++ s).
Proof.
  intros (a & b & ->). exists (pre ++ a), b. rewrite <- app_assoc. reflexivity.
Qed.

Lemma occurs_earlier (w s post : jsstring) : occurs_in w s -> occurs_in w (s ++ post).
Proof.
  intros (a & b & ->). exists a, (b ++ post). rewrite <- !app_assoc. reflexivity.
Qed.

Ltac find_occurrence :=
  solve [ repeat first
            [ apply occurs_here
            | match goal with
              | |- occurs_in ?w (?w ++ ?post) => apply (occurs_here w [] post)
              | |- occurs_in ?w ?w => exists [], []; rewrite app_nil_r; reflexivity
              end
            | apply occurs_later ] ].

(** Every prompt the worker builds, for an explanation and for each mode
    of translation, an unknown mode included, holds the selected text as it
    is, between double quotes, and names the language configured. *)
Theorem every_prompt_quotes_the_selection
        (payload : RequestPayload) (language : jsstring) :
  occurs_in (quoted (text payload)) (buildUserMessage payload language)
  /\ occurs_in language (buildUserMessage payload language)
  /\ occurs_in (quoted (text payload)) (buildTranslateUserMessage payload language)
  /\ occurs_in language (buildTranslateUserMessage payload language).
Proof.
  unfold buildUserMessage, buildTranslateUserMessage.
  repeat split;
    repeat match goal with
           | |- context [if ?b then _ else _] => destruct b
           | |- context [match ?x with _ => _ end] => destruct x
           end;
    rewrite <- ?app_assoc; find_occurrence.
Qed.

End PromptFacts.

(* ===================================================================== *)
(** * Theorems: the answers of the cookie-based providers *)
(* ===================================================================== *)

Module CookieProviderFacts.
Import JS CookieProviders StreamFacts.

Lemma split_char_line {A} (code : A -> jschar) (c : jschar) (sep : A) (a b : list A) :
  code sep = c ->
  split_char code c (a ++ sep :: b) = split_char code c a ++ split_char code c b.
Proof.
  intros Hsep. induction a as [|x a IH]; cbn [app split_char].
  - rewrite Hsep, N.eqb_refl. reflexivity.
  - rewrite IH. pose proof (split_char_nonempty code c a) as Hne.
    destruct (N.eqb (code x) c); [reflexivity|].
    destruct (split_char code c a) as [|w ws]; [congruence | reflexivity].
Qed.

Section Claude.
Variable completion_of : jsstring -> jsstring.

Local Abbreviation claude_line_ := (claude_line completion_of).
Local Abbreviation claude_content_ := (claude_content completion_of).

Lemma claude_line_adds acc line : claude_line_ acc line = acc ++ claude_line_ [] line.
Proof.
  unfold claude_line. destruct (starts_with (str "data: ") line); [|symmetry; apply app_nil_r].
  destruct (is_empty _); [symmetry; apply app_nil_r | reflexivity].
Qed.

Lemma claude_lines_add lines : forall acc,
  fold_left claude_line_ lines acc = acc ++ fold_left claude_line_ lines [].
Proof.
  induction lines as [|l lines IH]; intros acc; cbn [fold_left].
  - symmetry. apply app_nil_r.
  - rewrite IH, (IH (claude_line_ [] l)), claude_line_adds, app_assoc. reflexivity.
Qed.

(** The content read from a stream for Claude is what its lines add, in
    order: two streams, one after the other on separate lines, give the
    concatenation of their contents; and the function returns [null] and
    never an empty content. *)
Theorem claude_content_is_additive (a b : jsstring) :
  claude_content_ (a ++ newline :: b) = claude_content_ a ++ claude_content_ b
  /\ parseClaudeResponse completion_of a <> Some []
  /\ (parseClaudeResponse completion_of a = None <-> claude_content_ a = []).
Proof.
  split; [|split].
  - unfold claude_content.
    rewrite (split_char_line (fun c : jschar => c) 10%N newline a b eq_refl).
    rewrite fold_left_app. apply claude_lines_add.
  - unfold parseClaudeResponse. destruct (claude_content_ a); discriminate.
  - unfold parseClaudeResponse. destruct (claude_content_ a); cbn [is_empty];
      split; congruence.
Qed.

End Claude.

Section ChatGPT.
Variable parts_of : jsstring -> option jsstring.

Local Abbreviation chatgpt_lines_ := (chatgpt_lines parts_of).

Lemma chatgpt_stops l1 l2 : forall acc,
  chatgpt_lines_ (l1 ++ str "data: [DONE]" :: l2) acc = chatgpt_lines_ l1 acc.
Proof.
  induction l1 as [|l l1 IH]; intros acc; cbn [app chatgpt_lines].
  - reflexivity.
  - destruct (starts_with (str "data: ") l); [|apply IH].
    destruct (jseqb _ (str "[DONE]")); [reflexivity | apply IH].
Qed.

(** For ChatGPT the stream is read up to its [[DONE]] line only: whatever
    follows that line changes nothing in the answer. *)
Theorem chatgpt_answer_ignores_what_follows_done (before after : jsstring) :
  parseChatGPTResponse parts_of
    (before ++ newline :: str "data: [DONE]" ++ newline :: after)
  = parseChatGPTResponse parts_of before.
Proof.
  unfold parseChatGPTResponse.
  rewrite (split_char_line (fun c : jschar => c) 10%N newline before _ eq_refl).
  rewrite (split_char_line (fun c : jschar => c) 10%N newline (str "data: [DONE]") after
             eq_refl).
  change (split_char (fun c : jschar => c) 10%N (str "data: [DONE]"))
    with [str "data: [DONE]"].
  cbn [app]. rewrite chatgpt_stops. reflexivity.
Qed.

End ChatGPT.

End CookieProviderFacts.

(* ===================================================================== *)
(** * Theorems: the checksum of the icon generator *)
(* ===================================================================== *)

Module IconFacts.
Import Icons.
Local Open Scope Z_scope.

Lemma ToInt32_mod x : ToInt32 x mod 2 ^ 32 = x mod 2 ^ 32.
Proof.
  unfold ToInt32. rewrite Zminus_mod_idemp_l. f_equal. lia.
Qed.

Lemma mod_pow2_lxor a b n :
  0 <= n -> Z.lxor a b mod 2 ^ n = Z.lxor (a mod 2 ^ n) (b mod 2 ^ n).
Proof.
  intros Hn. apply Z.bits_inj'. intros k Hk.
  rewrite Z.lxor_spec.
  destruct (Z.lt_ge_cases k n) as [H|H].
  - rewrite !Z.mod_pow2_bits_low, Z.lxor_spec by assumption. reflexivity.
  - rewrite !Z.mod_pow2_bits_high by lia. reflexivity.
Qed.

Lemma ToUint32_range x : 0 <= ToUint32 x < 2 ^ 32.
Proof. unfold ToUint32. apply Z.mod_pos_bound. reflexivity. Qed.

Lemma ToUint32_small x : 0 <= x < 2 ^ 32 -> ToUint32 x = x.
Proof. intros H. unfold ToUint32. apply Z.mod_small. exact H. Qed.

Lemma ToUint32_bxor a b : ToUint32 (bxor a b) = Z.lxor (ToUint32 a) (ToUint32 b).
Proof.
  unfold ToUint32, bxor. rewrite mod_pow2_lxor, !ToInt32_mod by lia. reflexivity.
Qed.

Lemma low_byte x : x mod 256 = (x mod 2 ^ 32) mod 256.
Proof.
  symmetry. apply Z.mod_mod_divide. exists (2 ^ 24). reflexivity.
Qed.

Lemma band_byte x : band x 0xff = ToUint32 x mod 256.
Proof.
  unfold band, ToUint32. change (ToInt32 0xff) with (Z.ones 8).
  rewrite Z.land_ones by lia. change (2 ^ 8) with 256.
  rewrite low_byte, ToInt32_mod. reflexivity.
Qed.

Lemma shiftr_range x n : 0 <= n -> 0 <= x < 2 ^ 32 -> 0 <= Z.shiftr x n < 2 ^ 32.
Proof.
  intros Hn [H0 H1]. rewrite Z.shiftr_div_pow2 by assumption.
  assert (0 < 2 ^ n) by (apply Z.pow_pos_nonneg; lia).
  split; [apply Z.div_pos; lia|].
  apply Z.le_lt_trans with x; [|assumption].
  apply Z.div_le_upper_bound; [assumption|]. nia.
Qed.

Lemma ushr_range a n : 0 <= ushr a n < 2 ^ 32.
Proof.
  unfold ushr. apply shiftr_range; [|apply ToUint32_range].
  apply Z.mod_pos_bound. reflexivity.
Qed.

(** The checksum is an unsigned 32-bit number. *)
Lemma crc32_range data : 0 <= crc32 data < 2 ^ 32.
Proof. unfold crc32. apply ushr_range. Qed.

(** The state of the loop, read as an unsigned number, after one byte. *)
Lemma update_unsigned crc byte :
  ToUint32 (crc_update makeCrcTable crc byte)
  = Z.lxor (Z.shiftr (ToUint32 crc) 8)
           (ToUint32 (at_index makeCrcTable
                        (Z.lxor (ToUint32 crc) (ToUint32 byte) mod 256))).
Proof.
  unfold crc_update. rewrite ToUint32_bxor, band_byte, ToUint32_bxor.
  rewrite (ToUint32_small (ushr crc 8)) by apply ushr_range.
  reflexivity.
Qed.

Lemma lxor_cancel_r a b t : Z.lxor a t = Z.lxor b t -> a = b.
Proof.
  intros H. apply (f_equal (fun x => Z.lxor x t)) in H.
  rewrite !Z.lxor_assoc, Z.lxor_nilpotent, !Z.lxor_0_r in H. exact H.
Qed.

Lemma lxor_cancel_l a b t : Z.lxor t a = Z.lxor t b -> a = b.
Proof. rewrite !(Z.lxor_comm t). apply lxor_cancel_r. Qed.

(** The entries of the table differ in their top bytes. *)
Lemma table_top_bytes (i j : Z) :
  0 <= i < 256 -> 0 <= j < 256 ->
  Z.shiftr (ToUint32 (at_index makeCrcTable i)) 24
  = Z.shiftr (ToUint32 (at_index makeCrcTable j)) 24 ->
  i = j.
Proof.
  intros Hi Hj.
  assert (Hall : forallb (fun a => forallb (fun b =>
            implb (Z.shiftr (ToUint32 (nth a makeCrcTable 0)) 24
                   =? Z.shiftr (ToUint32 (nth b makeCrcTable 0)) 24)
                  (Nat.eqb a b)) (seq 0 256)) (seq 0 256) = true)
    by (vm_compute; reflexivity).
  rewrite forallb_forall in Hall.
  specialize (Hall (Z.to_nat i)). rewrite forallb_forall in Hall.
  specialize (Hall ltac:(apply in_seq; lia) (Z.to_nat j) ltac:(apply in_seq; lia)).
  unfold at_index.
  destruct (Z.ltb_spec i 0); [lia|]. destruct (Z.ltb_spec j 0); [lia|].
  intros E. rewrite E, Z.eqb_refl in Hall. cbn [implb] in Hall.
  apply Nat.eqb_eq in Hall. lia.
Qed.

Lemma top_byte cu t :
  0 <= cu < 2 ^ 32 -> Z.shiftr (Z.lxor (Z.shiftr cu 8) t) 24 = Z.shiftr t 24.
Proof.
  intros H. rewrite Z.shiftr_lxor, Z.shiftr_shiftr by lia.
  change (8 + 24) with 32.
  rewrite (Z.shiftr_div_pow2 cu 32), Z.div_small by lia.
  apply Z.lxor_0_l.
Qed.

Lemma update_index cu cu' b b' :
  0 <= cu < 2 ^ 32 -> 0 <= cu' < 2 ^ 32 ->
  Z.lxor (Z.shiftr cu 8) (ToUint32 (at_index makeCrcTable (Z.lxor cu b mod 256)))
  = Z.lxor (Z.shiftr cu' 8) (ToUint32 (at_index makeCrcTable (Z.lxor cu' b' mod 256))) ->
  Z.lxor cu b mod 256 = Z.lxor cu' b' mod 256 /\ Z.shiftr cu 8 = Z.shiftr cu' 8.
Proof.
  intros H H' E.
  assert (Ei : Z.lxor cu b mod 256 = Z.lxor cu' b' mod 256).
  { apply table_top_bytes; try (apply Z.mod_pos_bound; reflexivity).
    apply (f_equal (fun x => Z.shiftr x 24)) in E.
    rewrite (top_byte cu _ H), (top_byte cu' _ H') in E. exact E. }
  split; [exact Ei|].
  rewrite Ei in E. apply lxor_cancel_r in E. exact E.
Qed.

Lemma split_low cu cu' :
  0 <= cu -> 0 <= cu' ->
  cu mod 256 = cu' mod 256 -> Z.shiftr cu 8 = Z.shiftr cu' 8 -> cu = cu'.
Proof.
  intros H H' Em Es. rewrite !Z.shiftr_div_pow2 in Es by lia.
  change (2 ^ 8) with 256 in Es.
  rewrite (Z.div_mod cu 256), (Z.div_mod cu' 256) by lia. congruence.
Qed.

(** For one byte the update is injective in the state. *)
Lemma update_inj_state c c' byte :
  ToUint32 (crc_update makeCrcTable c byte) = ToUint32 (crc_update makeCrcTable c' byte) ->
  ToUint32 c = ToUint32 c'.
Proof.
  rewrite !update_unsigned. intros E.
  pose proof (ToUint32_range c) as H. pose proof (ToUint32_range c') as H'.
  apply update_index in E; [|assumption|assumption].
  destruct E as [Ei Es].
  apply split_low; [lia | lia | | exact Es].
  change 256 with (2 ^ 8) in Ei. rewrite !mod_pow2_lxor in Ei by lia.
  apply lxor_cancel_r in Ei. exact Ei.
Qed.

(** For one state the update is injective in the byte. *)
Lemma update_inj_byte c b b' :
  0 <= b < 256 -> 0 <= b' < 256 ->
  ToUint32 (crc_update makeCrcTable c b) = ToUint32 (crc_update makeCrcTable c b') ->
  b = b'.
Proof.
  intros Hb Hb'. rewrite !update_unsigned. intros E.
  pose proof (ToUint32_range c) as H.
  apply update_index in E; [|assumption|assumption].
  destruct E as [Ei _].
  change 256 with (2 ^ 8) in Ei. rewrite !mod_pow2_lxor in Ei by lia.
  apply lxor_cancel_l in Ei.
  rewrite !ToUint32_small in Ei by lia.
  change (2 ^ 8) with 256 in Ei. rewrite !Z.mod_small in Ei by lia. exact Ei.
Qed.

Lemma states_stay_apart post : forall c c',
  ToUint32 c <> ToUint32 c' ->
  ToUint32 (fold_left (crc_update makeCrcTable) post c)
  <> ToUint32 (fold_left (crc_update makeCrcTable) post c').
Proof.
  induction post as [|b post IH]; intros c c' H; cbn [fold_left]; [exact H|].
  apply IH. intros E. apply H. apply (update_inj_state c c' b E).
Qed.

Lemma crc32_of_state c c' :
  ushr (bxor c 0xffffffff) 0 = ushr (bxor c' 0xffffffff) 0 -> ToUint32 c = ToUint32 c'.
Proof.
  unfold ushr. change (0 mod 32) with 0. rewrite !Z.shiftr_0_r, !ToUint32_bxor.
  apply lxor_cancel_r.
Qed.

(** The checksum detects every change of a single byte: two inputs that
    differ in exactly one byte never have the same checksum. *)
Theorem crc32_detects_a_changed_byte (before after : list Z) (b b' : Z) :
  0 <= b < 256 -> 0 <= b' < 256 -> b <> b' ->
  crc32 (before ++ b :: after) <> crc32 (before ++ b' :: after).
Proof.
  intros Hb Hb' Hne E. unfold crc32 in E. cbv zeta in E.
  apply crc32_of_state in E. revert E.
  rewrite !fold_left_app. cbn [fold_left].
  apply states_stay_apart. intros E. apply Hne.
  apply (update_inj_byte _ b b' Hb Hb' E).
Qed.

Lemma crc32_detects_a_changed_byte_witness :
  0 <= 73 < 256 /\ 0 <= 69 < 256 /\ 73 <> 69
  /\ crc32 ([] ++ 73 :: [72; 68; 82]) <> crc32 ([] ++ 69 :: [72; 68; 82]).
Proof.
  assert (H1 : 0 <= 73 < 256) by lia.
  assert (H2 : 0 <= 69 < 256) by lia.
  assert (H3 : 73 <> 69) by lia.
  repeat split; try lia.
  apply (crc32_detects_a_changed_byte [] [72; 68; 82] 73 69 H1 H2 H3).
Defined.

Lemma writeUInt32BE_length value bytes :
  writeUInt32BE value = Some bytes -> length bytes = 4%nat.
Proof.
  unfold writeUInt32BE. destruct (_ && _); [|discriminate].
  intros E. inversion E. reflexivity.
Qed.

(** [createChunk] fails only on data of 2^32 bytes or more: the checksum
    always fits its field.  The chunk it returns has twelve bytes more than
    the data under a type of four bytes: the length, the type, the data and
    the checksum of type and data, in this order. *)
Theorem createChunk_layout (type data : list Z) :
  (createChunk type data = None <-> 2 ^ 32 <= Z.of_nat (length data))
  /\ (forall chunk, createChunk type data = Some chunk ->
        length chunk = (length type + length data + 8)%nat
        /\ firstn (length type + length data) (skipn 4 chunk) = type ++ data
        /\ writeUInt32BE (Z.of_nat (length data)) = Some (firstn 4 chunk)
        /\ writeUInt32BE (crc32 (type ++ data))
           = Some (skipn (4 + length type + length data) chunk)).
Proof.
  unfold createChunk.
  pose proof (crc32_range (type ++ data)) as Hc.
  destruct (writeUInt32BE (crc32 (type ++ data))) as [crcBuffer|] eqn:Ec.
  2:{ unfold writeUInt32BE in Ec.
      destruct (Z.leb_spec 0 (crc32 (type ++ data))); [|lia].
      destruct (Z.ltb_spec (crc32 (type ++ data)) (2 ^ 32)); [|lia].
      discriminate Ec. }
  destruct (writeUInt32BE (Z.of_nat (length data))) as [len|] eqn:El.
  - pose proof (writeUInt32BE_length _ _ El) as Hl.
    pose proof (writeUInt32BE_length _ _ Ec) as Hcl.
    split.
    + split; [discriminate|]. intros H. unfold writeUInt32BE in El.
      destruct (Z.ltb_spec (Z.of_nat (length data)) (2 ^ 32)); [lia|].
      rewrite andb_false_r in El. discriminate El.
    + intros chunk E. inversion E; subst chunk; clear E.
      destruct len as [|l0 [|l1 [|l2 [|l3 [|? ?]]]]]; try discriminate Hl.
      change (4 + length type + length data)%nat
        with (S (S (S (S (length type + length data))))).
      cbn [app skipn firstn]. split; [|split; [|split]].
      * cbn [length]. rewrite !length_app, Hcl. lia.
      * rewrite app_assoc, firstn_app, length_app.
        rewrite firstn_all2 by (rewrite length_app; lia).
        replace (length type + length data - (length type + length data))%nat with 0%nat
          by lia.
        cbn [firstn]. apply app_nil_r.
      * reflexivity.
      * f_equal. rewrite app_assoc, skipn_app, length_app.
        rewrite skipn_all2 by (rewrite length_app; lia).
        replace (length type + length data - (length type + length data))%nat with 0%nat
          by lia.
        reflexivity.
  - split.
    + split; [intros _|reflexivity]. unfold writeUInt32BE in El.
      destruct (Z.leb_spec 0 (Z.of_nat (length data))); [|lia].
      destruct (Z.ltb_spec (Z.of_nat (length data)) (2 ^ 32)); [discriminate El | lia].
    + intros chunk E. discriminate E.
Qed.

End IconFacts.
